(** * Math24: the solvability oracle and the puzzle generator

    A shallow embedding of [findSolution] and [generateSolvablePuzzle] of
    [math24-game/src/Math24Game.tsx].

    - A JavaScript [number] is an IEEE-754 binary64 value; it is modelled by
      the Standard Library's [spec_float] at precision 53 and maximal
      exponent 1024, with round-to-nearest-even operations.
    - The integers handed to [findSolution] are kept as [Z]; [of_Z] is the
      number they denote and [toString] their decimal text, which is what
      JavaScript prints for the safe integers, of absolute value up to
      [2 ^ 53]. Pools of operands with other values and texts are handed to
      [search] directly.
    - [search] throws a [TypeError] when it reads a field of [undefined]
      (an array read out of bounds); the model keeps that outcome apart
      from a returned [null], and recursion is driven by a fuel counter
      whose exhaustion is a third outcome.
    - The host of [generateSolvablePuzzle] is a parameter: the values of
      [Math.random()] and the array left by [Array.prototype.sort].
    - [evaluateExpression] and the component [Math24Game] are modelled too:
      the component as a state machine over the values of its hooks, with
      the host ([Function], the hint service) as a parameter. *)

From Stdlib Require Import ZArith List String Ascii Bool Lia Permutation.

From Stdlib Require Import SpecFloat DecimalString DecimalZ.

From Stdlib Require QArith.

Import ListNotations.

Local Open Scope string_scope.

Local Open Scope list_scope.

(** ** binary64 numbers *)

Module Float64.

Definition prec : Z := 53.

Definition emax : Z := 1024.

Definition float64 : Type := spec_float.

Definition add : float64 -> float64 -> float64 := SFadd prec emax.

Definition sub : float64 -> float64 -> float64 := SFsub prec emax.

Definition mul : float64 -> float64 -> float64 := SFmul prec emax.

Definition div : float64 -> float64 -> float64 := SFdiv prec emax.

Definition abs : float64 -> float64 := SFabs.

Definition ltb : float64 -> float64 -> bool := SFltb.

Definition leb : float64 -> float64 -> bool := SFleb.

(** The number denoted by an integer literal: the nearest binary64. *)
Definition of_Z (n : Z) : float64 := binary_normalize prec emax n 0 false.

(** The literals [1e-6] and [1e-9]: the binary64 nearest to the decimal
    fraction, which is the correctly rounded quotient of two exactly
    representable integers. *)
Definition lit_1e_6 : float64 := div (of_Z 1) (of_Z 1000000).

Definition lit_1e_9 : float64 := div (of_Z 1) (of_Z 1000000000).

Definition is_finite (x : float64) : bool :=
  match x with
  | S754_zero _ | S754_finite _ _ _ => true
  | S754_infinity _ | S754_nan => false
  end.

End Float64.

Import Float64.

(** ** Outcomes of a call *)

Inductive outcome (A : Type) : Type :=
| Ret (a : A)
| TypeError
| OutOfFuel.

Arguments Ret {A} a.

Arguments TypeError {A}.

Arguments OutOfFuel {A}.

Definition bind {A B : Type} (m : outcome A) (k : A -> outcome B) : outcome B :=
  match m with
  | Ret a => k a
  | TypeError => TypeError
  | OutOfFuel => OutOfFuel
  end.

Notation "x <- m ;; k" := (bind m (fun x => k))
  (at level 61, m at next level, right associativity).

(** ** Data model *)

Inductive Mode : Type := easy | hard.

Definition Mode_eqb (a b : Mode) : bool :=
  match a, b with
  | easy, easy | hard, hard => true
  | _, _ => false
  end.

Record ExprNode : Type := { val : float64; expr : string }.

Record Puzzle : Type :=
  { nums : list Z; hints : list string; solution : string }.

Record Op : Type :=
  { symbol : string; calc : ExprNode -> ExprNode -> option ExprNode }.

(** [n.toString()] of a safe integer: its decimal digits, after a minus
    sign when it is negative. This is the text JavaScript prints for an
    integer [n] with [|n| <= 2 ^ 53], which is the number [of_Z n] exactly.
    Of a larger number JavaScript prints the shortest digits that read back
    as the same number ([144115188075855870] for [2 ^ 57]) and, from [1e21]
    on, an exponent ([1e+21]); [toString] does not follow it there, so the
    statements about the text of a solution are made on safe integers. *)
Definition toString (n : Z) : string := NilZero.string_of_int (Z.to_int n).

(** [arr[i]!] followed by a field read: [undefined] has no fields. *)
Definition get {A : Type} (arr : list A) (i : nat) : outcome A :=
  match nth_error arr i with
  | Some x => Ret x
  | None => TypeError
  end.

(** [arr.filter((_, idx) => p idx)]. *)
Fixpoint filter_from {A : Type} (p : nat -> bool) (idx : nat) (arr : list A) : list A :=
  match arr with
  | [] => []
  | x :: arr' =>
      if p idx then x :: filter_from p (S idx) arr' else filter_from p (S idx) arr'
  end.

Definition filter_idx {A : Type} (p : nat -> bool) (arr : list A) : list A :=
  filter_from p 0 arr.

(** A string is truthy when it is not empty; [null] is falsy. *)
Definition truthy (found : option string) : bool :=
  match found with
  | Some EmptyString | None => false
  | Some (String _ _) => true
  end.

(** A [for] loop whose body either falls through ([Ret None]) or leaves the
    enclosing function with a value, an exception or no fuel. *)
Fixpoint for_of {A : Type} (l : list A) (body : A -> outcome (option string))
  : outcome (option string) :=
  match l with
  | [] => Ret None
  | x :: l' =>
      match body x with
      | Ret None => for_of l' body
      | r => r
      end
  end.

(** ** findSolution *)

Definition ops : list Op :=
  [ {| symbol := "+";
       calc := fun a b =>
         Some {| val := add (val a) (val b);
                 expr := ("(" ++ expr a ++ "+" ++ expr b ++ ")")%string |} |};
    {| symbol := "-";
       calc := fun a b =>
         Some {| val := sub (val a) (val b);
                 expr := ("(" ++ expr a ++ "-" ++ expr b ++ ")")%string |} |};
    {| symbol := "*";
       calc := fun a b =>
         Some {| val := mul (val a) (val b);
                 expr := ("(" ++ expr a ++ "*" ++ expr b ++ ")")%string |} |};
    {| symbol := "/";
       calc := fun a b =>
         if ltb (abs (val b)) lit_1e_9 then None
         else Some {| val := div (val a) (val b);
                      expr := ("(" ++ expr a ++ "/" ++ expr b ++ ")")%string |} |} ].

(** [Math.abs(v - 24) < 1e-6]. *)
Definition near24 (v : float64) : bool := ltb (abs (sub v (of_Z 24))) lit_1e_6.

Fixpoint search (mode : Mode) (fuel : nat) (arr : list ExprNode)
  : outcome (option string) :=
  match fuel with
  | O => OutOfFuel
  | S fuel' =>
      if Nat.eqb (List.length arr) 1 then
        x <- get arr 0 ;;
        Ret (if near24 (val x) then Some (expr x) else None)
      else
        for_of (seq 0 (List.length arr)) (fun i =>
          for_of (seq 0 (List.length arr)) (fun j =>
            if Nat.eqb i j then Ret None
            else
              let rest :=
                filter_idx (fun idx => negb (Nat.eqb idx i) && negb (Nat.eqb idx j)) arr in
              for_of ops (fun op =>
                if Mode_eqb mode easy && String.eqb (symbol op) "/" then Ret None
                else
                  a <- get arr i ;;
                  b <- get arr j ;;
                  match calc op a b with
                  | None => Ret None
                  | Some result =>
                      found <- search mode fuel' (rest ++ [result]) ;;
                      Ret (if truthy found then found else None)
                  end)))
  end.

Definition seeds (nums : list Z) : list ExprNode :=
  map (fun n => {| val := of_Z n; expr := toString n |}) nums.

(** The recursion enters one call per pool size from [length nums] down to
    one, so [S (List.length nums)] levels of fuel are never used up. *)
Definition findSolution (nums : list Z) (mode : Mode) : outcome (option string) :=
  search mode (S (List.length nums)) (seeds nums).

(** ** generateSolvablePuzzle *)

(** [Math.floor]. *)
Definition floor (x : float64) : float64 :=
  match x with
  | S754_finite s m e =>
      if (0 <=? e)%Z then x
      else of_Z (cond_Zopp s (Zpos m) / 2 ^ (- e))%Z
  | _ => x
  end.

(** The integer an integer-valued number stands for: [findSolution] is
    modelled on integers. *)
Definition to_Z (x : float64) : Z :=
  match x with
  | S754_finite s m e =>
      if (0 <=? e)%Z then (cond_Zopp s (Zpos m) * 2 ^ e)%Z
      else (cond_Zopp s (Zpos m) / 2 ^ (- e))%Z
  | _ => 0%Z
  end.

(** [Math.floor(r * 9) + 1], for a value [r] of [Math.random()]. *)
Definition sample (r : float64) : Z :=
  to_Z (add (floor (mul r (of_Z 9))) (of_Z 1)).

(** What [Math.random()] promises of its result: a number, at least zero
    and below one. *)
Definition in_unit (r : float64) : bool :=
  valid_binary prec emax r && leb (of_Z 0) r && ltb r (of_Z 1).

Section Generator.

(** The host: [random k] is the value of the [k]-th call of [Math.random()];
    [sort_coin arr k] is the copy of [arr] that
    [sort(() => Math.random() - 0.5)] leaves when [k] values have been drawn
    before, with the number of values drawn once it is done. *)
Variable random : nat -> float64.

Variable sort_coin : list Z -> nat -> list Z * nat.

Definition shuffle (arr : list Z) (k : nat) : list Z * nat := sort_coin arr k.

(** The [while (true)] loop runs at most [fuel] times; [k] counts the values
    drawn so far. *)
Fixpoint generateSolvablePuzzle (fuel : nat) (mode : Mode) (k : nat)
  : outcome (Puzzle * nat) :=
  match fuel with
  | O => OutOfFuel
  | S fuel' =>
      let nums := map (fun i => sample (random (k + i))) (seq 0 4) in
      solution <- findSolution nums mode ;;
      match solution with
      | Some (String c s) =>
          let (shuffled, k') := shuffle nums (k + 4) in
          Ret ({| nums := shuffled; hints := []; solution := String c s |}, k')
      | Some EmptyString | None => generateSolvablePuzzle fuel' mode (k + 4)
      end
  end.

End Generator.

(** ** Arithmetic expressions and their text

    The vocabulary in which the properties of the returned string are
    stated: fully parenthesized expressions over integer literals, their
    value in binary64 arithmetic, their text, and a reader for that text. *)

Inductive BinOp : Type := Add | Sub | Mul | Div.

Inductive Expr : Type :=
| Num (n : Z)
| Bin (o : BinOp) (l r : Expr).

Definition op_symbol (o : BinOp) : ascii :=
  match o with
  | Add => "+" | Sub => "-" | Mul => "*" | Div => "/"
  end%char.

Definition op_of_symbol (c : ascii) : option BinOp :=
  if Ascii.eqb c "+" then Some Add
  else if Ascii.eqb c "-" then Some Sub
  else if Ascii.eqb c "*" then Some Mul
  else if Ascii.eqb c "/" then Some Div
  else None.

Definition apply_op (o : BinOp) : float64 -> float64 -> float64 :=
  match o with
  | Add => add | Sub => sub | Mul => mul | Div => div
  end.

Fixpoint eval (e : Expr) : float64 :=
  match e with
  | Num n => of_Z n
  | Bin o l r => apply_op o (eval l) (eval r)
  end.

Fixpoint render (e : Expr) : string :=
  match e with
  | Num n => toString n
  | Bin o l r => ("(" ++ render l ++ String (op_symbol o) (render r ++ ")"))%string
  end.

(** The integer literals of an expression, left to right. *)
Fixpoint leaves (e : Expr) : list Z :=
  match e with
  | Num n => [n]
  | Bin _ l r => leaves l ++ leaves r
  end.

(** The divisors of an expression: the right operand of every division. *)
Fixpoint divisors (e : Expr) : list Expr :=
  match e with
  | Num _ => []
  | Bin o l r =>
      (match o with Div => [r] | _ => [] end) ++ divisors l ++ divisors r
  end.

(** Every sub-expression, the expression itself included. *)
Fixpoint subexprs (e : Expr) : list Expr :=
  e :: match e with
       | Num _ => []
       | Bin _ l r => subexprs l ++ subexprs r
       end.

Fixpoint height (e : Expr) : nat :=
  match e with
  | Num _ => 0
  | Bin _ l r => S (Nat.max (height l) (height r))
  end.

(** A bound on the binary order of magnitude of the value of an expression
    over safe integers: 55 for a literal, and 84 more than its operands
    together for a combination. *)
Fixpoint mag (t : Expr) : Z :=
  match t with
  | Num _ => 55
  | Bin _ l r => mag l + mag r + 84
  end%Z.

Definition is_digit (c : ascii) : bool :=
  (48 <=? nat_of_ascii c)%nat && (nat_of_ascii c <=? 57)%nat.

Fixpoint span_digits (s : string) : string * string :=
  match s with
  | EmptyString => (EmptyString, EmptyString)
  | String c s' =>
      if is_digit c then
        let (d, r) := span_digits s' in (String c d, r)
      else (EmptyString, s)
  end.

(** An integer literal: an optional minus sign and the longest run of digits. *)
Definition read_int (s : string) : option (Z * string) :=
  let (lit, r) :=
    match s with
    | String c s' =>
        if Ascii.eqb c "-" then
          let (d, r) := span_digits s' in (String c d, r)
        else span_digits s
    | EmptyString => (EmptyString, EmptyString)
    end in
  match NilZero.int_of_string lit with
  | Some d => Some (Z.of_int d, r)
  | None => None
  end.

(** expr ::= literal | "(" expr op expr ")" *)
Fixpoint read_expr (fuel : nat) (s : string) : option (Expr * string) :=
  match fuel with
  | O => None
  | S fuel' =>
      match s with
      | String "(" s1 =>
          match read_expr fuel' s1 with
          | Some (l, String c s2) =>
              match op_of_symbol c, read_expr fuel' s2 with
              | Some o, Some (r, String ")" s3) => Some (Bin o l r, s3)
              | _, _ => None
              end
          | _ => None
          end
      | _ =>
          match read_int s with
          | Some (n, r) => Some (Num n, r)
          | None => None
          end
      end
  end.

Definition parse (s : string) : option Expr :=
  match read_expr (S (String.length s)) s with
  | Some (e, EmptyString) => Some e
  | _ => None
  end.

(** The value of an expression text under binary64 arithmetic. *)
Definition evalString (s : string) : option float64 := option_map eval (parse s).

(** The integer literals of an expression text. *)
Definition literals (s : string) : option (list Z) := option_map leaves (parse s).

Fixpoint contains (c : ascii) (s : string) : bool :=
  match s with
  | EmptyString => false
  | String c' s' => Ascii.eqb c' c || contains c s'
  end.

Fixpoint has_div (t : Expr) : bool :=
  match t with
  | Num _ => false
  | Bin o l r => (match o with Div => true | _ => false end) || has_div l || has_div r
  end.

(** A divisor is near zero when the guard [Math.abs(b.val) < 1e-9] fires. *)
Definition near_zero (v : float64) : bool := ltb (abs v) lit_1e_9.

(** ** The search as a derivation

    One combination step replaces two operands of the pool by the result of
    an enabled operator; a derivation is a sequence of steps that ends in a
    pool of one operand. *)

Definition enabled (mode : Mode) (op : Op) : bool :=
  negb (Mode_eqb mode easy && String.eqb (symbol op) "/").

Definition rest_of {A : Type} (i j : nat) (arr : list A) : list A :=
  filter_idx (fun idx => negb (Nat.eqb idx i) && negb (Nat.eqb idx j)) arr.

Inductive step (mode : Mode) (arr : list ExprNode) : list ExprNode -> Prop :=
| step_intro (i j : nat) (a b : ExprNode) (op : Op) (result : ExprNode) :
    i <> j ->
    nth_error arr i = Some a ->
    nth_error arr j = Some b ->
    In op ops ->
    enabled mode op = true ->
    calc op a b = Some result ->
    step mode arr (rest_of i j arr ++ [result]).

Inductive derives (mode : Mode) : list ExprNode -> ExprNode -> Prop :=
| derives_one (x : ExprNode) : derives mode [x] x
| derives_step (arr arr' : list ExprNode) (x : ExprNode) :
    List.length arr <> 1%nat ->
    step mode arr arr' ->
    derives mode arr' x ->
    derives mode arr x.

(** The pools handed to the recursive calls of [search] on [arr], in the
    order of the calls. *)
Definition subpools (mode : Mode) (arr : list ExprNode) : list (list ExprNode) :=
  if Nat.eqb (List.length arr) 1 then []
  else
    flat_map (fun i =>
      flat_map (fun j =>
        if Nat.eqb i j then []
        else
          flat_map (fun op =>
            if enabled mode op then
              match nth_error arr i, nth_error arr j with
              | Some a, Some b =>
                  match calc op a b with
                  | Some result => [rest_of i j arr ++ [result]]
                  | None => []
                  end
              | _, _ => []
              end
            else []) ops)
        (seq 0 (List.length arr)))
      (seq 0 (List.length arr)).

(** The body of the innermost loop, for one operator. *)
Definition attempt (rec : list ExprNode -> outcome (option string))
    (mode : Mode) (arr : list ExprNode) (i j : nat) (op : Op)
  : outcome (option string) :=
  if Mode_eqb mode easy && String.eqb (symbol op) "/" then Ret None
  else
    a <- get arr i ;;
    b <- get arr j ;;
    match calc op a b with
    | None => Ret None
    | Some result =>
        found <- rec (rest_of i j arr ++ [result]) ;;
        Ret (if truthy found then found else None)
    end.

(** One level of [search], with the recursive call abstracted. *)
Definition search_body (rec : list ExprNode -> outcome (option string))
    (mode : Mode) (arr : list ExprNode) : outcome (option string) :=
  if Nat.eqb (List.length arr) 1 then
    x <- get arr 0 ;;
    Ret (if near24 (val x) then Some (expr x) else None)
  else
    for_of (seq 0 (List.length arr)) (fun i =>
      for_of (seq 0 (List.length arr)) (fun j =>
        if Nat.eqb i j then Ret None
        else for_of ops (attempt rec mode arr i j))).

(** An input is solvable when some derivation ends within tolerance of 24. *)
Definition solvable (mode : Mode) (arr : list ExprNode) : Prop :=
  exists x, derives mode arr x /\ near24 (val x) = true.

(** [t] is the expression an operand carries: its text and its value. *)
Definition denotes (t : Expr) (x : ExprNode) : Prop :=
  render t = expr x /\ eval t = val x.

(** The text of an operand is the text of an expression. *)
Definition expression_text (x : ExprNode) : Prop := exists t, render t = expr x.

(** The operator of a combination is enabled in the mode, and a division
    has passed the guard on its divisor. *)
Definition permitted (mode : Mode) (o : BinOp) (divisor : float64) : Prop :=
  o = Div -> mode = hard /\ ltb (abs divisor) lit_1e_9 = false.

(** ** Predicates on text *)

Fixpoint all_chars (p : ascii -> bool) (s : string) : bool :=
  match s with
  | EmptyString => true
  | String c s' => p c && all_chars p s'
  end.

Definition no_digit_ahead (s : string) : Prop :=
  match s with
  | EmptyString => True
  | String c _ => is_digit c = false
  end.

(** ** Rounding to binary64 *)

(** The second half of [binary_round_aux]: renormalising and packing. *)
Definition pack (sx : bool) (m : Z) (e : Z) : spec_float :=
  let '(mrs, e') := shr_fexp 53 1024 m e loc_Exact in
  match shr_m mrs with
  | Z0 => S754_zero sx
  | Zpos p => if (e' <=? 1024 - 53)%Z then S754_finite sx p e' else S754_infinity sx
  | Zneg _ => S754_nan
  end.

Definition below_nine (y : spec_float) : Prop :=
  y = S754_zero false \/
  exists m2 e2,
    y = S754_finite false m2 e2 /\ (e2 < 0)%Z /\ (Zpos m2 < 9 * 2 ^ (- e2))%Z.

(** [x] is zero, or finite and smaller in absolute value than [2 ^ B]. *)
Definition below (B : Z) (x : float64) : Prop :=
  match x with
  | S754_zero _ => True
  | S754_finite _ m e => (Zpos (digits2_pos m) + e <= B)%Z
  | S754_infinity _ | S754_nan => False
  end.

(** ** A host for the examples *)

(** A host for the example: the first four draws are zero, the following
    alternate between a quarter and thirteen sixteenths; the sort reverses. *)
Definition example_random (k : nat) : float64 :=
  if (k <? 4)%nat then S754_zero false
  else if Nat.even k then S754_finite false 4503599627370496 (-54)
       else S754_finite false 7318349394477056 (-53).

Definition example_sort (arr : list Z) (k : nat) : list Z * nat := (rev arr, (k + 3)%nat).

(** ** Expressions that can be built

    Every combination of [t] is permitted in the mode. *)
Fixpoint buildable (mode : Mode) (t : Expr) : Prop :=
  match t with
  | Num _ => True
  | Bin o l r => permitted mode o (eval r) /\ buildable mode l /\ buildable mode r
  end.

(** ** The order of the search *)

(** The result of the first of the pools on which [rec] finds a string (or
    fails). *)
Fixpoint first_found (rec : list ExprNode -> outcome (option string))
    (pools : list (list ExprNode)) : outcome (option string) :=
  match pools with
  | [] => Ret None
  | p :: pools' =>
      match rec p with
      | Ret found => if truthy found then Ret found else first_found rec pools'
      | TypeError => TypeError
      | OutOfFuel => OutOfFuel
      end
  end.

(** ** Integer arithmetic *)

(** The value of an expression without division, in integer arithmetic. *)
Fixpoint int_value (t : Expr) : option Z :=
  match t with
  | Num n => Some n
  | Bin o l r =>
      match o, int_value l, int_value r with
      | Add, Some a, Some b => Some (a + b)%Z
      | Sub, Some a, Some b => Some (a - b)%Z
      | Mul, Some a, Some b => Some (a * b)%Z
      | _, _, _ => None
      end
  end.

(** A bound on every value that the operations [+], [-] and [*] make of
    the numbers. *)
Definition span (nums : list Z) : Z :=
  fold_right (fun n acc => Z.max 2 (Z.abs n) * acc)%Z 1%Z nums.

(** [x] is the integer [v]: zero, or a normal number of that value. *)
Definition int_float (v : Z) (x : float64) : Prop :=
  match x with
  | S754_zero _ => v = 0%Z
  | S754_finite s m e =>
      (e <= 0 /\ Zpos (digits2_pos m) = 53 /\ cond_Zopp s (Zpos m) = v * 2 ^ (- e))%Z
  | S754_infinity _ | S754_nan => False
  end.

(** ** Rounds of the generator *)

(** The four numbers of the round that starts when [k] values have been
    drawn. *)
Definition drawn (random : nat -> float64) (k : nat) : list Z :=
  map (fun i => sample (random (k + i)%nat)) (seq 0 4).

(** ** evaluateExpression *)

(** The result of running code that may throw. *)
Inductive completion (A : Type) : Type :=
| Returned (a : A)
| Thrown.

Arguments Returned {A} a.

Arguments Thrown {A}.

(** The host of the component.
    - [JsValue]: the values a compiled function may return; [as_number] is
      the number a value is when its type is [number], and [String_of] its
      conversion to a string in a template literal.
    - [Function_call src] is [Function(src)()]: the value returned, or an
      exception thrown while compiling or running [src].
    - [Math_random] and [Array_sort]: as for [generateSolvablePuzzle]. *)
Record Host : Type :=
  { JsValue : Type;
    as_number : JsValue -> option float64;
    String_of : JsValue -> string;
    Function_call : string -> completion JsValue;
    Math_random : nat -> float64;
    Array_sort : list Z -> nat -> list Z * nat }.

(** The characters outside the class [[^0-9+\-*/(). ]]. *)
Definition kept (c : ascii) : bool :=
  is_digit c
  || existsb (Ascii.eqb c) ["+"; "-"; "*"; "/"; "("; ")"; "."; " "]%char.

(** [expression.replace(/[^0-9+\-*/(). ]/g, '')]. A string is the sequence
    of its bytes; every byte of a character outside ASCII is removed, as
    every code unit of it is in JavaScript. *)
Fixpoint sanitize (expression : string) : string :=
  match expression with
  | EmptyString => EmptyString
  | String c rest => if kept c then String c (sanitize rest) else sanitize rest
  end.

(** The source text handed to [Function]. *)
Definition function_body (sanitized : string) : string :=
  String "034" ("use strict" ++ String "034" ("; return (" ++ sanitized ++ ");")).

Definition evaluateExpression (h : Host) (expression : string)
  : completion (JsValue h) :=
  let sanitized := sanitize expression in
  Function_call h (function_body sanitized).

(** ** The component Math24Game

    The component is modelled as a state machine. A state holds the values
    of the hooks; a handler is a function on states. Every event is handled
    against the state of the last render, and the component has rendered
    again, effects included, before the next event: the values memoised from
    the state ([input], [usedIndices], [usedSet], [operatorList]) are
    functions of the state. What is written to the console is left out. *)

Inductive FeedbackTone : Type := tone_neutral | tone_success | tone_error.

Inductive Token : Type :=
| num_token (text : string) (index : nat)
| op_token (text : string).

Inductive HintStatus : Type := status_idle | status_loading | status_error.

Definition OPERATORS : list string := ["+"; "-"; "*"; "/"; "("; ")"].

(** The body posted to the hint service. *)
Record HintRequest : Type :=
  { numbers : list Z;
    expression : string;
    target : Z;
    request_mode : Mode;
    request_solution : string }.

(** What the hint service answers: a body whose [hint] field is a string, or
    is missing ([None]); or a failure (no answer, a status that is not ok, a
    body that is not JSON). *)
Inductive HintResponse : Type :=
| hint_ok (hint : option string)
| hint_failed.

(** The state hooks of the component, followed by what it touches outside of
    them: whether the [details] element of the solution is open, the number
    of values of [Math.random()] drawn so far, and the requests posted. *)
Record State : Type :=
  { mode : Mode;
    puzzle : Puzzle;
    tokens : list Token;
    message : string;
    tone : FeedbackTone;
    hintLevel : nat;
    aiHint : string;
    aiStatus : HintStatus;
    aiError : string;
    solution_open : bool;
    draws : nat;
    requests : list HintRequest }.

Definition setMode (v : Mode) (s : State) : State :=
  {| mode := v; puzzle := puzzle s; tokens := tokens s; message := message s;
     tone := tone s; hintLevel := hintLevel s; aiHint := aiHint s;
     aiStatus := aiStatus s; aiError := aiError s;
     solution_open := solution_open s; draws := draws s; requests := requests s |}.

Definition setPuzzle (v : Puzzle) (s : State) : State :=
  {| mode := mode s; puzzle := v; tokens := tokens s; message := message s;
     tone := tone s; hintLevel := hintLevel s; aiHint := aiHint s;
     aiStatus := aiStatus s; aiError := aiError s;
     solution_open := solution_open s; draws := draws s; requests := requests s |}.

Definition setTokens (v : list Token) (s : State) : State :=
  {| mode := mode s; puzzle := puzzle s; tokens := v; message := message s;
     tone := tone s; hintLevel := hintLevel s; aiHint := aiHint s;
     aiStatus := aiStatus s; aiError := aiError s;
     solution_open := solution_open s; draws := draws s; requests := requests s |}.

Definition setMessage (v : string) (s : State) : State :=
  {| mode := mode s; puzzle := puzzle s; tokens := tokens s; message := v;
     tone := tone s; hintLevel := hintLevel s; aiHint := aiHint s;
     aiStatus := aiStatus s; aiError := aiError s;
     solution_open := solution_open s; draws := draws s; requests := requests s |}.

Definition setTone (v : FeedbackTone) (s : State) : State :=
  {| mode := mode s; puzzle := puzzle s; tokens := tokens s; message := message s;
     tone := v; hintLevel := hintLevel s; aiHint := aiHint s;
     aiStatus := aiStatus s; aiError := aiError s;
     solution_open := solution_open s; draws := draws s; requests := requests s |}.

Definition setHintLevel (v : nat) (s : State) : State :=
  {| mode := mode s; puzzle := puzzle s; tokens := tokens s; message := message s;
     tone := tone s; hintLevel := v; aiHint := aiHint s;
     aiStatus := aiStatus s; aiError := aiError s;
     solution_open := solution_open s; draws := draws s; requests := requests s |}.

Definition setAiHint (v : string) (s : State) : State :=
  {| mode := mode s; puzzle := puzzle s; tokens := tokens s; message := message s;
     tone := tone s; hintLevel := hintLevel s; aiHint := v;
     aiStatus := aiStatus s; aiError := aiError s;
     solution_open := solution_open s; draws := draws s; requests := requests s |}.

Definition setAiStatus (v : HintStatus) (s : State) : State :=
  {| mode := mode s; puzzle := puzzle s; tokens := tokens s; message := message s;
     tone := tone s; hintLevel := hintLevel s; aiHint := aiHint s;
     aiStatus := v; aiError := aiError s;
     solution_open := solution_open s; draws := draws s; requests := requests s |}.

Definition setAiError (v : string) (s : State) : State :=
  {| mode := mode s; puzzle := puzzle s; tokens := tokens s; message := message s;
     tone := tone s; hintLevel := hintLevel s; aiHint := aiHint s;
     aiStatus := aiStatus s; aiError := v;
     solution_open := solution_open s; draws := draws s; requests := requests s |}.

(** [solutionRef.current.open = v]. *)
Definition set_solution_open (v : bool) (s : State) : State :=
  {| mode := mode s; puzzle := puzzle s; tokens := tokens s; message := message s;
     tone := tone s; hintLevel := hintLevel s; aiHint := aiHint s;
     aiStatus := aiStatus s; aiError := aiError s;
     solution_open := v; draws := draws s; requests := requests s |}.

Definition set_draws (v : nat) (s : State) : State :=
  {| mode := mode s; puzzle := puzzle s; tokens := tokens s; message := message s;
     tone := tone s; hintLevel := hintLevel s; aiHint := aiHint s;
     aiStatus := aiStatus s; aiError := aiError s;
     solution_open := solution_open s; draws := v; requests := requests s |}.

(** [fetch(url, {method: 'POST', body: JSON.stringify(v)})]. *)
Definition post (v : HintRequest) (s : State) : State :=
  {| mode := mode s; puzzle := puzzle s; tokens := tokens s; message := message s;
     tone := tone s; hintLevel := hintLevel s; aiHint := aiHint s;
     aiStatus := aiStatus s; aiError := aiError s;
     solution_open := solution_open s; draws := draws s;
     requests := requests s ++ [v] |}.

Definition token_text (t : Token) : string :=
  match t with
  | num_token text _ | op_token text => text
  end.

(** [tokens.map((t) => t.text).join('')]. *)
Definition input (s : State) : string :=
  String.concat EmptyString (map token_text (tokens s)).

(** [tokens.filter((t) => t.type === 'num').map((t) => t.index)]. *)
Definition usedIndices (s : State) : list nat :=
  flat_map (fun t => match t with
                     | num_token _ index => [index]
                     | op_token _ => []
                     end) (tokens s).

(** [usedSet.has(index)], for [usedSet = new Set(usedIndices)]. *)
Definition usedSet_has (s : State) (index : nat) : bool :=
  existsb (Nat.eqb index) (usedIndices s).

Definition operatorList (s : State) : list string :=
  if Mode_eqb (mode s) easy
  then filter (fun op => negb (String.eqb op "/")) OPERATORS
  else OPERATORS.

Definition setFeedback (text : string) (nextTone : FeedbackTone) (s : State) : State :=
  setTone nextTone (setMessage text s).

Definition resetAi (s : State) : State :=
  setAiStatus status_idle (setAiError EmptyString (setAiHint EmptyString s)).

Definition appendNumber (value : Z) (index : nat) (s : State) : State :=
  if usedSet_has s index then s
  else
    setFeedback EmptyString tone_neutral
      (setTokens (tokens s ++ [num_token (toString value) index]) s).

Definition appendOperator (op : string) (s : State) : State :=
  setFeedback EmptyString tone_neutral (setTokens (tokens s ++ [op_token op]) s).

(** [prev.length ? prev.slice(0, -1) : prev]. *)
Definition backspace (s : State) : State :=
  setTokens (match tokens s with
             | [] => tokens s
             | _ :: _ => removelast (tokens s)
             end) s.

Definition clearInput (s : State) : State :=
  resetAi (setFeedback EmptyString tone_neutral (setHintLevel 0 (setTokens [] s))).

(** The effect [useEffect(() => setHintLevel(puzzle.hints.length), [puzzle])]:
    it runs once the component has rendered with a new puzzle. *)
Definition puzzle_effect (s : State) : State :=
  setHintLevel (List.length (hints (puzzle s))) s.

Definition nextPuzzle (h : Host) (fuel : nat) (nextMode : Mode) (s : State)
  : outcome State :=
  r <- generateSolvablePuzzle (Math_random h) (Array_sort h) fuel nextMode (draws s) ;;
  let (fresh, k) := r : Puzzle * nat in
  Ret (puzzle_effect
         (set_solution_open false (clearInput (setPuzzle fresh (set_draws k s))))).

Definition toggleMode (h : Host) (fuel : nat) (s : State) : outcome State :=
  let nextMode := match mode s with easy => hard | hard => easy end in
  nextPuzzle h fuel nextMode (setMode nextMode s).

(** [fetchAiHint] up to its first [await]: the guard, the three setters and
    the request. *)
Definition fetchAiHint_send (s : State) : State :=
  match aiStatus s with
  | status_loading => s
  | _ =>
      post {| numbers := nums (puzzle s);
              expression := input s;
              target := 24;
              request_mode := mode s;
              request_solution := solution (puzzle s) |}
        (setAiHint EmptyString (setAiError EmptyString (setAiStatus status_loading s)))
  end.

(** [fetchAiHint] from the answer on. *)
Definition fetchAiHint_settle (r : HintResponse) (s : State) : State :=
  match r with
  | hint_ok hint =>
      setAiStatus status_idle
        (setAiHint (match hint with
                    | Some text => text
                    | None => "No hint returned."
                    end) s)
  | hint_failed =>
      setAiStatus status_error
        (setAiError "Could not fetch a hint right now. Please try again in a moment." s)
  end.

(** White space and line terminators, among the ASCII characters. *)
Definition is_space (c : ascii) : bool :=
  existsb (Ascii.eqb c) ["009"; "010"; "011"; "012"; "013"; " "]%char.

Fixpoint trimStart (s : string) : string :=
  match s with
  | EmptyString => EmptyString
  | String c rest => if is_space c then trimStart rest else s
  end.

Fixpoint trimEnd (s : string) : string :=
  match s with
  | EmptyString => EmptyString
  | String c rest =>
      match trimEnd rest with
      | EmptyString => if is_space c then EmptyString else String c EmptyString
      | kept_rest => String c kept_rest
      end
  end.

(** [s.trim()], for ASCII text. *)
Definition trim (s : string) : string := trimEnd (trimStart s).

(** [Number.isFinite(value) && Math.abs(value - 24) < 1e-6]. *)
Definition makes24 (h : Host) (value : JsValue h) : bool :=
  match as_number h value with
  | Some x => is_finite x && near24 x
  | None => false
  end.

Definition checkSolution (h : Host) (s : State) : State :=
  if Nat.eqb (String.length (trim (input s))) 0 then
    setFeedback "Build an expression first." tone_error s
  else if negb (Nat.eqb (List.length (usedIndices s)) (List.length (nums (puzzle s)))) then
    setFeedback "Use every number exactly once." tone_error s
  else
    match evaluateExpression h (input s) with
    | Returned value =>
        if makes24 h value then setFeedback "Great work! You made 24." tone_success s
        else
          setFeedback ("That equals " ++ String_of h value ++ ". Keep going!")
            tone_error s
    | Thrown => setFeedback "That expression is not valid." tone_error s
    end.

(** What happens to the rendered component: a click on one of its buttons,
    an answer of the hint service (at any time: a superset of the moments at
    which one arrives), the reader opening or closing the solution. *)
Inductive Event : Type :=
| click_mode
| click_new_puzzle
| click_number (idx : nat)
| click_operator (op : string)
| click_clear
| click_check
| click_backspace
| click_ai_hint
| hint_answer (r : HintResponse)
| toggle_solution.

(** The handlers as the rendered elements bind them. A number button exists
    for every position of [puzzle.nums], an operator button for every
    element of [operatorList]; an event on a button that is not rendered
    leaves the state as it is. *)
Definition handle (h : Host) (fuel : nat) (e : Event) (s : State) : outcome State :=
  match e with
  | click_mode => toggleMode h fuel s
  | click_new_puzzle => nextPuzzle h fuel (mode s) s
  | click_number idx =>
      match nth_error (nums (puzzle s)) idx with
      | Some n => Ret (appendNumber n idx s)
      | None => Ret s
      end
  | click_operator op =>
      if existsb (String.eqb op) (operatorList s) then Ret (appendOperator op s)
      else Ret s
  | click_clear => Ret (clearInput s)
  | click_check => Ret (checkSolution h s)
  | click_backspace => Ret (backspace s)
  | click_ai_hint => Ret (fetchAiHint_send s)
  | hint_answer r => Ret (fetchAiHint_settle r s)
  | toggle_solution => Ret (set_solution_open (negb (solution_open s)) s)
  end.

(** The first render: the initial values of the hooks, then the effect. *)
Definition mount (h : Host) (fuel : nat) (k : nat) : outcome State :=
  r <- generateSolvablePuzzle (Math_random h) (Array_sort h) fuel easy k ;;
  let (fresh, k') := r : Puzzle * nat in
  Ret (puzzle_effect
         {| mode := easy; puzzle := fresh; tokens := []; message := EmptyString;
            tone := tone_neutral; hintLevel := 0; aiHint := EmptyString;
            aiStatus := status_idle; aiError := EmptyString;
            solution_open := false; draws := k'; requests := [] |}).

Fixpoint run (h : Host) (fuel : nat) (es : list Event) (s : State) : outcome State :=
  match es with
  | [] => Ret s
  | e :: es' => s' <- handle h fuel e s ;; run h fuel es' s'
  end.

(** The states of a mounted component. *)
Inductive reachable (h : Host) : State -> Prop :=
| reachable_mount fuel k s : mount h fuel k = Ret s -> reachable h s
| reachable_handle fuel e s s' :
    reachable h s -> handle h fuel e s = Ret s' -> reachable h s'.

(** ** Invariants of the component *)

(** A number token stands for the number at its position; an operator token
    for an operator on offer. *)
Definition token_ok (s : State) (t : Token) : Prop :=
  match t with
  | num_token text index =>
      exists n, nth_error (nums (puzzle s)) index = Some n /\ text = toString n
  | op_token text => In text (operatorList s)
  end.

(** The puzzle [p] is the one made, in mode [m], of the round that starts
    at the [k]-th drawn value. *)
Definition made_of (h : Host) (m : Mode) (p : Puzzle) (k : nat) : Prop :=
  findSolution (drawn (Math_random h) k) m = Ret (Some (solution p)) /\
  nums p = fst (Array_sort h (drawn (Math_random h) k) (k + 4)) /\
  hints p = [].

(** A request carries the target 24 and the numbers and the solution of a
    puzzle made in the mode it names. *)
Definition request_ok (h : Host) (r : HintRequest) : Prop :=
  target r = 24%Z /\
  exists p k, made_of h (request_mode r) p k /\
              numbers r = nums p /\ request_solution r = solution p.

(** What holds of every state of a mounted component. *)
Record invariant (h : Host) (s : State) : Prop :=
  { inv_used : NoDup (usedIndices s);
    inv_tokens : Forall (token_ok s) (tokens s);
    inv_puzzle : exists k, made_of h (mode s) (puzzle s) k;
    inv_level : hintLevel s = 0%nat;
    inv_requests : Forall (request_ok h) (requests s) }.

(** The tone goes with the message. *)
Definition feedback_ok (s : State) : Prop :=
  match tone s with
  | tone_neutral => message s = EmptyString
  | tone_success => message s = "Great work! You made 24."
  | tone_error => message s <> EmptyString
  end.

(** The hint and the error go with the status of the request. *)
Definition ai_ok (s : State) : Prop :=
  match aiStatus s with
  | status_idle => True
  | status_loading => aiHint s = EmptyString /\ aiError s = EmptyString
  | status_error =>
      aiError s = "Could not fetch a hint right now. Please try again in a moment."
  end.

(** The texts of the number tokens, in order. *)
Definition number_texts (s : State) : list string :=
  flat_map (fun t => match t with
                     | num_token text _ => [text]
                     | op_token _ => []
                     end) (tokens s).

(** A character that [trim] keeps. *)
Definition visible (c : ascii) : bool := negb (is_space c).

(** ** Entering an expression *)

(** The click that enters a token. *)
Definition press (t : Token) : Event :=
  match t with
  | num_token _ index => click_number index
  | op_token text => click_operator text
  end.

(** The tokens that spell the expression [t], its literals entered from the
    positions [idxs] in turn; with the positions left over. *)
Fixpoint spell (t : Expr) (idxs : list nat) : list Token * list nat :=
  match t with
  | Num n =>
      match idxs with
      | i :: rest => ([num_token (toString n) i], rest)
      | [] => ([], [])
      end
  | Bin o l r =>
      let (left, rest) := spell l idxs in
      let (right, rest') := spell r rest in
      (op_token "(" :: left
         ++ op_token (String (op_symbol o) EmptyString) :: right ++ [op_token ")"],
       rest')
  end.

(** The positions that the tokens [ts] use. *)
Definition used_by (ts : list Token) : list nat :=
  flat_map (fun t => match t with
                     | num_token _ index => [index]
                     | op_token _ => []
                     end) ts.

(** Making room at position [k]: the positions from [k] on move up by one. *)
Definition lift (k i : nat) : nat := if (i <? k)%nat then i else S i.

(** Entering tokens changes the tokens and clears the feedback. *)
Definition entered (toks : list Token) (s : State) : State :=
  match toks with
  | [] => s
  | _ :: _ => setFeedback EmptyString tone_neutral (setTokens (tokens s ++ toks) s)
  end.

(** ** The host, and a session, for the examples *)

(** What is assumed of the host. *)
Definition random_in_unit (h : Host) : Prop :=
  forall i, in_unit (Math_random h i) = true.

Definition sort_rearranges (h : Host) : Prop :=
  forall arr k, Permutation (fst (Array_sort h arr k)) arr.

(** The compiled function computes a fully parenthesised expression over
    integer literals without a sign in binary64 arithmetic. *)
Definition Function_evaluates (h : Host) : Prop :=
  forall t, Forall (fun n => (0 <= n)%Z) (leaves t) ->
  exists v, Function_call h (function_body (render t)) = Returned v /\
            as_number h v = Some (eval t).

(** A host for the examples: every drawn value is five eighths, the sort
    reverses, and [Function] evaluates what [parse] reads. *)
Definition example_Function (src : string) : completion float64 :=
  match evalString (substring 22 (String.length src - 24) src) with
  | Some v => Returned v
  | None => Thrown
  end.

Definition example_host : Host :=
  {| JsValue := float64;
     as_number := Some;
     String_of := fun _ => "a number";
     Function_call := example_Function;
     Math_random := fun _ => S754_finite false 5629499534213120 (-53);
     Array_sort := example_sort |}.

(** A session: the component is mounted, then clicked on. *)
Definition example_clicks : list Event :=
  [click_number 0; click_operator "+"; click_number 0; click_number 1;
   click_operator "/"; click_backspace; click_ai_hint].

Definition example_session : outcome State :=
  s <- mount example_host 1 0 ;; run example_host 1 example_clicks s.

(** ** Exact arithmetic on four digits

    The binary64 values of the expressions over up to three digits, each
    paired with the value of the expression in rational arithmetic. *)

(** The operation [o] on rational numbers. *)
Definition qop (o : BinOp) (a b : QArith_base.Q) : QArith_base.Q :=
  match o with
  | Add => QArith_base.Qplus a b
  | Sub => QArith_base.Qminus a b
  | Mul => QArith_base.Qmult a b
  | Div => QArith_base.Qdiv a b
  end.

(** The value of an expression in exact arithmetic; none when it divides by
    zero. *)
Fixpoint rat_value (t : Expr) : option QArith_base.Q :=
  match t with
  | Num n => Some (QArith_base.inject_Z n)
  | Bin o l r =>
      match rat_value l, rat_value r with
      | Some a, Some b =>
          match o with
          | Div => if QArith_base.Qeq_bool b (QArith_base.inject_Z 0) then None
                   else Some (qop o a b)
          | _ => Some (qop o a b)
          end
      | _, _ => None
      end
  end.

Definition digit_values : list Z := [1; 2; 3; 4; 5; 6; 7; 8; 9]%Z.

Definition binops : list BinOp := [Add; Sub; Mul; Div].

Definition float_eqb (x y : float64) : bool :=
  match x, y with
  | S754_zero s, S754_zero s' => Bool.eqb s s'
  | S754_infinity s, S754_infinity s' => Bool.eqb s s'
  | S754_nan, S754_nan => true
  | S754_finite s m e, S754_finite s' m' e' =>
      Bool.eqb s s' && Pos.eqb m m' && Z.eqb e e'
  | _, _ => false
  end.

(** A binary64 value paired with a rational one. *)
Definition valued : Type := (float64 * QArith_base.Q)%type.

Definition same (v w : valued) : bool :=
  float_eqb (fst v) (fst w) && QArith_base.Qeq_bool (snd v) (snd w).

Definition insert_new (v : valued) (l : list valued) : list valued :=
  if existsb (same v) l then l else v :: l.

Definition dedup (l : list valued) : list valued := fold_right insert_new [] l.

(** The values of the combinations of a value of [L] with a value of [R]:
    every operator, the division when the guard does not fire. *)
Definition combos (L R : list valued) : list valued :=
  flat_map (fun l => flat_map (fun r => flat_map (fun o =>
    if match o with Div => near_zero (fst r) | _ => false end then []
    else [(apply_op o (fst l) (fst r), qop o (snd l) (snd r))]) binops) R) L.

Definition all_combos (P : valued -> bool) (L R : list valued) : bool :=
  forallb (fun l => forallb (fun r => forallb (fun o =>
    if match o with Div => near_zero (fst r) | _ => false end then true
    else P (apply_op o (fst l) (fst r), qop o (snd l) (snd r))) binops) R) L.

(** The values of the expressions over one, two and three digits. *)
Definition level1 : list valued :=
  map (fun d => (of_Z d, QArith_base.inject_Z d)) digit_values.

Definition level2 : list valued := dedup (combos level1 level1).

Definition level3 : list valued :=
  dedup (combos level1 level2 ++ combos level2 level1).

(** The guard fires on a value exactly when it is zero. *)
Definition guard_exact (v : valued) : bool :=
  Bool.eqb (near_zero (fst v))
           (QArith_base.Qeq_bool (snd v) (QArith_base.inject_Z 0)).

(** The test against 24 passes on a value exactly when it is 24. *)
Definition test_exact (v : valued) : bool :=
  Bool.eqb (near24 (fst v))
           (QArith_base.Qeq_bool (snd v) (QArith_base.inject_Z 24)).

(** The list [L] holds the binary64 value [x] with a rational equal to [q]. *)
Definition listed (L : list valued) (x : float64) (q : QArith_base.Q) : Prop :=
  exists w, In w L /\ fst w = x /\ QArith_base.Qeq (snd w) q.

(** The values of the expressions over [n] digits, for [n] up to three. *)
Definition level (n : nat) : list valued :=
  match n with
  | 1 => level1
  | 2 => level2
  | 3 => level3
  | _ => []
  end%nat.

(** ** Unguarded arithmetic

    The operand that an operator makes of two operands when the division is
    performed whatever its divisor. *)
Definition combine (o : BinOp) (a b : ExprNode) : ExprNode :=
  {| val := apply_op o (val a) (val b);
     expr := ("(" ++ expr a ++ String (op_symbol o) (expr b ++ ")"))%string |}.

Definition is_div (o : BinOp) : bool :=
  match o with Div => true | _ => false end.

(** [reaches mode arr x g]: the operand [x] is made of the pool [arr] by the
    operators enabled in the mode, every operand used once, with no guard on
    the division; [g] tells whether some division had a near-zero divisor. *)
Inductive reaches (mode : Mode) : list ExprNode -> ExprNode -> bool -> Prop :=
| reaches_one (x : ExprNode) : reaches mode [x] x false
| reaches_step (arr : list ExprNode) (i j : nat) (a b : ExprNode) (o : BinOp)
    (x : ExprNode) (g : bool) :
    List.length arr <> 1%nat ->
    i <> j ->
    nth_error arr i = Some a ->
    nth_error arr j = Some b ->
    (o = Div -> mode = hard) ->
    reaches mode (rest_of i j arr ++ [combine o a b]) x g ->
    reaches mode arr x (g || (is_div o && near_zero (val b))).

(** ** Pools for the examples *)

(** The seeds that [findSolution] makes of [[1e308, 1e308, 1, 24]]. *)
Definition huge : ExprNode := {| val := of_Z (10 ^ 308); expr := "1e+308" |}.

Definition huge_pool : list ExprNode :=
  [huge; huge; {| val := of_Z 1; expr := "1" |}; {| val := of_Z 24; expr := "24" |}].

(** The seeds that [findSolution] makes of [[2.4e-9, 1e-10]]. *)
Definition tiny_pool : list ExprNode :=
  [ {| val := div (of_Z 24) (of_Z (10 ^ 10)); expr := "2.4e-9" |};
    {| val := div (of_Z 1) (of_Z (10 ^ 10)); expr := "1e-10" |} ].

(** * Properties *)

(** ** Loops *)

Section ForOf.

Context {A : Type}.

Implicit Types (l : list A) (body : A -> outcome (option string)).

Lemma for_of_Some l body s :
  for_of l body = Ret (Some s) ->
  exists x, In x l /\ body x = Ret (Some s).
Proof.
  induction l as [|x l IH]; simpl; [discriminate|].
  destruct (body x) as [[s'|]| |] eqn:E; intros H; try discriminate.
  - exists x. split; [now left|]. congruence.
  - destruct (IH H) as (y & Hy & Ey). exists y. split; [now right|easy].
Qed.

Lemma for_of_total l body :
  (forall x, In x l -> exists r, body x = Ret r) ->
  exists r, for_of l body = Ret r.
Proof.
  induction l as [|x l IH]; simpl; intros H; [now exists None|].
  destruct (H x (or_introl eq_refl)) as ([s|] & E); rewrite E.
  - now exists (Some s).
  - apply IH. intros y Hy. apply H. now right.
Qed.

Lemma for_of_found l body x s :
  (forall y, In y l -> exists r, body y = Ret r) ->
  In x l -> body x = Ret (Some s) ->
  exists s', for_of l body = Ret (Some s').
Proof.
  induction l as [|y l IH]; simpl; intros H Hin E; [easy|].
  destruct (H y (or_introl eq_refl)) as ([s'|] & Ey); rewrite Ey.
  - now exists s'.
  - destruct Hin as [->|Hin]; [congruence|].
    apply IH; auto.
Qed.

Lemma for_of_ext l body body' :
  (forall x, In x l -> body x = body' x) -> for_of l body = for_of l body'.
Proof.
  induction l as [|y l IH]; simpl; intros H; [reflexivity|].
  rewrite <- (H y (or_introl eq_refl)).
  destruct (body y) as [[s'|]| |]; auto.
Qed.

End ForOf.

(** ** Removing two positions of a pool *)

Section FilterIdx.

Context {A : Type}.

Implicit Types (l : list A) (p q : nat -> bool).

Lemma filter_from_ext p q k l :
  (forall idx, (k <= idx)%nat -> p idx = q idx) ->
  filter_from p k l = filter_from q k l.
Proof.
  revert k. induction l as [|x l IH]; simpl; intros k H; [reflexivity|].
  rewrite (H k (le_n k)), (IH (S k)); [reflexivity|].
  intros idx Hle. apply H. lia.
Qed.

Lemma filter_from_all p k l :
  (forall idx, (k <= idx)%nat -> p idx = true) -> filter_from p k l = l.
Proof.
  revert k. induction l as [|x l IH]; simpl; intros k H; [reflexivity|].
  rewrite (H k (le_n k)), (IH (S k)); [reflexivity|].
  intros idx Hle. apply H. lia.
Qed.

Lemma remove_one l k j b :
  nth_error l j = Some b ->
  Permutation l (b :: filter_from (fun idx => negb (Nat.eqb idx (k + j))) k l).
Proof.
  revert k j. induction l as [|x l IH]; intros k [|j] H; simpl in *; try discriminate.
  - injection H as ->.
    rewrite Nat.add_0_r, Nat.eqb_refl. simpl.
    rewrite filter_from_all; [reflexivity|].
    intros idx Hle. apply negb_true_iff, Nat.eqb_neq. lia.
  - replace (Nat.eqb k (k + S j)) with false by (symmetry; apply Nat.eqb_neq; lia).
    simpl. rewrite perm_swap. apply perm_skip.
    erewrite filter_from_ext; [apply (IH (S k) j H)|].
    intros idx _. simpl. now rewrite Nat.add_succ_r.
Qed.

Lemma remove_two l k i j a b :
  i <> j ->
  nth_error l i = Some a ->
  nth_error l j = Some b ->
  Permutation l
    (a :: b :: filter_from
       (fun idx => negb (Nat.eqb idx (k + i)) && negb (Nat.eqb idx (k + j))) k l).
Proof.
  revert k i j. induction l as [|x l IH]; intros k [|i] [|j] Hij Hi Hj;
    simpl in *; try discriminate; try easy.
  - injection Hi as ->.
    rewrite Nat.add_0_r, Nat.eqb_refl. simpl. apply perm_skip.
    erewrite filter_from_ext; [apply (remove_one l (S k) j b Hj)|].
    intros idx Hle. simpl.
    replace (Nat.eqb idx k) with false by (symmetry; apply Nat.eqb_neq; lia).
    simpl. now rewrite Nat.add_succ_r.
  - injection Hj as ->.
    rewrite Nat.add_0_r, Nat.eqb_refl, andb_false_r. rewrite perm_swap. apply perm_skip.
    erewrite filter_from_ext; [apply (remove_one l (S k) i a Hi)|].
    intros idx Hle. simpl.
    replace (Nat.eqb idx k) with false by (symmetry; apply Nat.eqb_neq; lia).
    rewrite andb_true_r. now rewrite Nat.add_succ_r.
  - replace (Nat.eqb k (k + S i)) with false by (symmetry; apply Nat.eqb_neq; lia).
    replace (Nat.eqb k (k + S j)) with false by (symmetry; apply Nat.eqb_neq; lia).
    simpl.
    apply Permutation_trans with (x :: a :: b :: filter_from
       (fun idx => negb (Nat.eqb idx (S k + i)) && negb (Nat.eqb idx (S k + j))) (S k) l).
    + apply perm_skip. apply IH; auto.
    + erewrite (filter_from_ext _ _ (S k) l).
      * rewrite (perm_swap a x). apply perm_skip. apply perm_swap.
      * intros idx _. simpl. now rewrite !Nat.add_succ_r.
Qed.

End FilterIdx.

Lemma rest_of_perm {A : Type} (arr : list A) i j a b :
  i <> j -> nth_error arr i = Some a -> nth_error arr j = Some b ->
  Permutation arr (a :: b :: rest_of i j arr).
Proof. intros. now apply (remove_two arr 0 i j a b). Qed.

Lemma step_perm mode arr arr' :
  step mode arr arr' ->
  exists a b op result,
    In op ops /\ enabled mode op = true /\ calc op a b = Some result /\
    exists rest, Permutation arr (a :: b :: rest) /\ arr' = rest ++ [result].
Proof.
  intros [i j a b op result Hij Hi Hj Hop Hen Hc].
  exists a, b, op, result. repeat split; auto.
  exists (rest_of i j arr). split; [now apply rest_of_perm|reflexivity].
Qed.

Lemma step_length mode arr arr' :
  step mode arr arr' -> S (List.length arr') = List.length arr.
Proof.
  intros H. destruct (step_perm _ _ _ H) as (a & b & op & r & _ & _ & _ & rest & Hp & ->).
  rewrite (Permutation_length Hp), length_app. simpl. lia.
Qed.

(** ** Unfolding [search] *)

Lemma search_S mode fuel arr :
  search mode (S fuel) arr = search_body (search mode fuel) mode arr.
Proof. reflexivity. Qed.

Lemma search_one mode fuel x :
  search mode (S fuel) [x] = Ret (if near24 (val x) then Some (expr x) else None).
Proof. reflexivity. Qed.

Lemma get_Ret {A : Type} (arr : list A) i x :
  get arr i = Ret x <-> nth_error arr i = Some x.
Proof.
  unfold get. destruct (nth_error arr i); split; intros H; try discriminate; congruence.
Qed.

Lemma get_in_range {A : Type} (arr : list A) i :
  (i < List.length arr)%nat -> exists x, nth_error arr i = Some x.
Proof.
  intros H. destruct (nth_error arr i) eqn:E; [eauto|].
  apply nth_error_None in E. lia.
Qed.

(** What one successful pass through the innermost loop body amounts to. *)
Lemma attempt_Some rec mode arr i j op s :
  attempt rec mode arr i j op = Ret (Some s) ->
  exists a b result,
    nth_error arr i = Some a /\ nth_error arr j = Some b /\
    enabled mode op = true /\ calc op a b = Some result /\
    rec (rest_of i j arr ++ [result]) = Ret (Some s) /\ s <> EmptyString.
Proof.
  unfold attempt, enabled.
  destruct (Mode_eqb mode easy && String.eqb (symbol op) "/"); [discriminate|].
  unfold get.
  destruct (nth_error arr i) as [a|] eqn:Hi; [|discriminate].
  destruct (nth_error arr j) as [b|] eqn:Hj; [|discriminate]. simpl.
  destruct (calc op a b) as [result|] eqn:Hc; [|discriminate].
  destruct (rec _) as [[[|c f]|]| |] eqn:E; simpl; try discriminate.
  intros [= <-]. exists a, b, result. repeat split; auto. discriminate.
Qed.

(** ** Soundness: a returned string is the text of a derived operand *)

Lemma search_derives mode fuel arr s :
  search mode fuel arr = Ret (Some s) ->
  exists x, derives mode arr x /\ near24 (val x) = true /\ expr x = s.
Proof.
  revert arr s. induction fuel as [|fuel IH]; intros arr s; [discriminate|].
  rewrite search_S. unfold search_body. destruct (Nat.eqb (List.length arr) 1) eqn:Hlen.
  - destruct arr as [|x [|y arr]]; try discriminate Hlen. simpl.
    destruct (near24 (val x)) eqn:Hx; [|discriminate].
    intros [= <-]. exists x. split; [constructor|auto].
  - intros H.
    apply for_of_Some in H as (i & _ & H).
    apply for_of_Some in H as (j & _ & H).
    destruct (Nat.eqb i j) eqn:Hij; [discriminate|].
    apply for_of_Some in H as (op & Hop & H).
    apply attempt_Some in H as (a & b & result & Hi & Hj & Hen & Hc & Hrec & _).
    destruct (IH _ _ Hrec) as (x & Hd & Hx & Hs).
    exists x. split; [|auto].
    apply derives_step with (arr' := rest_of i j arr ++ [result]); auto.
    + now apply Nat.eqb_neq.
    + apply step_intro with (a := a) (b := b) (op := op); auto.
      now apply Nat.eqb_neq.
Qed.

(** ** Totality: no exception, and the fuel is never used up *)

Lemma attempt_total rec mode arr i j op :
  (i < List.length arr)%nat -> (j < List.length arr)%nat ->
  (forall result, exists r, rec (rest_of i j arr ++ [result]) = Ret r) ->
  exists r, attempt rec mode arr i j op = Ret r.
Proof.
  intros Hi Hj Hrec. unfold attempt.
  destruct (Mode_eqb mode easy && String.eqb (symbol op) "/"); [eauto|].
  destruct (get_in_range arr i Hi) as (a & Ha).
  destruct (get_in_range arr j Hj) as (b & Hb).
  rewrite (proj2 (get_Ret arr i a) Ha), (proj2 (get_Ret arr j b) Hb). simpl.
  destruct (calc op a b) as [result|]; [|eauto].
  destruct (Hrec result) as (r & ->). simpl. eauto.
Qed.

(** The recursion is as deep as the pool is large: fuel equal to the size
    of the pool (and at least one) is never used up. *)
Lemma search_depth mode fuel arr :
  (0 < fuel)%nat -> (List.length arr <= fuel)%nat ->
  exists r, search mode fuel arr = Ret r.
Proof.
  revert arr. induction fuel as [|fuel IH]; intros arr Hpos Hle; [lia|].
  rewrite search_S. unfold search_body. destruct (Nat.eqb (List.length arr) 1) eqn:Hlen.
  - destruct arr as [|x [|y arr]]; try discriminate Hlen. simpl. eauto.
  - apply Nat.eqb_neq in Hlen.
    apply for_of_total. intros i Hi. apply in_seq in Hi.
    apply for_of_total. intros j Hj. apply in_seq in Hj.
    destruct (Nat.eqb i j) eqn:Hij; [eauto|].
    apply for_of_total. intros op _.
    apply attempt_total; try lia.
    intros result.
    destruct (get_in_range arr i) as (a & Ha); [lia|].
    destruct (get_in_range arr j) as (b & Hb); [lia|].
    apply Nat.eqb_neq in Hij.
    pose proof (rest_of_perm arr i j a b Hij Ha Hb) as Hp.
    apply Permutation_length in Hp. simpl in Hp.
    apply IH; [lia|rewrite length_app; simpl; lia].
Qed.

Lemma search_total mode fuel arr :
  (List.length arr < fuel)%nat -> exists r, search mode fuel arr = Ret r.
Proof. intros H. apply search_depth; lia. Qed.

Lemma ops_body_total mode fuel arr i j :
  (List.length arr <= fuel)%nat ->
  (i < List.length arr)%nat -> (j < List.length arr)%nat ->
  exists r,
    (if Nat.eqb i j then Ret None
     else for_of ops (attempt (search mode fuel) mode arr i j)) = Ret r.
Proof.
  intros Hf Hi Hj. destruct (Nat.eqb i j) eqn:Hij; [eauto|].
  apply for_of_total. intros op _.
  apply attempt_total; auto.
  intros result. apply search_total.
  destruct (get_in_range arr i Hi) as (a & Ha).
  destruct (get_in_range arr j Hj) as (b & Hb).
  apply Nat.eqb_neq in Hij.
  pose proof (rest_of_perm arr i j a b Hij Ha Hb) as Hp.
  apply Permutation_length in Hp. rewrite length_app. simpl in *. lia.
Qed.

Lemma j_body_total mode fuel arr i :
  (List.length arr <= fuel)%nat -> (i < List.length arr)%nat ->
  exists r,
    for_of (seq 0 (List.length arr)) (fun j =>
      if Nat.eqb i j then Ret None
      else for_of ops (attempt (search mode fuel) mode arr i j)) = Ret r.
Proof.
  intros Hf Hi. apply for_of_total. intros j Hj. apply in_seq in Hj.
  apply ops_body_total; auto; lia.
Qed.

(** The text an operator builds, and the value it computes. *)
Lemma calc_spec op a b result :
  In op ops -> calc op a b = Some result ->
  exists o,
    symbol op = String (op_symbol o) EmptyString /\
    expr result = ("(" ++ expr a ++ String (op_symbol o) (expr b ++ ")"))%string /\
    val result = apply_op o (val a) (val b) /\
    (o = Div -> ltb (abs (val b)) lit_1e_9 = false).
Proof.
  unfold ops. simpl.
  intros [<-|[<-|[<-|[<-|[]]]]]; simpl.
  - intros [= <-]. exists Add. repeat split; try discriminate.
  - intros [= <-]. exists Sub. repeat split; try discriminate.
  - intros [= <-]. exists Mul. repeat split; try discriminate.
  - destruct (ltb (abs (val b)) lit_1e_9) eqn:G; [discriminate|].
    intros [= <-]. exists Div. repeat split; auto.
Qed.

Lemma calc_nonempty op a b result :
  In op ops -> calc op a b = Some result -> expr result <> EmptyString.
Proof.
  intros Hop Hc. destruct (calc_spec _ _ _ _ Hop Hc) as (o & _ & -> & _). discriminate.
Qed.

(** A string found by a recursive call is never empty, so the truthiness
    test [if (found)] never drops a solution. *)
Lemma search_truthy mode fuel arr s :
  search mode fuel arr = Ret (Some s) ->
  (forall x, arr = [x] -> expr x <> EmptyString) ->
  s <> EmptyString.
Proof.
  destruct fuel as [|fuel]; [discriminate|].
  rewrite search_S. unfold search_body. destruct (Nat.eqb (List.length arr) 1) eqn:Hlen.
  - destruct arr as [|x [|y arr]]; try discriminate Hlen. simpl.
    destruct (near24 (val x)); [|discriminate].
    intros [= <-] H. now apply H.
  - intros H _.
    apply for_of_Some in H as (i & _ & H).
    apply for_of_Some in H as (j & _ & H).
    destruct (Nat.eqb i j); [discriminate|].
    apply for_of_Some in H as (op & _ & H).
    now apply attempt_Some in H as (_ & _ & _ & _ & _ & _ & _ & _ & H).
Qed.

(** ** Completeness: a derivation that ends near 24 is found *)

Lemma search_complete mode arr x :
  derives mode arr x -> near24 (val x) = true ->
  forall fuel, (List.length arr < fuel)%nat ->
  exists s, search mode fuel arr = Ret (Some s).
Proof.
  induction 1 as [x|arr arr' x Hlen Hstep Hd IH]; intros Hx fuel Hf.
  - destruct fuel as [|fuel]; [lia|]. rewrite search_one, Hx. eauto.
  - destruct fuel as [|fuel]; [lia|].
    pose proof (step_length _ _ _ Hstep) as Hl.
    destruct Hstep as [i j a b op result Hij Hi Hj Hop Hen Hc].
    destruct (IH Hx fuel) as (s & Hs); [lia|].
    assert (Hi' : (i < List.length arr)%nat)
      by (apply nth_error_Some; congruence).
    assert (Hj' : (j < List.length arr)%nat)
      by (apply nth_error_Some; congruence).
    rewrite search_S. unfold search_body.
    replace (Nat.eqb (List.length arr) 1) with false
      by (symmetry; now apply Nat.eqb_neq).
    assert (Hatt : exists s', attempt (search mode fuel) mode arr i j op = Ret (Some s')).
    { unfold attempt. unfold enabled in Hen. apply negb_true_iff in Hen. rewrite Hen.
      rewrite (proj2 (get_Ret arr i a) Hi), (proj2 (get_Ret arr j b) Hj). simpl.
      rewrite Hc, Hs. simpl.
      assert (Hne : s <> EmptyString).
      { apply (search_truthy _ _ _ _ Hs). intros y Hy.
        destruct (rest_of i j arr) as [|z l]; simpl in Hy.
        - injection Hy as <-. eapply calc_nonempty; eauto.
        - destruct l; discriminate Hy. }
      destruct s; [easy|]. simpl. eauto. }
    destruct Hatt as (s' & Hatt).
    assert (Hops : exists s',
      (if Nat.eqb i j then Ret None
       else for_of ops (attempt (search mode fuel) mode arr i j)) = Ret (Some s')).
    { replace (Nat.eqb i j) with false by (symmetry; now apply Nat.eqb_neq).
      eapply for_of_found; eauto.
      intros op' _. apply attempt_total; auto.
      intros r. apply search_total.
      rewrite length_app in *. simpl in *. lia. }
    destruct Hops as (s2 & Hops).
    assert (Hjl : exists s',
      for_of (seq 0 (List.length arr)) (fun j =>
        if Nat.eqb i j then Ret None
        else for_of ops (attempt (search mode fuel) mode arr i j)) = Ret (Some s')).
    { eapply for_of_found with (x := j).
      - intros j0 Hj0. apply in_seq in Hj0. apply ops_body_total; lia.
      - apply in_seq. lia.
      - exact Hops. }
    destruct Hjl as (s3 & Hjl).
    eapply for_of_found with (x := i).
    + intros i0 Hi0. apply in_seq in Hi0. apply j_body_total; lia.
    + apply in_seq. lia.
    + exact Hjl.
Qed.

Lemma search_solvable mode fuel arr :
  (List.length arr < fuel)%nat ->
  (exists s, search mode fuel arr = Ret (Some s)) <-> solvable mode arr.
Proof.
  intros Hf. split.
  - intros (s & Hs). destruct (search_derives _ _ _ _ Hs) as (x & Hd & Hx & _).
    now exists x.
  - intros (x & Hd & Hx). eapply search_complete; eauto.
Qed.

(** ** The order of the pool does not matter *)

Lemma filter_from_In {A : Type} (p : nat -> bool) k (l : list A) b :
  In b (filter_from p k l) ->
  exists j, p (k + j)%nat = true /\ nth_error l j = Some b.
Proof.
  revert k. induction l as [|x l IH]; simpl; intros k H; [easy|].
  destruct (p k) eqn:Hp.
  - destruct H as [->|H].
    + exists 0%nat. now rewrite Nat.add_0_r.
    + destruct (IH _ H) as (j & Hj & Hn). exists (S j).
      now rewrite Nat.add_succ_r.
  - destruct (IH _ H) as (j & Hj & Hn). exists (S j).
    now rewrite Nat.add_succ_r.
Qed.

Lemma two_positions {A : Type} (l rest : list A) a b :
  Permutation l (a :: b :: rest) ->
  exists i j, i <> j /\ nth_error l i = Some a /\ nth_error l j = Some b.
Proof.
  intros Hp.
  assert (Ha : In a l) by (eapply Permutation_in; [symmetry; exact Hp|now left]).
  destruct (In_nth_error _ _ Ha) as (i & Hi).
  pose proof (remove_one l 0 i a Hi) as Hr.
  assert (Hb : In b (filter_from (fun idx => negb (Nat.eqb idx (0 + i))) 0 l)).
  { eapply Permutation_in with (l := b :: rest); [|now left].
    apply Permutation_cons_inv with (a := a).
    rewrite <- Hp. exact Hr. }
  destruct (filter_from_In _ _ _ _ Hb) as (j & Hj & Hn).
  exists i, j. repeat split; auto.
  simpl in Hj. apply negb_true_iff, Nat.eqb_neq in Hj. congruence.
Qed.

Lemma derives_perm mode arr x :
  derives mode arr x ->
  forall arr', Permutation arr arr' -> derives mode arr' x.
Proof.
  induction 1 as [x|arr arr1 x Hlen Hstep Hd IH]; intros arr' Hp.
  - apply Permutation_length_1_inv in Hp. subst. constructor.
  - destruct Hstep as [i j a b op result Hij Hi Hj Hop Hen Hc].
    pose proof (rest_of_perm arr i j a b Hij Hi Hj) as Hr.
    assert (Hp' : Permutation arr' (a :: b :: rest_of i j arr))
      by (rewrite <- Hp; exact Hr).
    destruct (two_positions _ _ _ _ Hp') as (i' & j' & Hij' & Hi' & Hj').
    pose proof (rest_of_perm arr' i' j' a b Hij' Hi' Hj') as Hr'.
    apply derives_step with (arr' := rest_of i' j' arr' ++ [result]).
    + rewrite <- (Permutation_length Hp). exact Hlen.
    + apply step_intro with (a := a) (b := b) (op := op); auto.
    + apply IH. apply Permutation_app_tail.
      apply Permutation_cons_inv with (a := b).
      apply Permutation_cons_inv with (a := a).
      rewrite <- Hr', <- Hp'. reflexivity.
Qed.

Lemma solvable_perm mode arr arr' :
  Permutation arr arr' -> solvable mode arr -> solvable mode arr'.
Proof.
  intros Hp (x & Hd & Hx). exists x. split; [|exact Hx].
  eapply derives_perm; eauto.
Qed.

Lemma seeds_perm nums nums' :
  Permutation nums nums' -> Permutation (seeds nums) (seeds nums').
Proof. apply Permutation_map. Qed.

Lemma seeds_length nums : List.length (seeds nums) = List.length nums.
Proof. apply length_map. Qed.

Lemma findSolution_solvable nums mode :
  (exists s, findSolution nums mode = Ret (Some s)) <-> solvable mode (seeds nums).
Proof.
  unfold findSolution. apply search_solvable. rewrite seeds_length. lia.
Qed.

Lemma findSolution_total nums mode : exists r, findSolution nums mode = Ret r.
Proof.
  unfold findSolution. apply search_total. rewrite seeds_length. lia.
Qed.

(** ** Operands and the expressions they stand for *)

Lemma Forall2_filter_from {A B : Type} (R : A -> B -> Prop) p k l1 l2 :
  Forall2 R l1 l2 -> Forall2 R (filter_from p k l1) (filter_from p k l2).
Proof.
  intros H. revert k. induction H as [|x y l1 l2 Hxy H IH]; simpl; intros k.
  - constructor.
  - destruct (p k); [constructor|]; auto.
Qed.

Lemma Forall2_nth_error_r {A B : Type} (R : A -> B -> Prop) l1 l2 i y :
  Forall2 R l1 l2 -> nth_error l2 i = Some y ->
  exists x, nth_error l1 i = Some x /\ R x y.
Proof.
  intros H. revert i. induction H as [|x0 y0 l1 l2 Hxy H IH]; intros [|i] Hi;
    simpl in *; try discriminate.
  - injection Hi as <-. eauto.
  - auto.
Qed.

Lemma Forall_filter_from {A : Type} (P : A -> Prop) p k l :
  Forall P l -> Forall P (filter_from p k l).
Proof.
  intros H. revert k. induction H as [|x l Hx H IH]; simpl; intros k.
  - constructor.
  - destruct (p k); [constructor|]; auto.
Qed.

Lemma step_tree mode arr arr' ts :
  step mode arr arr' -> Forall2 denotes ts arr ->
  exists i j ti tj o,
    i <> j /\ nth_error ts i = Some ti /\ nth_error ts j = Some tj /\
    permitted mode o (eval tj) /\
    Forall2 denotes (rest_of i j ts ++ [Bin o ti tj]) arr'.
Proof.
  intros [i j a b op result Hij Hi Hj Hop Hen Hc] Hts.
  destruct (Forall2_nth_error_r _ _ _ _ _ Hts Hi) as (ti & Hti & Hri & Hvi).
  destruct (Forall2_nth_error_r _ _ _ _ _ Hts Hj) as (tj & Htj & Hrj & Hvj).
  destruct (calc_spec _ _ _ _ Hop Hc) as (o & Hsym & Hexpr & Hval & Hg).
  exists i, j, ti, tj, o.
  split; [exact Hij|]. split; [exact Hti|]. split; [exact Htj|]. split.
  - intros ->. split.
    + unfold enabled in Hen. rewrite Hsym in Hen. simpl in Hen.
      destruct mode; [discriminate|]. reflexivity.
    + rewrite Hvj. auto.
  - apply Forall2_app.
    + now apply Forall2_filter_from.
    + constructor; [|constructor]. split; simpl.
      * now rewrite Hri, Hrj, Hexpr.
      * now rewrite Hvi, Hvj, Hval.
Qed.

(** Every derived operand carries an expression over the expressions of the
    pool, each used once, and built by permitted combinations only. *)
Lemma derives_tree mode (Q : Expr -> Prop) :
  (forall o l r, Q l -> Q r -> permitted mode o (eval r) -> Q (Bin o l r)) ->
  forall arr x, derives mode arr x ->
  forall ts, Forall2 denotes ts arr -> Forall Q ts ->
  exists t, denotes t x /\ Q t /\ Permutation (flat_map leaves ts) (leaves t).
Proof.
  intros HQ arr x Hd.
  induction Hd as [x|arr arr' x Hlen Hstep Hd IH]; intros ts Hts HQs.
  - inversion Hts as [|t y l1 l2 Ht Hnil]; subst.
    inversion Hnil; subst. exists t. repeat split; try apply Ht.
    + now inversion HQs.
    + simpl. now rewrite app_nil_r.
  - destruct (step_tree _ _ _ _ Hstep Hts)
      as (i & j & ti & tj & o & Hij & Hi & Hj & Hper & Hts').
    pose proof (rest_of_perm ts i j ti tj Hij Hi Hj) as Hp.
    assert (HQi : Q ti) by (eapply Forall_forall; [exact HQs|eapply nth_error_In; eauto]).
    assert (HQj : Q tj) by (eapply Forall_forall; [exact HQs|eapply nth_error_In; eauto]).
    destruct (IH _ Hts') as (t & Ht & HQt & Hl).
    { apply Forall_app. split.
      - now apply Forall_filter_from.
      - constructor; [|constructor]. now apply HQ. }
    exists t. repeat split; try apply Ht; auto.
    rewrite <- Hl.
    rewrite (Permutation_flat_map leaves Hp).
    rewrite flat_map_app. simpl. rewrite app_nil_r.
    rewrite app_assoc. apply Permutation_app_comm.
Qed.

Lemma seeds_denote nums : Forall2 denotes (map Num nums) (seeds nums).
Proof.
  induction nums as [|n nums IH]; simpl; constructor; auto.
  split; reflexivity.
Qed.

Lemma leaves_Num nums : flat_map leaves (map Num nums) = nums.
Proof. induction nums as [|n nums IH]; simpl; congruence. Qed.

(** Combining expression texts gives an expression text. *)
Lemma derives_text mode arr x :
  derives mode arr x -> Forall expression_text arr -> expression_text x.
Proof.
  induction 1 as [x|arr arr' x Hlen Hstep Hd IH]; intros Harr.
  - now inversion Harr.
  - apply IH. destruct Hstep as [i j a b op result Hij Hi Hj Hop Hen Hc].
    apply Forall_app. split; [now apply Forall_filter_from|].
    constructor; [|constructor].
    rewrite Forall_forall in Harr.
    destruct (Harr a (nth_error_In _ _ Hi)) as (ta & Ha).
    destruct (Harr b (nth_error_In _ _ Hj)) as (tb & Hb).
    destruct (calc_spec _ _ _ _ Hop Hc) as (o & _ & Hexpr & _).
    exists (Bin o ta tb). simpl. now rewrite Ha, Hb, Hexpr.
Qed.

(** ** The text of an integer and of an expression *)

Lemma digits_of_uint d : all_chars is_digit (NilEmpty.string_of_uint d) = true.
Proof. induction d; simpl; auto. Qed.

Lemma span_digits_app ds r :
  all_chars is_digit ds = true -> no_digit_ahead r ->
  span_digits (ds ++ r) = (ds, r).
Proof.
  induction ds as [|c ds IH]; simpl; intros Hd Hr.
  - destruct r as [|c r]; simpl in *; [reflexivity|]. now rewrite Hr.
  - apply andb_true_iff in Hd as (Hc & Hd). rewrite Hc, IH; auto.
Qed.

(** The decimal text of an integer: digits, after a minus sign when it is
    negative. *)
Lemma toString_shape n :
  exists ds,
    ds <> EmptyString /\ all_chars is_digit ds = true /\
    toString n = (if (n <? 0)%Z then String "-" ds else ds).
Proof.
  unfold toString. destruct n as [|p|p]; simpl.
  - exists "0"%string. repeat split. discriminate.
  - exists (NilEmpty.string_of_uint (Pos.to_uint p)).
    pose proof (DecimalPos.Unsigned.to_uint_nonnil p) as Hnn.
    destruct (Pos.to_uint p) eqn:E; try easy; simpl;
      (split; [discriminate|]); (split; [|reflexivity]); apply digits_of_uint.
  - exists (NilEmpty.string_of_uint (Pos.to_uint p)).
    pose proof (DecimalPos.Unsigned.to_uint_nonnil p) as Hnn.
    destruct (Pos.to_uint p) eqn:E; try easy; simpl;
      (split; [discriminate|]); (split; [|reflexivity]); apply digits_of_uint.
Qed.

Lemma toString_read n : NilZero.int_of_string (toString n) = Some (Z.to_int n).
Proof.
  unfold toString. apply NilZero.isi.
  - destruct n as [|p|p]; simpl; try discriminate.
    intros [= H]. now apply DecimalPos.Unsigned.to_uint_nonnil in H.
  - destruct n as [|p|p]; simpl; try discriminate.
    intros [= H]. now apply DecimalPos.Unsigned.to_uint_nonnil in H.
Qed.

Lemma toString_nonempty n : toString n <> EmptyString.
Proof.
  destruct (toString_shape n) as (ds & Hne & _ & ->).
  destruct (n <? 0)%Z; [discriminate|exact Hne].
Qed.

Lemma digit_not_minus c : is_digit c = true -> Ascii.eqb c "-" = false.
Proof.
  intros H. destruct (Ascii.eqb_spec c "-") as [->|]; [discriminate H|reflexivity].
Qed.

Lemma read_int_toString n r :
  no_digit_ahead r -> read_int (toString n ++ r) = Some (n, r).
Proof.
  intros Hr. unfold read_int.
  pose proof (toString_read n) as Hread.
  destruct (toString_shape n) as (ds & Hne & Hds & E). rewrite E in *.
  destruct (n <? 0)%Z.
  - simpl. rewrite span_digits_app by auto.
    rewrite Hread, DecimalZ.of_to. reflexivity.
  - destruct ds as [|c ds]; [easy|].
    assert (Hc : is_digit c = true) by (simpl in Hds; now apply andb_true_iff in Hds).
    change (String c ds ++ r)%string with (String c (ds ++ r)%string).
    cbv iota. rewrite (digit_not_minus c Hc).
    change (String c (ds ++ r)%string) with (String c ds ++ r)%string.
    rewrite span_digits_app by auto.
    rewrite Hread, DecimalZ.of_to. reflexivity.
Qed.

Lemma op_symbol_read o : op_of_symbol (op_symbol o) = Some o.
Proof. destruct o; reflexivity. Qed.

Lemma op_symbol_not_digit o : is_digit (op_symbol o) = false.
Proof. destruct o; reflexivity. Qed.

Lemma string_app_assoc (a b c : string) :
  ((a ++ b) ++ c = a ++ (b ++ c))%string.
Proof. induction a as [|x a IH]; simpl; congruence. Qed.

Lemma toString_no_paren n r :
  exists c s, (toString n ++ r)%string = String c s /\ c <> "("%char.
Proof.
  destruct (toString_shape n) as (ds & Hne & Hds & ->).
  destruct (n <? 0)%Z.
  - simpl. eexists _, _. split; [reflexivity|discriminate].
  - destruct ds as [|c ds]; [easy|]. simpl. eexists _, _. split; [reflexivity|].
    intros ->. discriminate Hds.
Qed.

Lemma render_Bin_app o l r s :
  (render (Bin o l r) ++ s)%string =
  String "(" (render l ++ String (op_symbol o) (render r ++ String ")" s))%string.
Proof.
  simpl. f_equal. rewrite string_app_assoc. f_equal. simpl. f_equal.
  now rewrite string_app_assoc.
Qed.

(** Reading back the text of an expression yields the expression. *)
Lemma read_expr_render t :
  forall fuel r,
    (height t < fuel)%nat -> no_digit_ahead r ->
    read_expr fuel (render t ++ r) = Some (t, r).
Proof.
  induction t as [n|o l IHl r0 IHr]; intros fuel r Hf Hr.
  - destruct fuel as [|fuel]; [lia|]. simpl.
    destruct (toString_no_paren n r) as (c & s & E & Hc).
    rewrite E. rewrite <- E.
    assert (Hlit : read_int (toString n ++ r) = Some (n, r))
      by now apply read_int_toString.
    destruct c as [[|] [|] [|] [|] [|] [|] [|] [|]];
      try (rewrite Hlit; reflexivity).
    now contradiction Hc.
  - destruct fuel as [|fuel]; [lia|]. simpl in Hf.
    rewrite render_Bin_app.
    simpl read_expr.
    rewrite IHl; [|lia|apply op_symbol_not_digit].
    rewrite op_symbol_read.
    rewrite IHr; [|lia|reflexivity].
    reflexivity.
Qed.

Lemma string_app_nil (s : string) : (s ++ EmptyString)%string = s.
Proof. induction s as [|c s IH]; simpl; congruence. Qed.

Lemma string_length_app (a b : string) :
  String.length (a ++ b)%string = (String.length a + String.length b)%nat.
Proof. induction a as [|x a IH]; simpl; congruence. Qed.

Lemma render_length t : (height t < String.length (render t))%nat.
Proof.
  induction t as [n|o l IHl r IHr]; simpl.
  - pose proof (toString_nonempty n). destruct (toString n); [easy|simpl; lia].
  - rewrite string_length_app. simpl. rewrite string_length_app. simpl. lia.
Qed.

Lemma parse_render t : parse (render t) = Some t.
Proof.
  unfold parse.
  rewrite <- (string_app_nil (render t)) at 2.
  rewrite read_expr_render; [reflexivity| |exact I].
  pose proof (render_length t). lia.
Qed.

(** No two expressions share a text. *)
Lemma render_inj t1 t2 : render t1 = render t2 -> t1 = t2.
Proof.
  intros H. pose proof (parse_render t1) as H1. rewrite H, parse_render in H1.
  congruence.
Qed.

(** ** The recursive calls of [search] *)

Lemma subpools_In mode arr i j a b op result :
  List.length arr <> 1%nat -> i <> j ->
  nth_error arr i = Some a -> nth_error arr j = Some b ->
  In op ops -> enabled mode op = true -> calc op a b = Some result ->
  In (rest_of i j arr ++ [result]) (subpools mode arr).
Proof.
  intros Hlen Hij Hi Hj Hop Hen Hc. unfold subpools.
  replace (Nat.eqb (List.length arr) 1) with false
    by (symmetry; now apply Nat.eqb_neq).
  apply in_flat_map. exists i. split.
  { apply in_seq. split; [lia|]. apply nth_error_Some. congruence. }
  apply in_flat_map. exists j. split.
  { apply in_seq. split; [lia|]. apply nth_error_Some. congruence. }
  replace (Nat.eqb i j) with false by (symmetry; now apply Nat.eqb_neq).
  apply in_flat_map. exists op. split; [exact Hop|].
  rewrite Hen, Hi, Hj, Hc. now left.
Qed.

Lemma subpools_step mode arr p :
  In p (subpools mode arr) -> List.length arr <> 1%nat /\ step mode arr p.
Proof.
  unfold subpools. destruct (Nat.eqb (List.length arr) 1) eqn:Hlen; [easy|].
  intros H. split; [now apply Nat.eqb_neq|].
  apply in_flat_map in H as (i & _ & H).
  apply in_flat_map in H as (j & _ & H).
  destruct (Nat.eqb i j) eqn:Hij; [easy|].
  apply in_flat_map in H as (op & Hop & H).
  destruct (enabled mode op) eqn:Hen; [|easy].
  destruct (nth_error arr i) as [a|] eqn:Hi; [|easy].
  destruct (nth_error arr j) as [b|] eqn:Hj; [|easy].
  destruct (calc op a b) as [result|] eqn:Hc; [|easy].
  destruct H as [<-|[]].
  apply step_intro with (a := a) (b := b) (op := op); auto.
  now apply Nat.eqb_neq.
Qed.

Lemma subpools_length mode arr p :
  In p (subpools mode arr) -> S (List.length p) = List.length arr.
Proof.
  intros H. apply subpools_step in H as (_ & H). eapply step_length; eauto.
Qed.

(** [search] consults its recursive call on the sub-pools only. *)
Lemma search_body_calls mode arr rec rec' :
  (forall p, In p (subpools mode arr) -> rec p = rec' p) ->
  search_body rec mode arr = search_body rec' mode arr.
Proof.
  intros H. unfold search_body.
  destruct (Nat.eqb (List.length arr) 1) eqn:Hlen; [reflexivity|].
  apply Nat.eqb_neq in Hlen.
  apply for_of_ext. intros i Hi.
  apply for_of_ext. intros j Hj.
  destruct (Nat.eqb i j) eqn:Hij; [reflexivity|]. apply Nat.eqb_neq in Hij.
  apply for_of_ext. intros op Hop.
  unfold attempt.
  destruct (Mode_eqb mode easy && String.eqb (symbol op) "/") eqn:Hg; [reflexivity|].
  unfold get.
  destruct (nth_error arr i) as [a|] eqn:Ha; [|reflexivity].
  destruct (nth_error arr j) as [b|] eqn:Hb; [|reflexivity]. simpl.
  destruct (calc op a b) as [result|] eqn:Hc; [|reflexivity].
  rewrite (H (rest_of i j arr ++ [result])); [reflexivity|].
  eapply subpools_In; eauto. unfold enabled. now rewrite Hg.
Qed.

Lemma search_fuel mode fuel fuel' arr :
  (0 < fuel)%nat -> (List.length arr <= fuel)%nat ->
  (0 < fuel')%nat -> (List.length arr <= fuel')%nat ->
  search mode fuel arr = search mode fuel' arr.
Proof.
  revert fuel' arr. induction fuel as [|fuel IH]; intros [|fuel'] arr H1 H2 H3 H4;
    try lia.
  rewrite !search_S. apply search_body_calls. intros p Hp.
  pose proof (subpools_length _ _ _ Hp) as Hl.
  apply subpools_step in Hp as (Hlen & _).
  apply IH; lia.
Qed.

(** ** What a returned string is *)

(** A string returned by [findSolution] is the text of an expression over
    the input numbers, each used once, whose value passes the test against
    24, and which is built by permitted combinations only. *)
Lemma findSolution_tree (Q : Expr -> Prop) nums mode s :
  (forall n, Q (Num n)) ->
  (forall o l r, Q l -> Q r -> permitted mode o (eval r) -> Q (Bin o l r)) ->
  findSolution nums mode = Ret (Some s) ->
  exists t,
    render t = s /\ near24 (eval t) = true /\ Q t /\ Permutation (leaves t) nums.
Proof.
  intros HN HB H. unfold findSolution in H.
  apply search_derives in H as (x & Hd & Hx & Hs).
  destruct (derives_tree mode Q HB _ _ Hd (map Num nums)) as (t & (Ht & Hv) & HQ & Hl).
  - apply seeds_denote.
  - apply Forall_forall. intros t Ht. apply in_map_iff in Ht as (n & <- & _). apply HN.
  - exists t. repeat split; auto; try congruence.
    rewrite leaves_Num in Hl. now symmetry.
Qed.

Lemma near24_finite v : near24 v = true -> is_finite v = true.
Proof.
  intros H. destruct v as [ | [|] | | ]; try reflexivity; vm_compute in H; discriminate H.
Qed.

Lemma contains_app c s1 s2 :
  contains c (s1 ++ s2)%string = contains c s1 || contains c s2.
Proof.
  induction s1 as [|x s1 IH]; simpl; [reflexivity|]. now rewrite IH, orb_assoc.
Qed.

Lemma digits_no_slash ds : all_chars is_digit ds = true -> contains "/" ds = false.
Proof.
  induction ds as [|c ds IH]; simpl; [reflexivity|].
  intros H. apply andb_true_iff in H as (Hc & Hd). rewrite (IH Hd), orb_false_r.
  destruct (Ascii.eqb_spec c "/") as [->|]; [discriminate Hc|reflexivity].
Qed.

Lemma toString_no_slash n : contains "/" (toString n) = false.
Proof.
  destruct (toString_shape n) as (ds & _ & Hds & ->).
  destruct (n <? 0)%Z; simpl; now apply digits_no_slash.
Qed.

Lemma render_no_slash t : has_div t = false -> contains "/" (render t) = false.
Proof.
  induction t as [n|o l IHl r IHr]; simpl.
  - intros _. apply toString_no_slash.
  - intros H. apply orb_false_iff in H as (H & Hr).
    apply orb_false_iff in H as (Ho & Hl).
    rewrite contains_app. simpl. rewrite contains_app. simpl.
    rewrite (IHl Hl), (IHr Hr). destruct o; try reflexivity. discriminate Ho.
Qed.

Lemma leaves_nonempty t : (0 < List.length (leaves t))%nat.
Proof.
  induction t as [n|o l IHl r IHr]; simpl; [lia|]. rewrite length_app. lia.
Qed.

Lemma leaves_one t a : leaves t = [a] -> t = Num a.
Proof.
  destruct t as [n|o l r]; simpl; [congruence|].
  intros H. apply (f_equal (@List.length Z)) in H. rewrite length_app in H. simpl in H.
  pose proof (leaves_nonempty l). pose proof (leaves_nonempty r). lia.
Qed.

(** The expressions over two numbers. *)
Lemma leaves_two t a b :
  Permutation (leaves t) [a; b] ->
  exists o, t = Bin o (Num a) (Num b) \/ t = Bin o (Num b) (Num a).
Proof.
  destruct t as [n|o l r]; simpl; intros Hp.
  - apply Permutation_length in Hp. discriminate Hp.
  - pose proof (Permutation_length Hp) as Hlen. rewrite length_app in Hlen. simpl in Hlen.
    pose proof (leaves_nonempty l) as Hl. pose proof (leaves_nonempty r) as Hr.
    destruct (leaves l) as [|x [|x' ll]] eqn:El; simpl in *; try lia.
    destruct (leaves r) as [|y [|y' lr]] eqn:Er; simpl in *; try lia.
    apply leaves_one in El, Er. subst l r. exists o.
    apply Permutation_length_2 in Hp as [(-> & ->)|(-> & ->)]; auto.
Qed.

(** ** Rounding a product with nine *)

Section Rounding.

Local Open Scope Z_scope.

Lemma digits2_bounds p :
  2 ^ (Zpos (digits2_pos p) - 1) <= Zpos p < 2 ^ Zpos (digits2_pos p).
Proof.
  induction p as [p IH|p IH|]; simpl digits2_pos.
  - rewrite Pos2Z.inj_succ. change (Zpos p~1) with (2 * Zpos p + 1).
    replace (Z.succ (Zpos (digits2_pos p)) - 1) with (Z.succ (Zpos (digits2_pos p) - 1)) by lia.
    rewrite !Z.pow_succ_r by lia.
    generalize dependent (2 ^ (Z.pos (digits2_pos p) - 1)).
    generalize dependent (2 ^ Z.pos (digits2_pos p)). intros; lia.
  - rewrite Pos2Z.inj_succ. change (Zpos p~0) with (2 * Zpos p).
    replace (Z.succ (Zpos (digits2_pos p)) - 1) with (Z.succ (Zpos (digits2_pos p) - 1)) by lia.
    rewrite !Z.pow_succ_r by lia.
    generalize dependent (2 ^ (Z.pos (digits2_pos p) - 1)).
    generalize dependent (2 ^ Z.pos (digits2_pos p)). intros; lia.
  - simpl. lia.
Qed.

Lemma iter_pos_nat {A : Type} (f : A -> A) p x :
  iter_pos f p x = Nat.iter (Pos.to_nat p) f x.
Proof.
  revert x. induction p as [p IH|p IH|]; intros x; simpl iter_pos.
  - rewrite !IH, Pos2Nat.inj_xI, Nat.iter_succ_r.
    replace (2 * Pos.to_nat p)%nat with (Pos.to_nat p + Pos.to_nat p)%nat by lia.
    now rewrite Nat.iter_add.
  - rewrite !IH, Pos2Nat.inj_xO.
    replace (2 * Pos.to_nat p)%nat with (Pos.to_nat p + Pos.to_nat p)%nat by lia.
    now rewrite Nat.iter_add.
  - reflexivity.
Qed.

Lemma shr_1_m mrs : 0 <= shr_m mrs -> shr_m (shr_1 mrs) = shr_m mrs / 2.
Proof.
  destruct mrs as [m r s]. simpl. intros Hm.
  rewrite <- Z.div2_div.
  destruct m as [|[p|p|]|p]; try reflexivity; lia.
Qed.

Lemma shr_iter_m n mrs :
  0 <= shr_m mrs ->
  shr_m (Nat.iter n shr_1 mrs) = shr_m mrs / 2 ^ Z.of_nat n.
Proof.
  intros Hm. induction n as [|n IH].
  - simpl. now rewrite Z.div_1_r.
  - rewrite Nat.iter_succ, shr_1_m, IH.
    + rewrite Nat2Z.inj_succ, Z.pow_succ_r by lia.
      rewrite Z.div_div by lia. f_equal. lia.
    + rewrite IH. apply Z.div_pos; lia.
Qed.

Lemma shr_m_shift M e p :
  0 <= M ->
  shr (Build_shr_record M false false) e (Zpos p) =
  (iter_pos shr_1 p (Build_shr_record M false false), e + Zpos p) /\
  shr_m (iter_pos shr_1 p (Build_shr_record M false false)) = M / 2 ^ Zpos p.
Proof.
  intros HM. split; [reflexivity|].
  rewrite iter_pos_nat, shr_iter_m by exact HM. simpl shr_m.
  now rewrite positive_nat_Z.
Qed.

Lemma round_nearest_even_bounds m l :
  m <= round_nearest_even m l <= m + 1.
Proof.
  destruct l as [|[| |]]; simpl; try lia. destruct (Z.even m); lia.
Qed.

Lemma pow2_lt_inv a b : 0 <= b -> 2 ^ a < 2 ^ b -> a < b.
Proof. intros Hb H. apply (Z.pow_lt_mono_r_iff 2); lia. Qed.

Lemma unit_float_shape m e :
  bounded 53 1024 m e = true ->
  SFltb (S754_finite false m e) (S754_finite false 4503599627370496 (-52)) = true ->
  -1074 <= e <= -53 /\ Zpos m < 2 ^ 53.
Proof.
  intros Hb Hlt.
  unfold bounded, canonical_mantissa, fexp, emin in Hb.
  apply andb_true_iff in Hb as (Hc & He).
  apply Z.eqb_eq in Hc. apply Z.leb_le in He.
  pose proof (digits2_bounds m) as Hdm.
  set (dm := Zpos (digits2_pos m)) in *.
  assert (Hd : dm <= 53 /\ -1074 <= e /\ (dm = 53 \/ e = -1074)) by lia.
  destruct Hd as (Hd1 & Hd2 & Hd3).
  assert (Hm : Zpos m < 2 ^ 53).
  { apply Z.lt_le_trans with (2 ^ dm); [apply Hdm|].
    apply Z.pow_le_mono_r; lia. }
  split; [|exact Hm]. split; [exact Hd2|].
  unfold SFltb, SFcompare in Hlt.
  destruct (e ?= -52) eqn:Ecmp.
  - apply Z.compare_eq in Ecmp. subst e.
    destruct Hd3 as [Hd3|Hd3]; [|lia].
    rewrite Hd3 in Hdm. change (2 ^ (53 - 1)) with 4503599627370496 in Hdm.
    rewrite Pos.compare_cont_spec in Hlt.
    destruct (Pos.compare m 4503599627370496) eqn:Ec; try discriminate Hlt.
    apply Pos2Z.pos_lt_pos in Ec. lia.
  - rewrite Z.compare_lt_iff in Ecmp. lia.
  - discriminate Hlt.
Qed.

Lemma binary_round_aux_pack sx mx ex lx :
  binary_round_aux 53 1024 sx mx ex lx =
  pack sx (round_nearest_even (shr_m (fst (shr_fexp 53 1024 mx ex lx)))
             (loc_of_shr_record (fst (shr_fexp 53 1024 mx ex lx))))
       (snd (shr_fexp 53 1024 mx ex lx)).
Proof.
  unfold binary_round_aux, pack.
  destruct (shr_fexp 53 1024 mx ex lx) as [mrs' e']. reflexivity.
Qed.

(** The first half: the mantissa is shifted right by the excess digits. *)
Lemma shr_fexp_exact (M : positive) (E : Z) :
  let n := Z.max (Zpos (digits2_pos M) + E - 53) (-1074) - E in
  0 <= n ->
  shr_m (fst (shr_fexp 53 1024 (Zpos M) E loc_Exact)) = Zpos M / 2 ^ n /\
  snd (shr_fexp 53 1024 (Zpos M) E loc_Exact) = E + n.
Proof.
  intros n Hn. unfold shr_fexp, fexp, emin. simpl Zdigits2. simpl shr_record_of_loc.
  change (3 - 1024 - 53) with (-1074). fold n.
  destruct n as [|p|p] eqn:En.
  - simpl. rewrite Z.div_1_r. split; [reflexivity|lia].
  - destruct (shr_m_shift (Zpos M) E p) as (Hs & Hm); [lia|].
    rewrite Hs. simpl fst. simpl snd. rewrite Hm. split; reflexivity.
  - lia.
Qed.

Lemma pack_noshift sx m e :
  Z.max (Zdigits2 m + e - 53) (-1074) - e <= 0 ->
  pack sx m e =
  match m with
  | Z0 => S754_zero sx
  | Zpos p => if e <=? 1024 - 53 then S754_finite sx p e else S754_infinity sx
  | Zneg _ => S754_nan
  end.
Proof.
  intros Hn. unfold pack, shr_fexp, fexp, emin.
  change (3 - 1024 - 53) with (-1074).
  destruct (Z.max (Zdigits2 m + e - 53) (-1074) - e) as [|p|p]; [|lia|];
    destruct m; reflexivity.
Qed.

Lemma pack_shift1 sx q e :
  Z.max (Zdigits2 (Zpos q) + e - 53) (-1074) - e = 1 ->
  pack sx (Zpos q) e =
  match q with
  | xH => S754_zero sx
  | xO q' | xI q' =>
      if e + 1 <=? 1024 - 53 then S754_finite sx q' (e + 1) else S754_infinity sx
  end.
Proof.
  intros Hn. unfold pack, shr_fexp, fexp, emin.
  change (3 - 1024 - 53) with (-1074). rewrite Hn.
  destruct q; reflexivity.
Qed.

Lemma pack_bound (m1 e1 : Z) :
  0 <= m1 <= 2 ^ 53 -> -1074 <= e1 <= -49 -> m1 < 9 * 2 ^ (- e1) ->
  pack false m1 e1 = S754_zero false \/
  exists m2 e2,
    pack false m1 e1 = S754_finite false m2 e2 /\ e2 < 0 /\ Zpos m2 < 9 * 2 ^ (- e2).
Proof.
  intros Hm He HK.
  destruct m1 as [|q|q]; [| |lia].
  - left. rewrite pack_noshift; [reflexivity|]. simpl Zdigits2. lia.
  - pose proof (digits2_bounds q) as Hq.
    assert (Hd : Zpos (digits2_pos q) <= 54).
    { assert (Zpos (digits2_pos q) - 1 < 54); [|lia]. apply pow2_lt_inv; [lia|].
      apply Z.le_lt_trans with (Zpos q); [apply Hq|].
      apply Z.le_lt_trans with (2 ^ 53); [apply Hm|].
      apply Z.pow_lt_mono_r; lia. }
    assert (Hle : (e1 <=? 1024 - 53) = true) by (apply Z.leb_le; lia).
    assert (Hle' : (e1 + 1 <=? 1024 - 53) = true) by (apply Z.leb_le; lia).
    destruct (Z_le_gt_dec (Z.max (Zdigits2 (Zpos q) + e1 - 53) (-1074) - e1) 0)
      as [Hn|Hn].
    + right. exists q, e1. rewrite pack_noshift by exact Hn. rewrite Hle.
      split; [reflexivity|]. split; [lia|exact HK].
    + assert (Hn1 : Z.max (Zdigits2 (Zpos q) + e1 - 53) (-1074) - e1 = 1)
        by (simpl Zdigits2 in *; lia).
      rewrite (pack_shift1 false q e1 Hn1), Hle'.
      assert (Hpow : 2 ^ (- e1) = 2 * 2 ^ (- (e1 + 1))).
      { replace (- e1) with (Z.succ (- (e1 + 1))) by lia.
        apply Z.pow_succ_r. lia. }
      rewrite Hpow in HK.
      destruct q as [q'|q'|].
      * right. exists q', (e1 + 1). split; [reflexivity|]. split; [lia|].
        change (Zpos q'~1) with (2 * Zpos q' + 1) in HK. lia.
      * right. exists q', (e1 + 1). split; [reflexivity|]. split; [lia|].
        change (Zpos q'~0) with (2 * Zpos q') in HK. lia.
      * now left.
Qed.

Lemma mul_nine_general m e :
  -1074 <= e <= -53 -> Zpos m < 2 ^ 53 -> Zpos m + 2 <= 2 ^ (- e) ->
  below_nine
    (SFmul 53 1024 (S754_finite false m e) (S754_finite false 5066549580791808 (-49))).
Proof.
  intros He Hm Hm2.
  unfold SFmul. simpl xorb. rewrite binary_round_aux_pack.
  set (M := (m * 5066549580791808)%positive).
  assert (HM : Zpos M = Zpos m * 5066549580791808) by reflexivity.
  pose proof (digits2_bounds M) as HdM.
  pose proof (shr_fexp_exact M (e + -49)) as Hshr.
  set (d := Zpos (digits2_pos M)) in *.
  cbv zeta in Hshr.
  set (n := Z.max (d + (e + -49) - 53) (-1074) - (e + -49)) in *.
  change (2 ^ 53) with 9007199254740992 in Hm.
  assert (Hd106 : d <= 106).
  { assert (d - 1 < 106); [|lia]. apply pow2_lt_inv; [lia|].
    apply Z.le_lt_trans with (Zpos M); [apply HdM|].
    rewrite HM. change (2 ^ 106) with (9007199254740992 * 9007199254740992). nia. }
  assert (Hd53 : 53 <= d).
  { assert (52 < d); [|lia]. apply pow2_lt_inv; [lia|].
    apply Z.le_lt_trans with (Zpos M); [|apply HdM].
    rewrite HM. change (2 ^ 52) with 4503599627370496. lia. }
  assert (Hn : 0 <= n <= 53) by lia.
  destruct Hshr as (Hm1 & He1); [lia|].
  rewrite He1.
  set (mrs := fst (shr_fexp 53 1024 (Zpos M) (e + -49) loc_Exact)) in *.
  pose proof (round_nearest_even_bounds (shr_m mrs) (loc_of_shr_record mrs)) as Hr.
  set (m1' := round_nearest_even (shr_m mrs) (loc_of_shr_record mrs)) in *.
  rewrite Hm1 in Hr.
  assert (Hpn : 0 < 2 ^ n) by (apply Z.pow_pos_nonneg; lia).
  assert (Hpn53 : 2 ^ n <= 9007199254740992)
    by (change 9007199254740992 with (2 ^ 53); apply Z.pow_le_mono_r; lia).
  assert (HK : 9 * 2 ^ (- (e + -49 + n)) * 2 ^ n = 5066549580791808 * 2 ^ (- e)).
  { rewrite <- Z.mul_assoc, <- Z.pow_add_r by lia.
    replace (- (e + -49 + n) + n) with (49 + - e) by lia.
    rewrite Z.pow_add_r by lia. change (2 ^ 49) with 562949953421312. lia. }
  assert (Hdn : Zpos M < 2 ^ n * 9007199254740992).
  { change 9007199254740992 with (2 ^ 53). rewrite <- Z.pow_add_r by lia.
    apply Z.lt_le_trans with (2 ^ d); [apply HdM|].
    apply Z.pow_le_mono_r; lia. }
  assert (Hq0 : 0 <= Zpos M / 2 ^ n) by (apply Z.div_pos; lia).
  apply pack_bound; [split; [lia|]|lia|].
  - (* the shifted mantissa has at most 53 digits *)
    apply Z.le_trans with (Zpos M / 2 ^ n + 1); [lia|].
    assert (Zpos M / 2 ^ n < 9007199254740992); [|change (2 ^ 53) with 9007199254740992; lia].
    apply Z.div_lt_upper_bound; lia.
  - (* and stays two units below nine, so rounding up cannot reach nine *)
    apply Z.le_lt_trans with (Zpos M / 2 ^ n + 1); [lia|].
    assert (Zpos M / 2 ^ n < 9 * 2 ^ (- (e + -49 + n)) - 1); [|lia].
    apply Z.div_lt_upper_bound; [lia|]. nia.
Qed.

Lemma mul_nine_bound m e :
  bounded 53 1024 m e = true ->
  SFltb (S754_finite false m e) (S754_finite false 4503599627370496 (-52)) = true ->
  below_nine
    (SFmul 53 1024 (S754_finite false m e) (S754_finite false 5066549580791808 (-49))).
Proof.
  intros Hb Hlt.
  destruct (unit_float_shape m e Hb Hlt) as (He & Hm).
  destruct (Z.eq_dec e (-53)) as [Ee|Ee];
    [destruct (Pos.eq_dec m 9007199254740991) as [Em|Em]|].
  - (* the largest number below one *)
    subst. right. exists 5066549580791807%positive, (-49).
    split; [vm_compute; reflexivity|]. split; [lia|]. vm_compute. reflexivity.
  - apply mul_nine_general; auto. subst e.
    change (2 ^ (- -53)) with 9007199254740992.
    change (2 ^ 53) with 9007199254740992 in Hm.
    assert (Zpos m <> 9007199254740991) by congruence. lia.
  - apply mul_nine_general; auto.
    assert (H54 : 2 ^ 54 <= 2 ^ (- e)) by (apply Z.pow_le_mono_r; lia).
    change (2 ^ 53) with 9007199254740992 in Hm.
    change (2 ^ 54) with 18014398509481984 in H54. lia.
Qed.

End Rounding.

(** ** Orders of magnitude

    No operation of a returned expression over safe integers overflows: the
    result of an operation is bounded in terms of its operands, a quotient
    thanks to the guard on its divisor. *)

Section Magnitude.

Local Open Scope Z_scope.

Lemma below_mono B B' x : B <= B' -> below B x -> below B' x.
Proof. destruct x; simpl; auto. lia. Qed.

Lemma below_finite B x : below B x -> is_finite x = true.
Proof. destruct x; simpl; auto; easy. Qed.

Lemma Zdigits2_le m k : 0 <= k -> 0 <= m < 2 ^ k -> Zdigits2 m <= k.
Proof.
  intros Hk Hm. destruct m as [|p|p]; simpl; [exact Hk| |lia].
  pose proof (digits2_bounds p) as Hp.
  assert (Zpos (digits2_pos p) - 1 < k); [|lia].
  apply pow2_lt_inv; [exact Hk|]. lia.
Qed.

Lemma Zdigits2_nonneg m : 0 <= Zdigits2 m.
Proof. destruct m; simpl; lia. Qed.

Lemma Zdigits2_gt m : 0 <= m -> m < 2 ^ Zdigits2 m.
Proof.
  intros Hm. destruct m as [|p|p]; simpl; [lia| |lia]. apply digits2_bounds.
Qed.

Lemma shr_record_of_loc_m m l : shr_m (shr_record_of_loc m l) = m.
Proof. destruct l as [|[| |]]; reflexivity. Qed.

Lemma shr_fexp_m mz ez lz :
  0 <= mz ->
  shr_m (fst (shr_fexp 53 1024 mz ez lz))
    = mz / 2 ^ Z.max (Z.max (Zdigits2 mz + ez - 53) (-1074) - ez) 0 /\
  snd (shr_fexp 53 1024 mz ez lz)
    = ez + Z.max (Z.max (Zdigits2 mz + ez - 53) (-1074) - ez) 0.
Proof.
  intros Hm. unfold shr_fexp, fexp, emin. change (3 - 1024 - 53) with (-1074).
  destruct (Z.max (Zdigits2 mz + ez - 53) (-1074) - ez) as [|p|p] eqn:En.
  - simpl. rewrite shr_record_of_loc_m, Z.div_1_r. split; [reflexivity|lia].
  - unfold shr. simpl fst. simpl snd.
    rewrite iter_pos_nat, shr_iter_m by (rewrite shr_record_of_loc_m; exact Hm).
    rewrite shr_record_of_loc_m, positive_nat_Z.
    replace (Z.max (Zpos p) 0) with (Zpos p) by lia. split; reflexivity.
  - simpl. rewrite shr_record_of_loc_m, Z.div_1_r. split; [reflexivity|lia].
Qed.

Lemma pack_below sx m e :
  0 <= m <= 2 ^ 53 -> -1074 <= e <= 970 -> below (Zdigits2 m + e) (pack sx m e).
Proof.
  intros Hm He.
  assert (Hle : (e <=? 1024 - 53) = true) by (apply Z.leb_le; lia).
  assert (Hle' : (e + 1 <=? 1024 - 53) = true) by (apply Z.leb_le; lia).
  assert (Hd : Zdigits2 m <= 54).
  { apply Zdigits2_le; [lia|].
    split; [lia|]. apply Z.le_lt_trans with (2 ^ 53); [lia|].
    apply Z.pow_lt_mono_r; lia. }
  destruct (Z_le_gt_dec (Z.max (Zdigits2 m + e - 53) (-1074) - e) 0) as [Hn|Hn].
  - rewrite pack_noshift by exact Hn.
    destruct m as [|q|q]; [exact I| |lia]. rewrite Hle. unfold below, Zdigits2. lia.
  - destruct m as [|q|q]; [simpl in Hn; lia| |lia].
    assert (Hn1 : Z.max (Zdigits2 (Zpos q) + e - 53) (-1074) - e = 1) by lia.
    rewrite (pack_shift1 sx q e Hn1).
    destruct q as [q'|q'|]; [rewrite Hle'|rewrite Hle'|exact I];
      unfold below, Zdigits2; cbn [digits2_pos]; rewrite Pos2Z.inj_succ; lia.
Qed.

Lemma round_aux_below sx mz ez lz B :
  0 <= mz -> Zdigits2 mz + ez <= B -> -1021 <= B <= 970 ->
  below (B + 1) (binary_round_aux 53 1024 sx mz ez lz).
Proof.
  intros Hm HB HBr.
  rewrite binary_round_aux_pack.
  destruct (shr_fexp_m mz ez lz Hm) as (Hm1 & He1). rewrite He1.
  pose proof (round_nearest_even_bounds
                (shr_m (fst (shr_fexp 53 1024 mz ez lz)))
                (loc_of_shr_record (fst (shr_fexp 53 1024 mz ez lz)))) as Hr.
  set (m1' := round_nearest_even _ _) in *.
  rewrite Hm1 in Hr. clear Hm1 He1.
  pose proof (Zdigits2_nonneg mz) as Hd0.
  pose proof (Zdigits2_gt mz Hm) as Hd.
  set (d := Zdigits2 mz) in *.
  set (n := Z.max (d + ez - 53) (-1074) - ez) in *.
  assert (Hp : 0 < 2 ^ Z.max n 0) by (apply Z.pow_pos_nonneg; lia).
  assert (Hq0 : 0 <= mz / 2 ^ Z.max n 0) by (apply Z.div_pos; lia).
  assert (Hq53 : mz / 2 ^ Z.max n 0 < 2 ^ 53).
  { apply Z.div_lt_upper_bound; [exact Hp|].
    rewrite <- Z.pow_add_r by lia.
    apply Z.lt_le_trans with (2 ^ d); [exact Hd|].
    apply Z.pow_le_mono_r; lia. }
  eapply below_mono; [|apply pack_below; lia].
  destruct (Z_le_gt_dec n 0) as [Hn|Hn].
  - replace (Z.max n 0) with 0 in * by lia.
    rewrite Z.div_1_r in Hr.
    assert (Zdigits2 m1' <= d + 1); [|lia].
    apply Zdigits2_le; [lia|]. split; [lia|].
    rewrite Z.pow_add_r by lia. change (2 ^ 1) with 2. lia.
  - replace (Z.max n 0) with n in * by lia.
    assert (Zdigits2 m1' <= 54); [|lia].
    apply Zdigits2_le; [lia|]. split; [lia|].
    change (2 ^ 54) with (2 * 2 ^ 53). lia.
Qed.

Lemma mul_below Bx By x y :
  below Bx x -> below By y -> -1021 <= Bx + By <= 970 ->
  below (Bx + By + 1) (mul x y).
Proof.
  intros Hx Hy HB.
  destruct x as [sx|sx| |sx mx ex]; try easy;
    destruct y as [sy|sy| |sy my ey]; try easy; try exact I.
  unfold below in Hx, Hy. unfold mul, SFmul.
  apply round_aux_below; [lia| |exact HB].
  pose proof (digits2_bounds mx) as Hmx. pose proof (digits2_bounds my) as Hmy.
  assert (Zdigits2 (Zpos (mx * my)) <= Zpos (digits2_pos mx) + Zpos (digits2_pos my));
    [|lia].
  apply Zdigits2_le; [lia|]. split; [lia|].
  rewrite Pos2Z.inj_mul, Z.pow_add_r by lia.
  apply Z.mul_lt_mono_nonneg; lia.
Qed.

Lemma iter_xO_spec m d :
  Zpos (Pos.iter xO m d) = Zpos m * 2 ^ Zpos d /\
  Zpos (digits2_pos (Pos.iter xO m d)) = Zpos (digits2_pos m) + Zpos d.
Proof.
  induction d as [|d IH] using Pos.peano_ind.
  - simpl. split; [lia|]. rewrite Pos2Z.inj_succ. lia.
  - rewrite Pos.iter_succ. destruct IH as (IH1 & IH2).
    cbn [digits2_pos]. rewrite !Pos2Z.inj_succ, IH2.
    change (Zpos (Pos.iter xO m d)~0) with (2 * Zpos (Pos.iter xO m d)).
    rewrite IH1, Z.pow_succ_r by lia. split; lia.
Qed.

(** Aligning keeps the value, so the order of magnitude. *)
Lemma shl_align_spec mx ex ex' :
  let '(mz, ez) := shl_align mx ex ex' in
  ez <= ex /\ ez = Z.min ex ex' /\
  Zpos mz = Zpos mx * 2 ^ (ex - ez) /\
  Zpos (digits2_pos mz) + ez = Zpos (digits2_pos mx) + ex.
Proof.
  unfold shl_align. destruct (ex' - ex) as [|p|p] eqn:E.
  - replace (ex - ex) with 0 by lia. simpl. lia.
  - replace (ex - ex) with 0 by lia. simpl. lia.
  - destruct (iter_xO_spec mx p) as (H1 & H2).
    replace (ex - ex') with (Zpos p) by lia. rewrite H1, H2. lia.
Qed.

Lemma binary_round_below sx p e B :
  Zpos (digits2_pos p) + e <= B -> -1021 <= B <= 970 ->
  below (B + 1) (binary_round 53 1024 sx p e).
Proof.
  intros HB HBr. unfold binary_round.
  pose proof (shl_align_spec p e (fexp 53 1024 (Zpos (digits2_pos p) + e))) as H.
  destruct (shl_align p e (fexp 53 1024 (Zpos (digits2_pos p) + e))) as [mz ez].
  destruct H as (_ & _ & _ & Hd).
  apply round_aux_below; [lia| |exact HBr]. simpl Zdigits2. lia.
Qed.

Lemma binary_normalize_below s e k B :
  0 <= k -> Z.abs s < 2 ^ k -> k + e <= B -> -1021 <= B <= 970 ->
  below (B + 1) (binary_normalize 53 1024 s e false).
Proof.
  intros Hk Hs HB HBr.
  destruct s as [|p|p]; [exact I| |]; simpl binary_normalize;
    apply binary_round_below; try exact HBr;
    (assert (Zdigits2 (Zpos p) <= k) by (apply Zdigits2_le; simpl in Hs; lia));
    simpl Zdigits2 in *; lia.
Qed.

Lemma of_Z_below n : Z.abs n <= 2 ^ 53 -> below 55 (of_Z n).
Proof.
  intros Hn. unfold of_Z, prec, emax.
  apply (binary_normalize_below n 0 54 54); lia.
Qed.

Lemma aligned_lt mx ex ez :
  ez <= ex ->
  Zpos (fst (shl_align mx ex ez)) < 2 ^ (Zpos (digits2_pos mx) + ex - ez).
Proof.
  intros Hle. pose proof (shl_align_spec mx ex ez) as H.
  destruct (shl_align mx ex ez) as [mz ez']. simpl fst.
  destruct H as (_ & He & Hm & _).
  assert (He' : ez' = ez) by lia. rewrite Hm, He'. clear He Hm He'.
  replace (Zpos (digits2_pos mx) + ex - ez) with (Zpos (digits2_pos mx) + (ex - ez)) by lia.
  rewrite Z.pow_add_r by lia.
  apply Zmult_lt_compat_r; [apply Z.pow_pos_nonneg; lia|].
  apply digits2_bounds.
Qed.

(** The sum or difference of two aligned mantissas. *)
Lemma aligned_sum_below mx ex my ey (s : Z) Bx By :
  Zpos (digits2_pos mx) + ex <= Bx -> Zpos (digits2_pos my) + ey <= By ->
  Z.abs s <= Zpos (fst (shl_align mx ex (Z.min ex ey)))
             + Zpos (fst (shl_align my ey (Z.min ex ey))) ->
  -1021 <= Z.max Bx By + 1 <= 970 ->
  below (Z.max Bx By + 2) (binary_normalize 53 1024 s (Z.min ex ey) false).
Proof.
  intros Hx Hy Hs HB.
  pose proof (aligned_lt mx ex (Z.min ex ey) (Z.le_min_l _ _)) as Ha.
  pose proof (aligned_lt my ey (Z.min ex ey) (Z.le_min_r _ _)) as Hb.
  set (ez := Z.min ex ey) in *.
  set (M := Z.max (Zpos (digits2_pos mx) + ex) (Zpos (digits2_pos my) + ey)).
  assert (Hpa : 2 ^ (Zpos (digits2_pos mx) + ex - ez) <= 2 ^ (M - ez))
    by (apply Z.pow_le_mono_r; lia).
  assert (Hpb : 2 ^ (Zpos (digits2_pos my) + ey - ez) <= 2 ^ (M - ez))
    by (apply Z.pow_le_mono_r; lia).
  replace (Z.max Bx By + 2) with (Z.max Bx By + 1 + 1) by lia.
  apply binary_normalize_below with (k := M - ez + 1); try lia.
  rewrite Z.pow_add_r by lia. change (2 ^ 1) with 2. lia.
Qed.

Lemma cond_Zopp_sum_abs sx sy a b :
  0 <= a -> 0 <= b ->
  Z.abs (cond_Zopp sx a + cond_Zopp sy b) <= a + b /\
  Z.abs (cond_Zopp sx a - cond_Zopp sy b) <= a + b.
Proof. intros Ha Hb. destruct sx, sy; simpl; lia. Qed.

Lemma add_below Bx By x y :
  below Bx x -> below By y -> -1021 <= Z.max Bx By + 1 <= 970 ->
  below (Z.max Bx By + 2) (add x y).
Proof.
  intros Hx Hy HB.
  destruct x as [sx|sx| |sx mx ex]; try easy;
    destruct y as [sy|sy| |sy my ey]; try easy.
  - destruct sx, sy; exact I.
  - eapply below_mono; [|exact Hy]. lia.
  - eapply below_mono; [|exact Hx]. lia.
  - unfold below in Hx, Hy. unfold add, SFadd.
    apply (aligned_sum_below mx ex my ey _ Bx By); auto.
    apply cond_Zopp_sum_abs; lia.
Qed.

Lemma sub_below Bx By x y :
  below Bx x -> below By y -> -1021 <= Z.max Bx By + 1 <= 970 ->
  below (Z.max Bx By + 2) (sub x y).
Proof.
  intros Hx Hy HB.
  destruct x as [sx|sx| |sx mx ex]; try easy;
    destruct y as [sy|sy| |sy my ey]; try easy.
  - destruct sx, sy; exact I.
  - unfold below in *. unfold sub, SFsub. lia.
  - eapply below_mono; [|exact Hx]. lia.
  - unfold below in Hx, Hy. unfold sub, SFsub.
    apply (aligned_sum_below mx ex my ey _ Bx By); auto.
    apply cond_Zopp_sum_abs; lia.
Qed.

(** The quotient of the division, before rounding. *)
Lemma div_core_below mx ex my ey :
  let '(q, e', l) := SFdiv_core_binary 53 1024 (Zpos mx) ex (Zpos my) ey in
  0 <= q /\
  Zdigits2 q + e'
    <= Z.max (Zpos (digits2_pos mx) + ex - (Zpos (digits2_pos my) + ey) + 1) (-1074).
Proof.
  unfold SFdiv_core_binary, fexp, emin. change (3 - 1024 - 53) with (-1074).
  simpl Zdigits2.
  pose proof (digits2_bounds mx) as Hx. pose proof (digits2_bounds my) as Hy.
  set (dx := Zpos (digits2_pos mx)) in *. set (dy := Zpos (digits2_pos my)) in *.
  set (e' := Z.min (Z.max (dx + ex - (dy + ey) - 53) (-1074)) (ex - ey)).
  set (s := ex - ey - e').
  assert (Hs : 0 <= s) by (unfold s, e'; lia).
  set (m' := match s with
             | 0 => Zpos mx
             | Zpos _ => Z.shiftl (Zpos mx) s
             | Zneg _ => 0
             end).
  assert (Hm' : m' = Zpos mx * 2 ^ s).
  { unfold m'. destruct s as [|p|p] eqn:Es; [simpl; lia| |lia].
    apply Z.shiftl_mul_pow2. lia. }
  assert (Hq : fst (Z.div_eucl m' (Zpos my)) = m' / Zpos my) by reflexivity.
  destruct (Z.div_eucl m' (Zpos my)) as [q r]. simpl fst in Hq. subst q.
  assert (Hm0 : 0 <= m') by (rewrite Hm'; apply Z.mul_nonneg_nonneg; [lia|apply Z.pow_nonneg; lia]).
  assert (Hq0 : 0 <= m' / Zpos my) by (apply Z.div_pos; lia).
  split; [exact Hq0|].
  assert (Hmul : Zpos my * (m' / Zpos my) <= m') by (apply Z.mul_div_le; lia).
  assert (Hlt : m' < 2 ^ (dx + s)).
  { rewrite Hm', Z.pow_add_r by lia.
    apply Zmult_lt_compat_r; [apply Z.pow_pos_nonneg; lia|apply Hx]. }
  set (q := m' / Zpos my) in *.
  destruct (Z.eq_dec q 0) as [->|Hne].
  - simpl Zdigits2. unfold e'. lia.
  - assert (Hpy : 0 < 2 ^ (dy - 1)) by (apply Z.pow_pos_nonneg; lia).
    assert (Hk : dy - 1 < dx + s).
    { apply pow2_lt_inv; [lia|]. nia. }
    assert (Zdigits2 q <= dx + s - dy + 1); [|unfold s in *; lia].
    apply Zdigits2_le; [lia|]. split; [lia|].
    assert (Hsplit : 2 ^ (dx + s) = 2 ^ (dx + s - dy + 1) * 2 ^ (dy - 1)).
    { rewrite <- Z.pow_add_r by lia. f_equal. lia. }
    rewrite Hsplit in Hlt. nia.
Qed.

Lemma lit_1e_9_value : lit_1e_9 = S754_finite false 4835703278458517 (-82).
Proof. vm_compute. reflexivity. Qed.

Lemma guard_exponent s m e : near_zero (S754_finite s m e) = false -> -82 <= e.
Proof.
  unfold near_zero, ltb, abs, SFabs. rewrite lit_1e_9_value.
  unfold SFltb, SFcompare. destruct (e ?= -82) eqn:E; try discriminate.
  - apply Z.compare_eq in E. lia.
  - rewrite Z.compare_gt_iff in E. lia.
Qed.

Lemma div_below Bx By x y :
  below Bx x -> below By y -> near_zero y = false ->
  -1021 <= Bx + 82 <= 970 ->
  below (Bx + 83) (div x y).
Proof.
  intros Hx Hy Hg HB.
  destruct y as [sy|sy| |sy my ey];
    [exfalso|destruct Hy|destruct Hy|].
  { destruct sy; [assert (near_zero (S754_zero true) = true) by (vm_compute; reflexivity)
                 |assert (near_zero (S754_zero false) = true) by (vm_compute; reflexivity)];
    congruence. }
  destruct x as [sx|sx| |sx mx ex];
    [exact I|destruct Hx|destruct Hx|].
  apply guard_exponent in Hg.
  unfold below in Hx. unfold div, SFdiv.
  pose proof (div_core_below mx ex my ey) as Hc.
  destruct (SFdiv_core_binary prec emax (Zpos mx) ex (Zpos my) ey) as [[q e'] l] eqn:E.
  unfold prec, emax in E. rewrite E in Hc. destruct Hc as (Hq & Hd).
  replace (Bx + 83) with (Bx + 82 + 1) by lia.
  apply round_aux_below; [exact Hq| |exact HB].
  pose proof (digits2_bounds my). lia.
Qed.

Lemma mag_leaves t : mag t = 139 * Z.of_nat (List.length (leaves t)) - 84.
Proof.
  induction t as [n|o l IHl r IHr]; [reflexivity|].
  cbn [mag leaves]. rewrite length_app, Nat2Z.inj_add. lia.
Qed.

Lemma mag_min t : 55 <= mag t.
Proof. induction t as [n|o l IHl r IHr]; cbn [mag]; lia. Qed.

Lemma apply_op_below o x y Bx By :
  below Bx x -> below By y -> 55 <= Bx -> 55 <= By -> Bx + By + 84 <= 970 ->
  (o = Div -> near_zero y = false) ->
  below (Bx + By + 84) (apply_op o x y).
Proof.
  intros Hx Hy H1 H2 H3 Hg. destruct o; cbn [apply_op].
  - apply below_mono with (Z.max Bx By + 2); [lia|]. apply add_below; auto. lia.
  - apply below_mono with (Z.max Bx By + 2); [lia|]. apply sub_below; auto. lia.
  - apply below_mono with (Bx + By + 1); [lia|]. apply mul_below; auto. lia.
  - apply below_mono with (Bx + 83); [lia|]. apply div_below with By; auto. lia.
Qed.

Lemma guarded_finite t :
  Forall (fun d => near_zero (eval d) = false) (divisors t) ->
  Forall (fun n => Z.abs n <= 2 ^ 53) (leaves t) ->
  mag t <= 970 ->
  below (mag t) (eval t) /\
  Forall (fun d => is_finite (eval d) = true) (subexprs t).
Proof.
  induction t as [n|o l IHl r IHr]; intros Hg Hn Hm.
  - cbn [leaves] in Hn. inversion Hn as [|? ? Hb _]; subst.
    pose proof (of_Z_below n Hb) as Hz. cbn [mag eval subexprs].
    split; [exact Hz|]. constructor; [|constructor].
    cbn [eval]. now apply below_finite with 55.
  - cbn [divisors] in Hg. cbn [leaves] in Hn. cbn [mag] in Hm.
    apply Forall_app in Hg as (Hd & Hg). apply Forall_app in Hg as (Hgl & Hgr).
    apply Forall_app in Hn as (Hnl & Hnr).
    pose proof (mag_min l). pose proof (mag_min r).
    destruct (IHl Hgl Hnl) as (Bl & Fl); [lia|].
    destruct (IHr Hgr Hnr) as (Br & Fr); [lia|].
    assert (Hb : below (mag (Bin o l r)) (eval (Bin o l r))).
    { cbn [mag eval]. apply apply_op_below; auto.
      intros ->. now inversion Hd. }
    split; [exact Hb|]. cbn [subexprs]. constructor.
    + eapply below_finite; exact Hb.
    + apply Forall_app. now split.
Qed.

Lemma small_inputs_finite nums t :
  Forall (fun n => Z.abs n <= 2 ^ 53) nums -> (List.length nums <= 7)%nat ->
  Permutation (leaves t) nums ->
  Forall (fun d => near_zero (eval d) = false) (divisors t) ->
  Forall (fun d => is_finite (eval d) = true) (subexprs t).
Proof.
  intros Hn Hlen Hp Hg. apply guarded_finite; [exact Hg| |].
  - apply Forall_forall. intros n Hin. rewrite Forall_forall in Hn.
    apply Hn. eapply Permutation_in; eauto.
  - rewrite mag_leaves, (Permutation_length Hp). lia.
Qed.

End Magnitude.

(** ** The sampled digits *)

Lemma of_Z_9 : of_Z 9 = S754_finite false 5066549580791808 (-49).
Proof. reflexivity. Qed.

Lemma of_Z_1 : of_Z 1 = S754_finite false 4503599627370496 (-52).
Proof. reflexivity. Qed.

Lemma floor_below_nine y :
  below_nine y -> exists q, (0 <= q <= 8)%Z /\ floor y = of_Z q.
Proof.
  intros [->|(m2 & e2 & -> & He & Hm)].
  - exists 0%Z. split; [lia|reflexivity].
  - exists (Zpos m2 / 2 ^ (- e2))%Z. split.
    + split; [apply Z.div_pos; [lia|apply Z.pow_pos_nonneg; lia]|].
      assert (Zpos m2 / 2 ^ (- e2) < 9)%Z; [|lia].
      apply Z.div_lt_upper_bound; [apply Z.pow_pos_nonneg; lia|lia].
    + unfold floor. replace (0 <=? e2)%Z with false; [reflexivity|].
      symmetry. apply Z.leb_gt. exact He.
Qed.

Lemma add_one_digit q :
  (0 <= q <= 8)%Z -> to_Z (add (of_Z q) (of_Z 1)) = (q + 1)%Z.
Proof.
  intros Hq.
  assert (H : (q = 0 \/ q = 1 \/ q = 2 \/ q = 3 \/ q = 4 \/
               q = 5 \/ q = 6 \/ q = 7 \/ q = 8)%Z) by lia.
  destruct H as [->|[->|[->|[->|[->|[->|[->|[->| ->]]]]]]]]; vm_compute; reflexivity.
Qed.

(** Every digit drawn is between one and nine. *)
Lemma sample_range r : in_unit r = true -> (1 <= sample r <= 9)%Z.
Proof.
  unfold in_unit. intros H.
  apply andb_true_iff in H as (H & Hlt). apply andb_true_iff in H as (Hv & Hle).
  destruct r as [s|s| |s m e].
  - destruct s; vm_compute; split; discriminate.
  - destruct s; [vm_compute in Hle; discriminate Hle|vm_compute in Hlt; discriminate Hlt].
  - vm_compute in Hle. discriminate Hle.
  - destruct s; [discriminate Hle|].
    rewrite of_Z_1 in Hlt.
    pose proof (mul_nine_bound m e Hv Hlt) as Hb.
    apply floor_below_nine in Hb as (q & Hq & Hf).
    unfold sample. rewrite of_Z_9. unfold mul, prec, emax. rewrite Hf.
    rewrite add_one_digit by exact Hq. lia.
Qed.

Lemma findSolution_evaluates nums mode s :
  findSolution nums mode = Ret (Some s) ->
  exists v, evalString s = Some v /\ near24 v = true.
Proof.
  intros H.
  destruct (findSolution_tree (fun _ => True) nums mode s) as (t & <- & Hv & _ & _);
    auto.
  exists (eval t). unfold evalString. rewrite parse_render. auto.
Qed.

Lemma generateSolvablePuzzle_S random sort_coin fuel mode k :
  generateSolvablePuzzle random sort_coin (S fuel) mode k =
  solution <- findSolution (map (fun i => sample (random (k + i)%nat)) (seq 0 4)) mode ;;
  match solution with
  | Some (String c s) =>
      let (shuffled, k') :=
        shuffle sort_coin (map (fun i => sample (random (k + i)%nat)) (seq 0 4))
          (k + 4)%nat in
      Ret ({| nums := shuffled; hints := []; solution := String c s |}, k')
  | Some EmptyString | None =>
      generateSolvablePuzzle random sort_coin fuel mode (k + 4)%nat
  end.
Proof. reflexivity. Qed.

(** A returned puzzle carries the solution found for some sample, and the
    sorted copy of that sample. *)
Lemma generate_returns random sort_coin fuel mode k p k' :
  generateSolvablePuzzle random sort_coin fuel mode k = Ret (p, k') ->
  exists j,
    findSolution (map (fun i => sample (random (j + i)%nat)) (seq 0 4)) mode
      = Ret (Some (solution p)) /\
    nums p = fst (sort_coin (map (fun i => sample (random (j + i)%nat)) (seq 0 4))
                    (j + 4)%nat) /\
    hints p = [].
Proof.
  revert k. induction fuel as [|fuel IH]; intros k; [discriminate|].
  rewrite generateSolvablePuzzle_S.
  set (sampled := map (fun i => sample (random (k + i)%nat)) (seq 0 4)).
  destruct (findSolution sampled mode) as [[[|c s]|]| |] eqn:Hfound;
    simpl bind; try discriminate; try apply IH.
  unfold shuffle.
  destruct (sort_coin sampled (k + 4)%nat) as [shuffled k2] eqn:Hsort.
  intros H. inversion H; subst p k'. clear H.
  exists k. fold sampled. rewrite Hsort. repeat split. exact Hfound.
Qed.

(** NaN is absorbing: an expression with a NaN sub-expression is NaN. *)
Lemma apply_op_nan_l o b : apply_op o S754_nan b = S754_nan.
Proof. destruct o; reflexivity. Qed.

Lemma apply_op_nan_r o a : apply_op o a S754_nan = S754_nan.
Proof. destruct o; destruct a; reflexivity. Qed.

Lemma eval_nan_absorbing t d :
  In d (subexprs t) -> eval d = S754_nan -> eval t = S754_nan.
Proof.
  induction t as [n|o l IHl r IHr]; simpl; intros [<-|H] Hd; auto; try easy.
  apply in_app_or in H as [H|H].
  - rewrite (IHl H Hd). apply apply_op_nan_l.
  - rewrite (IHr H Hd). apply apply_op_nan_r.
Qed.

(** * Further properties *)

(** ** Expressions and derivations *)

Lemma calc_permitted mode o a b :
  permitted mode o (val b) ->
  exists op result,
    In op ops /\ enabled mode op = true /\ calc op a b = Some result /\
    val result = apply_op o (val a) (val b) /\
    expr result = ("(" ++ expr a ++ String (op_symbol o) (expr b ++ ")"))%string.
Proof.
  intros Hper. unfold ops. destruct o.
  - eexists; eexists. split; [left; reflexivity|].
    split; [destruct mode; reflexivity|]. repeat split.
  - eexists; eexists. split; [right; left; reflexivity|].
    split; [destruct mode; reflexivity|]. repeat split.
  - eexists; eexists. split; [right; right; left; reflexivity|].
    split; [destruct mode; reflexivity|]. repeat split.
  - destruct (Hper eq_refl) as (-> & Hg).
    eexists; eexists. split; [right; right; right; left; reflexivity|].
    split; [reflexivity|]. cbn [calc]. rewrite Hg. repeat split.
Qed.

Lemma rest_of_front {A : Type} (x y : A) l : rest_of 1 0 (x :: y :: l) = l.
Proof.
  unfold rest_of, filter_idx. cbn [filter_from Nat.eqb negb andb].
  apply filter_from_all. intros idx Hle.
  destruct idx as [|[|idx]]; [lia|lia|reflexivity].
Qed.

(** An expression whose combinations are permitted can be derived from the
    seeds of its literals, whatever else the pool holds. *)
Lemma buildable_derives mode t :
  buildable mode t ->
  forall others, exists xt,
    denotes t xt /\
    forall x, derives mode (xt :: others) x ->
              derives mode (seeds (leaves t) ++ others) x.
Proof.
  induction t as [n|o l IHl r IHr]; intros Hb others.
  - exists {| val := of_Z n; expr := toString n |}. split; [split; reflexivity|].
    intros x Hx. exact Hx.
  - destruct Hb as (Hper & Hl & Hr).
    destruct (IHl Hl (seeds (leaves r) ++ others)) as (xl & (Hle & Hlv) & Hdl).
    destruct (IHr Hr (xl :: others)) as (xr & (Hre & Hrv) & Hdr).
    rewrite Hrv in Hper.
    destruct (calc_permitted mode o xl xr Hper)
      as (op & result & Hin & Hen & Hc & Hv & He).
    exists result. split.
    + split; cbn [render eval]; congruence.
    + intros x Hx. cbn [leaves]. unfold seeds. rewrite map_app, <- app_assoc.
      apply Hdl.
      apply derives_perm with (seeds (leaves r) ++ xl :: others);
        [|symmetry; apply Permutation_middle].
      apply Hdr.
      apply derives_step with (rest_of 1 0 (xr :: xl :: others) ++ [result]).
      * simpl. lia.
      * apply step_intro with (a := xl) (b := xr) (op := op); auto.
      * rewrite rest_of_front.
        apply derives_perm with (result :: others); [exact Hx|].
        apply Permutation_cons_append.
Qed.

Lemma buildable_tree mode t :
  buildable mode t -> near24 (eval t) = true -> solvable mode (seeds (leaves t)).
Proof.
  intros Hb Hv. destruct (buildable_derives mode t Hb []) as (xt & (_ & Hxv) & Hd).
  exists xt. split.
  - rewrite app_nil_r in Hd. apply Hd. constructor.
  - now rewrite <- Hxv.
Qed.

Lemma buildable_hard t : buildable easy t -> buildable hard t.
Proof.
  induction t as [n|o l IHl r IHr]; [trivial|].
  intros (Hper & Hl & Hr). split; [|split; auto].
  intros ->. destruct (Hper eq_refl) as (Hm & _). discriminate Hm.
Qed.

Lemma found_buildable nums mode s :
  findSolution nums mode = Ret (Some s) ->
  exists t, render t = s /\ Permutation (leaves t) nums /\ buildable mode t /\
            near24 (eval t) = true.
Proof.
  intros H.
  destruct (findSolution_tree (buildable mode) nums mode s) as (t & Hs & Hv & Hb & Hl).
  - intros n. exact I.
  - intros o l r Hl Hr Hper. split; [exact Hper|split; assumption].
  - exact H.
  - exists t. auto.
Qed.

Lemma buildable_found nums mode t :
  Permutation (leaves t) nums -> buildable mode t -> near24 (eval t) = true ->
  exists s, findSolution nums mode = Ret (Some s).
Proof.
  intros Hl Hb Hv. apply findSolution_solvable.
  apply solvable_perm with (seeds (leaves t)); [now apply seeds_perm|].
  now apply buildable_tree.
Qed.

(** ** The order of the search *)

Lemma first_found_app rec p1 p2 :
  first_found rec (p1 ++ p2)
  = match first_found rec p1 with
    | Ret None => first_found rec p2
    | r => r
    end.
Proof.
  induction p1 as [|p p1 IH]; [reflexivity|].
  cbn [app first_found]. destruct (rec p) as [found| |]; try reflexivity.
  destruct found as [[|c s]|]; cbn [truthy]; auto.
Qed.

Lemma for_of_first_found {A : Type} rec (g : A -> list (list ExprNode)) l :
  for_of l (fun x => first_found rec (g x)) = first_found rec (flat_map g l).
Proof.
  induction l as [|x l IH]; [reflexivity|].
  cbn [for_of flat_map]. rewrite first_found_app, IH.
  now destruct (first_found rec (g x)) as [[s|]| |].
Qed.

Lemma attempt_first_found rec mode arr i j op :
  (i < List.length arr)%nat -> (j < List.length arr)%nat ->
  attempt rec mode arr i j op
  = first_found rec
      (if enabled mode op then
         match nth_error arr i, nth_error arr j with
         | Some a, Some b =>
             match calc op a b with
             | Some result => [rest_of i j arr ++ [result]]
             | None => []
             end
         | _, _ => []
         end
       else []).
Proof.
  intros Hi Hj. unfold attempt, enabled.
  destruct (Mode_eqb mode easy && String.eqb (symbol op) "/"); [reflexivity|].
  cbn [negb]. unfold get.
  destruct (get_in_range arr i Hi) as (a & ->).
  destruct (get_in_range arr j Hj) as (b & ->). cbn [bind].
  destruct (calc op a b) as [result|]; [|reflexivity].
  cbn [first_found].
  destruct (rec (rest_of i j arr ++ [result])) as [found| |]; try reflexivity.
  cbn [bind]. now destruct (truthy found).
Qed.

Lemma search_body_first_found rec mode arr :
  List.length arr <> 1%nat ->
  search_body rec mode arr = first_found rec (subpools mode arr).
Proof.
  intros Hlen. unfold search_body, subpools.
  apply Nat.eqb_neq in Hlen. rewrite Hlen.
  rewrite <- for_of_first_found. apply for_of_ext. intros i Hi.
  rewrite <- for_of_first_found. apply for_of_ext. intros j Hj.
  destruct (Nat.eqb i j); [reflexivity|].
  rewrite <- for_of_first_found. apply for_of_ext. intros op _.
  apply in_seq in Hi. apply in_seq in Hj.
  apply attempt_first_found; lia.
Qed.

(** ** Exact integer arithmetic *)

Section Exactness.

Local Open Scope Z_scope.

Lemma Zdigits2_unique x d :
  0 < d -> 2 ^ (d - 1) <= x < 2 ^ d -> Zdigits2 x = d.
Proof.
  intros Hd Hx.
  assert (Hpos : 0 < x).
  { apply Z.lt_le_trans with (2 ^ (d - 1)); [apply Z.pow_pos_nonneg; lia|lia]. }
  destruct x as [|p|p]; try lia. simpl.
  pose proof (digits2_bounds p) as Hp.
  set (dp := Zpos (digits2_pos p)) in *.
  assert (dp - 1 < d) by (apply pow2_lt_inv; lia).
  assert (d - 1 < dp) by (apply pow2_lt_inv; lia).
  lia.
Qed.

Lemma shr_1_double m :
  0 <= m ->
  shr_1 (Build_shr_record (2 * m) false false) = Build_shr_record m false false.
Proof. intros Hm. destruct m as [|p|p]; [reflexivity|reflexivity|lia]. Qed.

Lemma shr_iter_double n m :
  0 <= m ->
  Nat.iter n shr_1 (Build_shr_record (m * 2 ^ Z.of_nat n) false false)
  = Build_shr_record m false false.
Proof.
  intros Hm. revert m Hm. induction n as [|n IH]; intros m Hm.
  - simpl. now rewrite Z.mul_1_r.
  - rewrite Nat.iter_succ, Nat2Z.inj_succ, Z.pow_succ_r by lia.
    replace (m * (2 * 2 ^ Z.of_nat n)) with (2 * m * 2 ^ Z.of_nat n) by lia.
    rewrite IH by lia. now apply shr_1_double.
Qed.

(** Shifting out zero bits is exact. *)
Lemma shr_fexp_double m n e :
  0 < m -> 0 <= n -> Zdigits2 m = 53 -> -1074 <= e + n ->
  shr_fexp 53 1024 (m * 2 ^ n) e loc_Exact = (Build_shr_record m false false, e + n).
Proof.
  intros Hm Hn Hd He.
  assert (Hdn : Zdigits2 (m * 2 ^ n) = 53 + n).
  { pose proof (Zdigits2_gt m (Z.lt_le_incl _ _ Hm)) as Hlt. rewrite Hd in Hlt.
    assert (Hge : 2 ^ 52 <= m).
    { destruct m as [|p|p]; try lia. simpl in Hd.
      pose proof (digits2_bounds p) as Hp. rewrite Hd in Hp. apply Hp. }
    assert (Hpn : 0 < 2 ^ n) by (apply Z.pow_pos_nonneg; lia).
    apply Zdigits2_unique; [lia|].
    replace (53 + n - 1) with (52 + n) by lia.
    rewrite !Z.pow_add_r by lia. split; nia. }
  unfold shr_fexp, fexp, emin. rewrite Hdn. change (3 - 1024 - 53) with (-1074).
  replace (Z.max (53 + n + e - 53) (-1074) - e) with n by lia.
  simpl shr_record_of_loc.
  destruct n as [|p|p]; [|clear Hn|lia].
  - simpl. rewrite Z.mul_1_r. f_equal. lia.
  - unfold shr. rewrite iter_pos_nat.
    rewrite <- (positive_nat_Z p) at 1.
    rewrite shr_iter_double by lia. reflexivity.
Qed.

Lemma round_aux_exact sx v k :
  0 < v < 2 ^ 53 -> 0 <= k -> 53 <= Zdigits2 v + k ->
  int_float (cond_Zopp sx v) (binary_round_aux 53 1024 sx (v * 2 ^ k) (- k) loc_Exact).
Proof.
  intros Hv Hk Hd.
  pose proof (Zdigits2_gt v ltac:(lia)) as Hlt.
  assert (Hdv : 0 < Zdigits2 v <= 53).
  { split; [destruct v; simpl; lia|apply Zdigits2_le; lia]. }
  assert (Hge : 2 ^ (Zdigits2 v - 1) <= v).
  { destruct v as [|p|p]; try lia. simpl. apply digits2_bounds. }
  set (d := Zdigits2 v) in *.
  set (n := d + k - 53).
  set (m := v * 2 ^ (53 - d)).
  assert (Hp : 0 < 2 ^ (53 - d)) by (apply Z.pow_pos_nonneg; lia).
  assert (Hm : 0 < m) by (unfold m; nia).
  assert (Hm53 : Zdigits2 m = 53).
  { apply Zdigits2_unique; [lia|]. unfold m.
    assert (E1 : 2 ^ (53 - 1) = 2 ^ (d - 1) * 2 ^ (53 - d))
      by (rewrite <- Z.pow_add_r by lia; f_equal; lia).
    assert (E2 : 2 ^ 53 = 2 ^ d * 2 ^ (53 - d))
      by (rewrite <- Z.pow_add_r by lia; f_equal; lia).
    rewrite E1, E2. clear E1 E2 Hv.
    generalize dependent (2 ^ (d - 1)). generalize dependent (2 ^ d).
    generalize dependent (2 ^ (53 - d)). intros; split; nia. }
  assert (Hsplit : v * 2 ^ k = m * 2 ^ n).
  { unfold m, n. rewrite <- Z.mul_assoc, <- Z.pow_add_r by lia. f_equal. f_equal. lia. }
  unfold binary_round_aux. rewrite Hsplit.
  rewrite (shr_fexp_double m n (- k) Hm ltac:(unfold n; lia) Hm53 ltac:(unfold n; lia)).
  cbn [shr_m loc_of_shr_record round_nearest_even].
  replace (- k + n) with (d - 53) by (unfold n; lia).
  replace m with (m * 2 ^ 0) at 1 by (rewrite Z.mul_1_r; reflexivity).
  rewrite (shr_fexp_double m 0 (d - 53) Hm ltac:(lia) Hm53 ltac:(lia)).
  cbn [shr_m]. destruct m as [|p|p] eqn:Em; try lia.
  replace (d - 53 + 0 <=? 1024 - 53) with true by (symmetry; apply Z.leb_le; lia).
  unfold int_float. split; [lia|]. split; [exact Hm53|].
  replace (- (d - 53 + 0)) with (53 - d) by lia.
  destruct sx; simpl cond_Zopp; lia.
Qed.

Lemma cond_Zopp_abs v : cond_Zopp (v <? 0) (Z.abs v) = v.
Proof. destruct (Z.ltb_spec v 0); simpl; lia. Qed.

Lemma normalize_exact v k :
  Z.abs v < 2 ^ 53 -> 0 <= k ->
  int_float v (binary_normalize 53 1024 (v * 2 ^ k) (- k) false).
Proof.
  intros Hv Hk.
  assert (Hp : 0 < 2 ^ k) by (apply Z.pow_pos_nonneg; lia).
  assert (Hgen : forall sx p, Zpos p = Z.abs v * 2 ^ k -> cond_Zopp sx (Z.abs v) = v ->
            int_float v (binary_round 53 1024 sx p (- k))).
  { intros sx p Hpv Hs. unfold binary_round.
    pose proof (shl_align_spec p (- k) (fexp 53 1024 (Zpos (digits2_pos p) + - k))) as H.
    destruct (shl_align p (- k) (fexp 53 1024 (Zpos (digits2_pos p) + - k))) as [mz ez].
    destruct H as (Hez & Hmin & Hmz & Hdz).
    assert (Hv0 : 0 < Z.abs v) by nia.
    assert (Hkp : k < Zpos (digits2_pos p)).
    { apply pow2_lt_inv; [lia|]. pose proof (digits2_bounds p). nia. }
    assert (Hfe : ez <= Zpos (digits2_pos mz) + ez - 53).
    { unfold fexp, emin in *. lia. }
    replace (Zpos mz) with (Z.abs v * 2 ^ (- ez)).
    - replace ez with (- - ez) at 2 by lia. rewrite <- Hs at 1.
      apply round_aux_exact; [lia|lia|].
      assert (Zdigits2 (Z.abs v * 2 ^ (- ez)) <= Zdigits2 (Z.abs v) + - ez); [|].
      { apply Zdigits2_le.
        - pose proof (Zdigits2_nonneg (Z.abs v)). lia.
        - pose proof (Zdigits2_gt (Z.abs v) ltac:(lia)) as Hlt.
          pose proof (Zdigits2_nonneg (Z.abs v)).
          rewrite Z.pow_add_r by lia.
          assert (0 < 2 ^ (- ez)) by (apply Z.pow_pos_nonneg; lia). split; nia. }
      assert (Hz : Zpos mz = Z.abs v * 2 ^ (- ez)).
      { rewrite Hmz, Hpv, <- Z.mul_assoc, <- Z.pow_add_r by lia. f_equal. f_equal. lia. }
      rewrite <- Hz in H. simpl Zdigits2 in H. lia.
    - rewrite Hmz, Hpv, <- Z.mul_assoc, <- Z.pow_add_r by lia. f_equal. f_equal. lia. }
  destruct v as [|p|p].
  - simpl. reflexivity.
  - destruct (Zpos p * 2 ^ k) as [|q|q] eqn:E; try lia.
    cbn [binary_normalize]. apply Hgen; [simpl Z.abs; lia|reflexivity].
  - destruct (Zneg p * 2 ^ k) as [|q|q] eqn:E; try lia.
    cbn [binary_normalize]. apply Hgen; [simpl Z.abs; lia|reflexivity].
Qed.

Lemma of_Z_int v : Z.abs v < 2 ^ 53 -> int_float v (of_Z v).
Proof.
  intros Hv. unfold of_Z, prec, emax.
  replace v with (v * 2 ^ 0) at 2 by (rewrite Z.mul_1_r; reflexivity).
  change 0 with (- 0) at 2. now apply normalize_exact.
Qed.

Lemma cond_Zopp_mul s m c : cond_Zopp s (m * c) = cond_Zopp s m * c.
Proof. destruct s; simpl; lia. Qed.

Lemma aligned_value s m e ez v :
  ez <= e -> e <= 0 -> cond_Zopp s (Zpos m) = v * 2 ^ (- e) ->
  cond_Zopp s (Zpos (fst (shl_align m e ez))) = v * 2 ^ (- ez).
Proof.
  intros Hle He Hv. pose proof (shl_align_spec m e ez) as H.
  destruct (shl_align m e ez) as [mz ez']. destruct H as (_ & Hmin & Hmz & _).
  cbn [fst]. rewrite Hmz, cond_Zopp_mul, Hv, <- Z.mul_assoc, <- Z.pow_add_r by lia.
  f_equal. f_equal. lia.
Qed.

Lemma add_int a b x y :
  int_float a x -> int_float b y -> Z.abs (a + b) < 2 ^ 53 ->
  int_float (a + b) (add x y).
Proof.
  intros Hx Hy Hs.
  destruct x as [sx|sx| |sx mx ex]; try (now destruct Hx);
    destruct y as [sy|sy| |sy my ey]; try (now destruct Hy).
  - cbn in Hx, Hy. subst. destruct sx, sy; reflexivity.
  - cbn in Hx. subst a. exact Hy.
  - cbn in Hy. subst b. now rewrite Z.add_0_r.
  - destruct Hx as (Hex & _ & Hvx). destruct Hy as (Hey & _ & Hvy).
    unfold add, SFadd.
    rewrite (aligned_value sx mx ex (Z.min ex ey) a) by (auto; lia).
    rewrite (aligned_value sy my ey (Z.min ex ey) b) by (auto; lia).
    rewrite <- Z.mul_add_distr_r.
    replace (Z.min ex ey) with (- - Z.min ex ey) at 2 by lia.
    apply normalize_exact; lia.
Qed.

Lemma sub_int a b x y :
  int_float a x -> int_float b y -> Z.abs (a - b) < 2 ^ 53 ->
  int_float (a - b) (sub x y).
Proof.
  intros Hx Hy Hs.
  destruct x as [sx|sx| |sx mx ex]; try (now destruct Hx);
    destruct y as [sy|sy| |sy my ey]; try (now destruct Hy).
  - cbn in Hx, Hy. subst. destruct sx, sy; reflexivity.
  - cbn in Hx. subst a. destruct Hy as (Hey & Hd & Hvy). cbn.
    split; [exact Hey|]. split; [exact Hd|]. destruct sy; simpl in *; lia.
  - cbn in Hy. subst b. now rewrite Z.sub_0_r.
  - destruct Hx as (Hex & _ & Hvx). destruct Hy as (Hey & _ & Hvy).
    unfold sub, SFsub.
    rewrite (aligned_value sx mx ex (Z.min ex ey) a) by (auto; lia).
    rewrite (aligned_value sy my ey (Z.min ex ey) b) by (auto; lia).
    rewrite <- Z.mul_sub_distr_r.
    replace (Z.min ex ey) with (- - Z.min ex ey) at 2 by lia.
    apply normalize_exact; lia.
Qed.

Lemma mul_int a b x y :
  int_float a x -> int_float b y -> Z.abs (a * b) < 2 ^ 53 ->
  int_float (a * b) (mul x y).
Proof.
  intros Hx Hy Hs.
  destruct x as [sx|sx| |sx mx ex]; try (now destruct Hx);
    destruct y as [sy|sy| |sy my ey]; try (now destruct Hy).
  - cbn in Hx, Hy. subst. reflexivity.
  - cbn in Hx. subst a. reflexivity.
  - cbn in Hy. subst b. cbn. lia.
  - destruct Hx as (Hex & Hdx & Hvx). destruct Hy as (Hey & Hdy & Hvy).
    unfold mul, SFmul.
    assert (Hpx : 0 < 2 ^ (- ex)) by (apply Z.pow_pos_nonneg; lia).
    assert (Hpy : 0 < 2 ^ (- ey)) by (apply Z.pow_pos_nonneg; lia).
    assert (Hax : Zpos mx = Z.abs a * 2 ^ (- ex)) by (destruct sx; simpl in Hvx; nia).
    assert (Hay : Zpos my = Z.abs b * 2 ^ (- ey)) by (destruct sy; simpl in Hvy; nia).
    assert (Hprod : Zpos (mx * my) = Z.abs (a * b) * 2 ^ (- (ex + ey))).
    { rewrite Pos2Z.inj_mul, Hax, Hay, Z.abs_mul.
      replace (- (ex + ey)) with (- ex + - ey) by lia.
      rewrite Z.pow_add_r by lia. ring. }
    assert (Hsign : cond_Zopp (xorb sx sy) (Z.abs (a * b)) = a * b).
    { rewrite Z.abs_mul. destruct sx, sy; simpl in *; nia. }
    assert (Hab : 0 < Z.abs (a * b)) by (rewrite Z.abs_mul; nia).
    rewrite Hprod.
    assert (Hk : 53 <= Zdigits2 (Z.abs (a * b)) + - (ex + ey)).
    2:{ pose proof (round_aux_exact (xorb sx sy) (Z.abs (a * b)) (- (ex + ey))
                      ltac:(lia) ltac:(lia) Hk) as Hgoal.
        rewrite Z.opp_involutive, Hsign in Hgoal. exact Hgoal. }
    pose proof (Zdigits2_gt (Z.abs (a * b)) ltac:(lia)) as Hlt.
    pose proof (Zdigits2_nonneg (Z.abs (a * b))) as Hnn.
    pose proof (digits2_bounds mx) as Hbx. pose proof (digits2_bounds my) as Hby.
    rewrite Hdx in Hbx. rewrite Hdy in Hby.
    assert (H104 : 2 ^ 104 <= Zpos (mx * my)).
    { rewrite Pos2Z.inj_mul. change (2 ^ 104) with (2 ^ (53 - 1) * 2 ^ (53 - 1)). nia. }
    assert (104 < Zdigits2 (Z.abs (a * b)) + - (ex + ey)); [|lia].
    apply pow2_lt_inv; [lia|].
    rewrite Z.pow_add_r by lia.
    assert (0 < 2 ^ (- (ex + ey))) by (apply Z.pow_pos_nonneg; lia).
    nia.
Qed.

Lemma lit_1e_6_value : lit_1e_6 = S754_finite false 4722366482869645 (-72).
Proof. vm_compute. reflexivity. Qed.

(** On an integer the test against 24 is an equality. *)
Lemma near24_int v x :
  int_float v x -> Z.abs (v - 24) < 2 ^ 53 -> (near24 x = true <-> v = 24).
Proof.
  intros Hx Hb.
  assert (H24 : int_float 24 (of_Z 24)) by (apply of_Z_int; simpl; lia).
  pose proof (sub_int v 24 x (of_Z 24) Hx H24 Hb) as Hd.
  unfold near24. rewrite lit_1e_6_value.
  destruct (sub x (of_Z 24)) as [s|s| |s m e]; try (now destruct Hd).
  - cbn in Hd. split; [lia|reflexivity].
  - destruct Hd as (He & Hm & Hv).
    split; [|intros ->; rewrite Z.sub_diag, Z.mul_0_l in Hv; destruct s; discriminate Hv].
    unfold abs, SFabs, ltb, SFltb, SFcompare.
    pose proof (digits2_bounds m) as Hbm. rewrite Hm in Hbm.
    assert (Hp : 0 < 2 ^ (- e)) by (apply Z.pow_pos_nonneg; lia).
    assert (- e < 53).
    { apply pow2_lt_inv; [lia|]. change (2 ^ (53 - 1)) with (2 ^ 52) in Hbm.
      generalize dependent (2 ^ (- e)). intros P HP HvP.
      destruct s; simpl in HP.
      - assert (v - 24 <= -1) by nia. nia.
      - assert (1 <= v - 24) by nia. nia. }
    destruct (e ?= -72) eqn:E.
    + apply Z.compare_eq in E. lia.
    + rewrite Z.compare_lt_iff in E. lia.
    + discriminate.
Qed.

Lemma span_app l1 l2 : span (l1 ++ l2) = span l1 * span l2.
Proof.
  induction l1 as [|n l1 IH]; simpl; [now destruct (span l2)|].
  unfold span in *. simpl. rewrite IH. ring.
Qed.

Lemma span_pos l : 1 <= span l.
Proof. induction l as [|n l IH]; simpl; [lia|]. unfold span in *. simpl. nia. Qed.

Lemma span_big l : l <> [] -> 2 <= span l.
Proof.
  destruct l as [|n l]; [congruence|]. intros _.
  pose proof (span_pos l). unfold span in *. simpl. nia.
Qed.

Lemma span_perm l l' : Permutation l l' -> span l = span l'.
Proof.
  induction 1 as [|n l l' _ IH|n m l|l l' l'' _ IH1 _ IH2]; unfold span in *; simpl.
  - reflexivity.
  - now rewrite IH.
  - ring.
  - congruence.
Qed.

Lemma leaves_not_nil t : leaves t <> [].
Proof.
  pose proof (leaves_nonempty t) as H. destruct (leaves t); [simpl in H; lia|discriminate].
Qed.

Lemma int_value_bound t v : int_value t = Some v -> Z.abs v <= span (leaves t).
Proof.
  revert v. induction t as [n|o l IHl r IHr]; intros v H.
  - inversion H; subst. unfold span. simpl. lia.
  - cbn [int_value] in H. cbn [leaves]. rewrite span_app.
    pose proof (span_big _ (leaves_not_nil l)) as Hl.
    pose proof (span_big _ (leaves_not_nil r)) as Hr.
    destruct (int_value l) as [a|]; [|destruct o; discriminate].
    destruct (int_value r) as [b|]; [|destruct o; discriminate].
    specialize (IHl a eq_refl). specialize (IHr b eq_refl).
    destruct o; inversion H; subst; try nia.
Qed.

Lemma int_value_eval t v :
  int_value t = Some v -> span (leaves t) < 2 ^ 53 -> int_float v (eval t).
Proof.
  revert v. induction t as [n|o l IHl r IHr]; intros v H Hs.
  - inversion H; subst. cbn [eval]. apply of_Z_int.
    unfold span in Hs. simpl in Hs. lia.
  - pose proof (int_value_bound _ _ H) as Hb.
    cbn [int_value] in H. cbn [leaves] in Hs, Hb. rewrite span_app in Hs, Hb.
    pose proof (span_pos (leaves l)) as Hl. pose proof (span_pos (leaves r)) as Hr.
    destruct (int_value l) as [a|]; [|destruct o; discriminate].
    destruct (int_value r) as [b|]; [|destruct o; discriminate].
    assert (Ha : int_float a (eval l)) by (apply IHl; [reflexivity|nia]).
    assert (Hbb : int_float b (eval r)) by (apply IHr; [reflexivity|nia]).
    cbn [eval].
    destruct o; inversion H; subst; cbn [apply_op].
    + apply add_int; auto; lia.
    + apply sub_int; auto; lia.
    + apply mul_int; auto; lia.
Qed.

Lemma int_value_easy t v : int_value t = Some v -> buildable easy t.
Proof.
  revert v. induction t as [n|o l IHl r IHr]; intros v H; [exact I|].
  cbn [int_value] in H.
  destruct (int_value l) as [a|]; [|destruct o; discriminate].
  destruct (int_value r) as [b|]; [|destruct o; discriminate].
  split; [|split; eauto]. intros ->. discriminate H.
Qed.

Lemma easy_int_value t : buildable easy t -> exists v, int_value t = Some v.
Proof.
  induction t as [n|o l IHl r IHr]; [intros _; now exists n|].
  intros (Hper & Hl & Hr).
  destruct (IHl Hl) as (a & Ha). destruct (IHr Hr) as (b & Hb).
  cbn [int_value]. rewrite Ha, Hb.
  destruct o; eauto. destruct (Hper eq_refl) as (Hm & _). discriminate Hm.
Qed.

End Exactness.

(** ** Rounds of the generator *)

Lemma findSolution_nonempty nums mode s :
  findSolution nums mode = Ret (Some s) -> s <> EmptyString.
Proof.
  intros H.
  destruct (findSolution_tree (fun _ => True) nums mode s) as (t & <- & _); auto.
  intros He. pose proof (render_length t) as Hl. rewrite He in Hl. simpl in Hl. lia.
Qed.

Section Rounds.

Variable random : nat -> float64.

Variable sort_coin : list Z -> nat -> list Z * nat.

Lemma generate_rejects fuel mode k :
  findSolution (drawn random k) mode = Ret None ->
  generateSolvablePuzzle random sort_coin (S fuel) mode k
  = generateSolvablePuzzle random sort_coin fuel mode (k + 4).
Proof. intros H. rewrite generateSolvablePuzzle_S. fold (drawn random k). now rewrite H. Qed.

Lemma generate_accepts fuel mode k s :
  findSolution (drawn random k) mode = Ret (Some s) ->
  generateSolvablePuzzle random sort_coin (S fuel) mode k
  = Ret ({| nums := fst (sort_coin (drawn random k) (k + 4));
            hints := [];
            solution := s |},
         snd (sort_coin (drawn random k) (k + 4))).
Proof.
  intros H. rewrite generateSolvablePuzzle_S. fold (drawn random k). rewrite H.
  pose proof (findSolution_nonempty _ _ _ H) as Hne.
  destruct s as [|c s]; [congruence|]. cbn [bind]. unfold shuffle.
  now destruct (sort_coin (drawn random k) (k + 4)).
Qed.

End Rounds.

(** ** The sanitiser *)

Lemma all_chars_app p s1 s2 :
  all_chars p (s1 ++ s2)%string = all_chars p s1 && all_chars p s2.
Proof.
  induction s1 as [|c s1 IH]; simpl; [reflexivity|]. now rewrite IH, andb_assoc.
Qed.

Lemma all_chars_weaken (p q : ascii -> bool) s :
  (forall c, p c = true -> q c = true) -> all_chars p s = true -> all_chars q s = true.
Proof.
  intros Hpq. induction s as [|c s IH]; simpl; [reflexivity|].
  intros H. apply andb_true_iff in H as (Hc & Hs). now rewrite (Hpq c Hc), IH.
Qed.

Lemma sanitize_kept s : all_chars kept (sanitize s) = true.
Proof.
  induction s as [|c s IH]; simpl; [reflexivity|].
  destruct (kept c) eqn:Hc; simpl; [now rewrite Hc|exact IH].
Qed.

Lemma sanitize_fixed s : all_chars kept s = true -> sanitize s = s.
Proof.
  induction s as [|c s IH]; simpl; [reflexivity|].
  intros H. apply andb_true_iff in H as (Hc & Hs). now rewrite Hc, IH.
Qed.

Lemma sanitize_app s1 s2 : sanitize (s1 ++ s2) = (sanitize s1 ++ sanitize s2)%string.
Proof.
  induction s1 as [|c s1 IH]; simpl; [reflexivity|].
  destruct (kept c); simpl; now rewrite IH.
Qed.

Lemma toString_kept n : all_chars kept (toString n) = true.
Proof.
  destruct (toString_shape n) as (ds & _ & Hds & ->).
  assert (Hk : all_chars kept ds = true).
  { apply all_chars_weaken with is_digit; [|exact Hds].
    intros c Hc. unfold kept. now rewrite Hc. }
  destruct (n <? 0)%Z; simpl; exact Hk.
Qed.

Lemma render_kept t : all_chars kept (render t) = true.
Proof.
  induction t as [n|o l IHl r IHr]; simpl; [apply toString_kept|].
  rewrite all_chars_app. simpl. rewrite all_chars_app. simpl.
  rewrite IHl, IHr. now destruct o.
Qed.

Lemma found_kept nums m s :
  findSolution nums m = Ret (Some s) -> all_chars kept s = true.
Proof.
  intros H. destruct (found_buildable _ _ _ H) as (t & <- & _). apply render_kept.
Qed.

(** ** The invariant of the component *)

(** ** Lemmas *)
Lemma usedIndices_app s ts :
  usedIndices (setTokens ts s) = flat_map (fun t => match t with
                     | num_token _ index => [index]
                     | op_token _ => []
                     end) ts.
Proof. reflexivity. Qed.

Lemma invariant_frame h s s' :
  mode s' = mode s -> puzzle s' = puzzle s -> tokens s' = tokens s ->
  hintLevel s' = hintLevel s -> requests s' = requests s ->
  invariant h s -> invariant h s'.
Proof.
  intros Hm Hp Ht Hl Hr [H1 H2 H3 H4 H5].
  split.
  - unfold usedIndices. now rewrite Ht.
  - rewrite Ht. eapply Forall_impl; [|exact H2].
    intros t. unfold token_ok, operatorList. now rewrite Hm, Hp.
  - now rewrite Hm, Hp.
  - congruence.
  - now rewrite Hr.
Qed.

Lemma invariant_tokens h s s' :
  mode s' = mode s -> puzzle s' = puzzle s ->
  hintLevel s' = hintLevel s -> requests s' = requests s ->
  NoDup (usedIndices s') -> Forall (token_ok s) (tokens s') ->
  invariant h s -> invariant h s'.
Proof.
  intros Hm Hp Hl Hr Hn Ht [H1 H2 H3 H4 H5].
  split.
  - exact Hn.
  - eapply Forall_impl; [|exact Ht].
    intros t. unfold token_ok, operatorList. now rewrite Hm, Hp.
  - now rewrite Hm, Hp.
  - congruence.
  - now rewrite Hr.
Qed.

Lemma existsb_eqb_In index l : existsb (Nat.eqb index) l = true <-> In index l.
Proof.
  rewrite existsb_exists. split.
  - intros (x & Hx & He). apply Nat.eqb_eq in He. now subst.
  - intros H. exists index. split; [exact H|apply Nat.eqb_refl].
Qed.

Lemma existsb_string_In x l : existsb (String.eqb x) l = true <-> In x l.
Proof.
  rewrite existsb_exists. split.
  - intros (y & Hy & He). apply String.eqb_eq in He. now subst.
  - intros H. exists x. split; [exact H|apply String.eqb_refl].
Qed.

Lemma used_app ts1 ts2 :
  flat_map (fun t => match t with
                     | num_token _ index => [index]
                     | op_token _ => []
                     end) (ts1 ++ ts2)
  = flat_map (fun t => match t with
                     | num_token _ index => [index]
                     | op_token _ => []
                     end) ts1
    ++ flat_map (fun t => match t with
                     | num_token _ index => [index]
                     | op_token _ => []
                     end) ts2.
Proof. apply flat_map_app. Qed.

Lemma NoDup_snoc {A : Type} (l : list A) x : NoDup l -> ~ In x l -> NoDup (l ++ [x]).
Proof.
  intros Hl Hx. apply NoDup_app; [exact Hl|repeat constructor; intros []|].
  intros y Hy [<-|[]]. contradiction.
Qed.

Lemma appendNumber_invariant h s n idx :
  nth_error (nums (puzzle s)) idx = Some n ->
  invariant h s -> invariant h (appendNumber n idx s).
Proof.
  intros Hn Hinv. unfold appendNumber.
  destruct (usedSet_has s idx) eqn:Hu; [exact Hinv|].
  apply invariant_tokens with s; try reflexivity; [| |exact Hinv].
  - unfold usedIndices. cbn. rewrite used_app. simpl.
    apply NoDup_snoc; [apply Hinv|].
    intros Hin. apply existsb_eqb_In in Hin. unfold usedSet_has, usedIndices in Hu.
    congruence.
  - cbn. apply Forall_app. split; [apply Hinv|].
    constructor; [|constructor]. exists n. auto.
Qed.

Lemma appendOperator_invariant h s op :
  In op (operatorList s) -> invariant h s -> invariant h (appendOperator op s).
Proof.
  intros Hop Hinv.
  apply invariant_tokens with s; try reflexivity; [| |exact Hinv].
  - unfold usedIndices. cbn. rewrite used_app. simpl. rewrite app_nil_r. apply Hinv.
  - cbn. apply Forall_app. split; [apply Hinv|]. constructor; [exact Hop|constructor].
Qed.

Lemma backspace_invariant h s : invariant h s -> invariant h (backspace s).
Proof.
  intros Hinv. unfold backspace.
  destruct (tokens s) as [|t ts] eqn:Ht.
  - now apply invariant_frame with s.
  - assert (Hsplit : tokens s = removelast (t :: ts) ++ [last (t :: ts) t]).
    { rewrite Ht. apply app_removelast_last. discriminate. }
    apply invariant_tokens with s; try reflexivity; [| |exact Hinv].
    + pose proof (inv_used _ _ Hinv) as Hn. unfold usedIndices in *. cbn.
      rewrite Hsplit, used_app in Hn. now apply NoDup_app_remove_r in Hn.
    + pose proof (inv_tokens _ _ Hinv) as Hf. cbn.
      rewrite Hsplit in Hf. now apply Forall_app in Hf.
Qed.

Lemma clearInput_invariant h s : invariant h s -> invariant h (clearInput s).
Proof.
  intros [H1 H2 H3 H4 H5]. split; cbn; auto; constructor.
Qed.

Lemma nextPuzzle_invariant h fuel m s s' :
  Forall (request_ok h) (requests s) ->
  nextPuzzle h fuel m (setMode m s) = Ret s' -> invariant h s'.
Proof.
  intros Hr H. unfold nextPuzzle in H. cbn [draws setMode] in H.
  destruct (generateSolvablePuzzle _ _ fuel m (draws s)) as [[fresh k]| |] eqn:Hg;
    try discriminate H.
  cbn [bind] in H. inversion H; subst s'; clear H.
  apply generate_returns in Hg as (j & Hfound & Hnums & Hhints).
  split; cbn; try (now constructor); try exact Hr.
  - exists j. split; [exact Hfound|]. split; [exact Hnums|exact Hhints].
  - now rewrite Hhints.
Qed.

Lemma setMode_same s : setMode (mode s) s = s.
Proof. now destruct s. Qed.

Lemma fetchAiHint_send_invariant h s :
  invariant h s -> invariant h (fetchAiHint_send s).
Proof.
  intros Hinv. unfold fetchAiHint_send.
  destruct (aiStatus s); try exact Hinv;
    (destruct Hinv as [H1 H2 H3 H4 H5]; split; cbn; auto;
     apply Forall_app; split; [exact H5|]; constructor; [|constructor];
     split; [reflexivity|]; destruct H3 as (k & Hk);
     exists (puzzle s), k; cbn; auto).
Qed.

Lemma checkSolution_frame h s :
  mode (checkSolution h s) = mode s /\ puzzle (checkSolution h s) = puzzle s /\
  tokens (checkSolution h s) = tokens s /\
  hintLevel (checkSolution h s) = hintLevel s /\
  requests (checkSolution h s) = requests s.
Proof.
  unfold checkSolution.
  destruct (Nat.eqb _ 0); [now cbn|].
  destruct (negb _); [now cbn|].
  destruct (evaluateExpression h (input s)) as [v|]; [|now cbn].
  destruct (makes24 h v); now cbn.
Qed.

Lemma handle_invariant h fuel e s s' :
  invariant h s -> handle h fuel e s = Ret s' -> invariant h s'.
Proof.
  intros Hinv H. destruct e; cbn [handle] in H.
  - unfold toggleMode in H. eapply nextPuzzle_invariant; [|exact H]. apply Hinv.
  - rewrite <- (setMode_same s) in H at 2.
    eapply nextPuzzle_invariant; [|exact H]. apply Hinv.
  - destruct (nth_error (nums (puzzle s)) idx) as [n|] eqn:Hn;
      inversion H; subst s'; [now apply appendNumber_invariant|exact Hinv].
  - destruct (existsb (String.eqb op) (operatorList s)) eqn:Hop;
      inversion H; subst s'; [|exact Hinv].
    apply appendOperator_invariant; [|exact Hinv]. now apply existsb_string_In.
  - inversion H; subst s'. now apply clearInput_invariant.
  - inversion H; subst s'.
    destruct (checkSolution_frame h s) as (E1 & E2 & E3 & E4 & E5).
    now apply invariant_frame with s.
  - inversion H; subst s'. now apply backspace_invariant.
  - inversion H; subst s'. now apply fetchAiHint_send_invariant.
  - inversion H; subst s'. apply invariant_frame with s; auto; now destruct r.
  - inversion H; subst s'. now apply invariant_frame with s.
Qed.

Lemma mount_invariant h fuel k s : mount h fuel k = Ret s -> invariant h s.
Proof.
  unfold mount. intros H.
  destruct (generateSolvablePuzzle _ _ fuel easy k) as [[fresh k']| |] eqn:Hg;
    try discriminate H.
  cbn [bind] in H. inversion H; subst s; clear H.
  apply generate_returns in Hg as (j & Hfound & Hnums & Hhints).
  split; cbn; try (now constructor).
  - exists j. split; [exact Hfound|]. split; [exact Hnums|exact Hhints].
  - now rewrite Hhints.
Qed.

Lemma reachable_invariant h s : reachable h s -> invariant h s.
Proof.
  induction 1 as [fuel k s H|fuel e s s' _ IH H].
  - eapply mount_invariant; eauto.
  - eapply handle_invariant; eauto.
Qed.

(** ** Texts, positions, puzzles *)

(** ** Joined texts *)
Lemma join_cons x xs :
  String.concat EmptyString (x :: xs) = (x ++ String.concat EmptyString xs)%string.
Proof. destruct xs; simpl; [now rewrite string_app_nil|reflexivity]. Qed.

Lemma join_app l1 l2 :
  String.concat EmptyString (l1 ++ l2)
  = (String.concat EmptyString l1 ++ String.concat EmptyString l2)%string.
Proof.
  induction l1 as [|x l1 IH]; [reflexivity|].
  rewrite <- app_comm_cons, !join_cons, IH. now rewrite string_app_assoc.
Qed.

Lemma join_all_chars p l :
  Forall (fun x => all_chars p x = true) l ->
  all_chars p (String.concat EmptyString l) = true.
Proof.
  induction 1 as [|x l Hx _ IH]; [reflexivity|].
  rewrite join_cons, all_chars_app, Hx, IH. reflexivity.
Qed.

Lemma contains_all_chars c s :
  contains c s = false <-> all_chars (fun x => negb (Ascii.eqb x c)) s = true.
Proof.
  induction s as [|x s IH]; simpl; [tauto|].
  rewrite orb_false_iff, andb_true_iff, negb_true_iff, IH. tauto.
Qed.

(** ** Trimming *)
Lemma trimEnd_visible s : all_chars visible s = true -> trimEnd s = s.
Proof.
  induction s as [|c s IH]; simpl; [reflexivity|].
  intros H. apply andb_true_iff in H as (Hc & Hs). rewrite (IH Hs).
  unfold visible in Hc. apply negb_true_iff in Hc. rewrite Hc. now destruct s.
Qed.

Lemma trim_visible s : all_chars visible s = true -> trim s = s.
Proof.
  intros H. unfold trim.
  assert (Hs : trimStart s = s).
  { destruct s as [|c s]; [reflexivity|]. simpl in *.
    apply andb_true_iff in H as (Hc & _).
    unfold visible in Hc. apply negb_true_iff in Hc. now rewrite Hc. }
  rewrite Hs. now apply trimEnd_visible.
Qed.

Lemma toString_visible n : all_chars visible (toString n) = true.
Proof.
  destruct (toString_shape n) as (ds & _ & Hds & ->).
  assert (Hv : all_chars visible ds = true).
  { apply all_chars_weaken with is_digit; [|exact Hds].
    intros c Hc.
    destruct c as [[] [] [] [] [] [] [] []]; vm_compute in Hc |- *; congruence. }
  destruct (n <? 0)%Z; simpl; exact Hv.
Qed.

Lemma operator_visible op : In op OPERATORS -> all_chars visible op = true.
Proof. unfold OPERATORS. simpl. intros [<-|[<-|[<-|[<-|[<-|[<-|[]]]]]]]; reflexivity. Qed.

Lemma operator_nonempty op : In op OPERATORS -> op <> EmptyString.
Proof. unfold OPERATORS. simpl. intros [<-|[<-|[<-|[<-|[<-|[<-|[]]]]]]]; discriminate. Qed.

Lemma operatorList_incl s op : In op (operatorList s) -> In op OPERATORS.
Proof.
  unfold operatorList. destruct (Mode_eqb (mode s) easy); [|trivial].
  intros H. now apply filter_In in H.
Qed.

Lemma operatorList_easy s op :
  mode s = easy -> In op (operatorList s) -> contains "/" op = false.
Proof.
  unfold operatorList. intros ->. simpl.
  intros [<-|[<-|[<-|[<-|[<-|[]]]]]]; reflexivity.
Qed.

Lemma token_text_visible s t : token_ok s t -> all_chars visible (token_text t) = true.
Proof.
  destruct t as [text idx|text]; simpl.
  - intros (n & _ & ->). apply toString_visible.
  - intros H. now apply operator_visible, operatorList_incl with s.
Qed.

Lemma token_text_nonempty s t : token_ok s t -> token_text t <> EmptyString.
Proof.
  destruct t as [text idx|text]; simpl.
  - intros (n & _ & ->). apply toString_nonempty.
  - intros H. now apply operator_nonempty, operatorList_incl with s.
Qed.

Lemma input_visible s :
  Forall (token_ok s) (tokens s) -> all_chars visible (input s) = true.
Proof.
  intros H. unfold input. apply join_all_chars. apply Forall_map.
  eapply Forall_impl; [|exact H]. intros t. apply token_text_visible.
Qed.

Lemma input_empty s :
  Forall (token_ok s) (tokens s) ->
  Nat.eqb (String.length (trim (input s))) 0 = true <-> tokens s = [].
Proof.
  intros H. rewrite (trim_visible _ (input_visible s H)). unfold input. split.
  - destruct (tokens s) as [|t ts]; [reflexivity|].
    inversion H as [|? ? Ht _]; subst.
    cbn [map]. rewrite join_cons.
    pose proof (token_text_nonempty s t Ht) as Hne.
    destruct (token_text t); [congruence|]. discriminate.
  - intros ->. reflexivity.
Qed.

(** ** Positions used *)
Lemma usedIndices_bound s :
  Forall (token_ok s) (tokens s) ->
  Forall (fun i => (i < List.length (nums (puzzle s)))%nat) (usedIndices s).
Proof.
  unfold usedIndices. induction 1 as [|t ts Ht _ IH]; [constructor|].
  destruct t as [text idx|text]; simpl; [|exact IH].
  constructor; [|exact IH]. destruct Ht as (n & Hn & _).
  apply nth_error_Some. congruence.
Qed.

Lemma number_texts_used s :
  Forall (token_ok s) (tokens s) ->
  number_texts s
  = map (fun i => toString (nth i (nums (puzzle s)) 0%Z)) (usedIndices s).
Proof.
  unfold number_texts, usedIndices. induction 1 as [|t ts Ht _ IH]; [reflexivity|].
  destruct t as [text idx|text]; simpl; [|exact IH].
  destruct Ht as (n & Hn & ->). rewrite IH. f_equal. f_equal.
  symmetry. now apply nth_error_nth.
Qed.

Lemma map_nth_seq {A : Type} (l : list A) d :
  map (fun i => nth i l d) (seq 0 (List.length l)) = l.
Proof.
  apply nth_ext with (d := d) (d' := d).
  - now rewrite length_map, length_seq.
  - intros n Hn. rewrite length_map, length_seq in Hn.
    rewrite (nth_indep _ d (nth 0 l d)) by (now rewrite length_map, length_seq).
    rewrite (map_nth (fun i => nth i l d)).
    rewrite seq_nth by exact Hn. reflexivity.
Qed.

Lemma used_all_iff s :
  NoDup (usedIndices s) -> Forall (token_ok s) (tokens s) ->
  List.length (usedIndices s) = List.length (nums (puzzle s)) <->
  Permutation (usedIndices s) (seq 0 (List.length (nums (puzzle s)))).
Proof.
  intros Hn Ht. split.
  - intros Hlen. apply NoDup_Permutation_bis; [exact Hn|rewrite length_seq; lia|].
    intros i Hi. apply in_seq.
    pose proof (usedIndices_bound s Ht) as Hb. rewrite Forall_forall in Hb.
    specialize (Hb i Hi). lia.
  - intros Hp. rewrite (Permutation_length Hp). apply length_seq.
Qed.

Lemma used_all_texts s :
  Forall (token_ok s) (tokens s) ->
  Permutation (usedIndices s) (seq 0 (List.length (nums (puzzle s)))) ->
  Permutation (number_texts s) (map toString (nums (puzzle s))).
Proof.
  intros Ht Hp. rewrite (number_texts_used s Ht).
  replace (map toString (nums (puzzle s)))
    with (map (fun i => toString (nth i (nums (puzzle s)) 0%Z))
              (seq 0 (List.length (nums (puzzle s))))).
  - now apply Permutation_map.
  - rewrite <- (map_map (fun i => nth i (nums (puzzle s)) 0%Z) toString).
    now rewrite map_nth_seq.
Qed.

(** ** Division in easy mode *)
Lemma buildable_easy t : buildable easy t -> has_div t = false.
Proof.
  induction t as [n|o l IHl r IHr]; [reflexivity|].
  intros (Hper & Hl & Hr). simpl. rewrite (IHl Hl), (IHr Hr).
  destruct o; try reflexivity. destruct (Hper eq_refl) as (_ & _).
  destruct (Hper eq_refl) as (Hm & _). discriminate Hm.
Qed.

Lemma found_easy nums s :
  findSolution nums easy = Ret (Some s) -> contains "/" s = false.
Proof.
  intros H. destruct (found_buildable _ _ _ H) as (t & <- & _ & Hb & _).
  now apply render_no_slash, buildable_easy.
Qed.

Lemma input_easy s :
  mode s = easy -> Forall (token_ok s) (tokens s) -> contains "/" (input s) = false.
Proof.
  intros Hm Ht. apply contains_all_chars. unfold input.
  apply join_all_chars, Forall_map.
  eapply Forall_impl; [|exact Ht].
  intros t Hok. apply contains_all_chars.
  destruct t as [text idx|text]; simpl in *.
  - destruct Hok as (n & _ & ->). apply toString_no_slash.
  - now apply operatorList_easy with s.
Qed.

(** ** The puzzle on show *)
Lemma made_of_valid h m p k :
  (forall arr j, Permutation (fst (Array_sort h arr j)) arr) ->
  made_of h m p k ->
  exists t,
    render t = solution p /\ Permutation (leaves t) (nums p) /\
    buildable m t /\ near24 (eval t) = true.
Proof.
  intros Hsort (Hfound & Hnums & _).
  destruct (found_buildable _ _ _ Hfound) as (t & Hr & Hl & Hb & Hv).
  exists t. split; [exact Hr|]. split; [|auto].
  rewrite Hnums. rewrite Hl. symmetry. apply Hsort.
Qed.

Lemma drawn_digits random k :
  (forall i, in_unit (random i) = true) ->
  List.length (drawn random k) = 4%nat /\
  Forall (fun n => (1 <= n <= 9)%Z) (drawn random k).
Proof.
  intros Hr. split; [reflexivity|].
  apply Forall_forall. intros n Hn. apply in_map_iff in Hn as (i & <- & _).
  apply sample_range, Hr.
Qed.

Lemma made_of_digits h m p k :
  (forall i, in_unit (Math_random h i) = true) ->
  (forall arr j, Permutation (fst (Array_sort h arr j)) arr) ->
  made_of h m p k ->
  List.length (nums p) = 4%nat /\ Forall (fun n => (1 <= n <= 9)%Z) (nums p).
Proof.
  intros Hr Hsort (_ & Hnums & _).
  destruct (drawn_digits (Math_random h) k Hr) as (Hlen & Hd).
  pose proof (Hsort (drawn (Math_random h) k) (k + 4)%nat) as Hp.
  rewrite <- Hnums in Hp. split.
  - now rewrite (Permutation_length Hp).
  - eapply Permutation_Forall; [symmetry; exact Hp|exact Hd].
Qed.

(** ** Entering an expression *)

Lemma nth_error_lift {A : Type} (a b : list A) x i :
  nth_error (a ++ x :: b) (lift (List.length a) i) = nth_error (a ++ b) i.
Proof.
  unfold lift. destruct (Nat.ltb_spec i (List.length a)) as [Hlt|Hge].
  - now rewrite !nth_error_app1.
  - rewrite !nth_error_app2 by lia.
    replace (S i - List.length a)%nat with (S (i - List.length a)) by lia.
    reflexivity.
Qed.

Lemma lift_inj k i j : lift k i = lift k j -> i = j.
Proof.
  unfold lift.
  destruct (Nat.ltb_spec i k), (Nat.ltb_spec j k); lia.
Qed.

Lemma lift_neq k i : lift k i <> k.
Proof. unfold lift. destruct (Nat.ltb_spec i k); lia. Qed.

Lemma NoDup_map_lift k l : NoDup l -> NoDup (map (lift k) l).
Proof.
  induction 1 as [|i l Hi _ IH]; simpl; constructor; [|exact IH].
  intros Hin. apply in_map_iff in Hin as (j & Hj & Hjl).
  apply lift_inj in Hj. now subst.
Qed.

Lemma positions_of_permutation {A : Type} (l' l : list A) :
  Permutation l' l ->
  exists idxs,
    NoDup idxs /\ Forall2 (fun i x => nth_error l i = Some x) idxs l'.
Proof.
  revert l. induction l' as [|x l' IH]; intros l Hp.
  - exists []. split; constructor.
  - assert (Hin : In x l) by (eapply Permutation_in; [exact Hp|now left]).
    apply in_split in Hin as (a & b & ->).
    apply Permutation_cons_app_inv in Hp.
    destruct (IH _ Hp) as (idxs & Hn & Hf).
    exists (List.length a :: map (lift (List.length a)) idxs). split.
    + constructor.
      * intros Hin. apply in_map_iff in Hin as (i & Hi & _).
        now apply lift_neq in Hi.
      * now apply NoDup_map_lift.
    + constructor.
      * rewrite nth_error_app2 by lia. now rewrite Nat.sub_diag.
      * clear -Hf. induction Hf as [|i y idxs l' Hy _ IHf]; simpl; constructor.
        -- now rewrite nth_error_lift.
        -- exact IHf.
Qed.

(** ** Spelling an expression *)
Lemma used_by_app ts1 ts2 : used_by (ts1 ++ ts2) = used_by ts1 ++ used_by ts2.
Proof. apply flat_map_app. Qed.

Lemma paren_offered s :
  In "(" (operatorList s) /\ In ")" (operatorList s).
Proof. unfold operatorList. destruct (Mode_eqb (mode s) easy); simpl; tauto. Qed.

Lemma operator_offered s o :
  (o = Div -> mode s = hard) ->
  In (String (op_symbol o) EmptyString) (operatorList s).
Proof.
  unfold operatorList. intros H.
  destruct o; try (destruct (Mode_eqb (mode s) easy); simpl; tauto).
  rewrite (H eq_refl). simpl. tauto.
Qed.

Lemma spell_spec (s : State) t :
  (has_div t = true -> mode s = hard) ->
  forall idxs rest,
    Forall2 (fun i n => nth_error (nums (puzzle s)) i = Some n) idxs (leaves t) ->
    snd (spell t (idxs ++ rest)) = rest /\
    used_by (fst (spell t (idxs ++ rest))) = idxs /\
    String.concat EmptyString (map token_text (fst (spell t (idxs ++ rest)))) = render t /\
    Forall (token_ok s) (fst (spell t (idxs ++ rest))).
Proof.
  induction t as [n|o l IHl r IHr]; intros Hdiv idxs rest Hf.
  - cbn [leaves] in Hf. inversion Hf as [|i x idxs' l' Hi Hnil]; subst.
    inversion Hnil; subst. cbn. repeat split.
    constructor; [|constructor]. exists n. auto.
  - cbn [leaves] in Hf. apply Forall2_app_inv_r in Hf as (i1 & i2 & H1 & H2 & ->).
    rewrite <- app_assoc. cbn [spell].
    cbn [has_div] in Hdiv.
    assert (Hdl : has_div l = true -> mode s = hard)
      by (intros E; apply Hdiv; rewrite E; now destruct o).
    assert (Hdr : has_div r = true -> mode s = hard)
      by (intros E; apply Hdiv; rewrite E; destruct o, (has_div l); reflexivity).
    assert (Hdo : o = Div -> mode s = hard) by (intros ->; now apply Hdiv).
    destruct (IHl Hdl i1 (i2 ++ rest) H1) as (Hl1 & Hl2 & Hl3 & Hl4).
    destruct (spell l (i1 ++ i2 ++ rest)) as [tl rl]. cbn [fst snd] in *. subst rl.
    destruct (IHr Hdr i2 rest H2) as (Hr1 & Hr2 & Hr3 & Hr4).
    destruct (spell r (i2 ++ rest)) as [tr rr]. cbn [fst snd] in *. subst rr.
    split; [reflexivity|]. split; [|split].
    + change (op_token "(" :: tl ++ op_token (String (op_symbol o) EmptyString) :: tr ++ [op_token ")"])
        with ([op_token "("] ++ tl ++ [op_token (String (op_symbol o) EmptyString)] ++ tr ++ [op_token ")"]).
      rewrite !used_by_app, Hl2, Hr2. cbn. now rewrite app_nil_r.
    + change (op_token "(" :: tl ++ op_token (String (op_symbol o) EmptyString) :: tr ++ [op_token ")"])
        with ([op_token "("] ++ tl ++ [op_token (String (op_symbol o) EmptyString)] ++ tr ++ [op_token ")"]).
      rewrite !map_app, !join_app, Hl3, Hr3. reflexivity.
    + destruct (paren_offered s) as (Hopen & Hclose).
      constructor; [exact Hopen|]. apply Forall_app. split; [exact Hl4|].
      constructor; [now apply operator_offered|].
      apply Forall_app. split; [exact Hr4|]. constructor; [exact Hclose|constructor].
Qed.

(** ** Entering tokens *)
Lemma run_app h fuel es1 es2 s :
  run h fuel (es1 ++ es2) s = (s' <- run h fuel es1 s ;; run h fuel es2 s').
Proof.
  revert s. induction es1 as [|e es1 IH]; intros s; [reflexivity|].
  cbn [run app]. destruct (handle h fuel e s) as [s1| |]; cbn [bind]; auto.
Qed.

Lemma press_one h fuel s t :
  token_ok s t ->
  (forall i, used_by [t] = [i] -> usedSet_has s i = false) ->
  handle h fuel (press t) s = Ret (entered [t] s).
Proof.
  intros Hok Hfree. destruct t as [text idx|text]; cbn [press handle].
  - destruct Hok as (n & Hn & ->). rewrite Hn. unfold appendNumber.
    now rewrite (Hfree idx eq_refl).
  - cbn in Hok. apply existsb_string_In in Hok. now rewrite Hok.
Qed.

Lemma entered_app t toks s :
  entered toks (entered [t] s) = entered (t :: toks) s.
Proof.
  destruct toks as [|t' toks]; [reflexivity|].
  unfold entered. cbn. now rewrite <- app_assoc.
Qed.

Lemma run_press h fuel toks :
  forall s,
    Forall (token_ok s) toks ->
    NoDup (usedIndices s ++ used_by toks) ->
    run h fuel (map press toks) s = Ret (entered toks s).
Proof.
  induction toks as [|t toks IH]; intros s Hok Hn; [reflexivity|].
  inversion Hok as [|? ? Ht Hoks]; subst.
  cbn [map run]. rewrite press_one; [|exact Ht|].
  - cbn [bind]. rewrite IH; [now rewrite entered_app| |].
    + eapply Forall_impl; [|exact Hoks]. intros t'. now destruct t'.
    + change (usedIndices (entered [t] s)) with (used_by (tokens s ++ [t])).
      rewrite used_by_app, <- app_assoc.
      change (t :: toks) with ([t] ++ toks) in Hn. now rewrite used_by_app in Hn.
  - intros i Hi. unfold usedSet_has.
    destruct (existsb (Nat.eqb i) (usedIndices s)) eqn:E; [|reflexivity].
    apply existsb_eqb_In in E.
    change (t :: toks) with ([t] ++ toks) in Hn. rewrite used_by_app, Hi in Hn.
    apply NoDup_remove_2 in Hn. exfalso. apply Hn.
    apply in_or_app. now left.
Qed.

(** ** checkSolution *)

Lemma checkSolution_success h s v :
  Forall (token_ok s) (tokens s) -> tokens s <> [] ->
  List.length (usedIndices s) = List.length (nums (puzzle s)) ->
  evaluateExpression h (input s) = Returned v -> makes24 h v = true ->
  checkSolution h s = setFeedback "Great work! You made 24." tone_success s.
Proof.
  intros Hok Hne Hlen Hev Hv. unfold checkSolution.
  destruct (Nat.eqb (String.length (trim (input s))) 0) eqn:E.
  - apply (input_empty s Hok) in E. contradiction.
  - rewrite Hlen, Nat.eqb_refl. cbn [negb]. now rewrite Hev, Hv.
Qed.

Lemma checkSolution_success_inv h s :
  tone (checkSolution h s) = tone_success ->
  Nat.eqb (String.length (trim (input s))) 0 = false /\
  List.length (usedIndices s) = List.length (nums (puzzle s)) /\
  exists v, evaluateExpression h (input s) = Returned v /\ makes24 h v = true.
Proof.
  unfold checkSolution.
  destruct (Nat.eqb (String.length (trim (input s))) 0) eqn:E; [discriminate|].
  destruct (Nat.eqb (List.length (usedIndices s)) (List.length (nums (puzzle s)))) eqn:El;
    cbn [negb]; [|discriminate].
  apply Nat.eqb_eq in El.
  destruct (evaluateExpression h (input s)) as [v|]; [|discriminate].
  destruct (makes24 h v) eqn:Hv; [|discriminate].
  intros _. repeat split; eauto.
Qed.

Lemma render_nonempty t : render t <> EmptyString.
Proof.
  intros He. pose proof (render_length t) as Hl. rewrite He in Hl. simpl in Hl. lia.
Qed.

Lemma evaluate_rendered h t :
  Function_evaluates h -> Forall (fun n => (0 <= n)%Z) (leaves t) ->
  near24 (eval t) = true ->
  exists v, evaluateExpression h (render t) = Returned v /\ makes24 h v = true.
Proof.
  intros Hf Hl Hv. destruct (Hf t Hl) as (v & Hc & Hn).
  exists v. unfold evaluateExpression. rewrite (sanitize_fixed _ (render_kept t)).
  split; [exact Hc|]. unfold makes24. rewrite Hn, Hv.
  now rewrite (near24_finite _ Hv).
Qed.

Lemma entered_fields toks s :
  tokens (entered toks s) = tokens s ++ toks /\
  puzzle (entered toks s) = puzzle s /\ mode (entered toks s) = mode s.
Proof. destruct toks; cbn; [now rewrite app_nil_r|auto]. Qed.

Lemma enter_solution h s t :
  Function_evaluates h ->
  Permutation (leaves t) (nums (puzzle s)) ->
  Forall (fun n => (0 <= n)%Z) (leaves t) ->
  buildable (mode s) t -> near24 (eval t) = true ->
  exists toks s',
    run h 0 (click_clear :: map press toks) s = Ret s' /\
    input s' = render t /\ puzzle s' = puzzle s /\ mode s' = mode s /\
    checkSolution h s' = setFeedback "Great work! You made 24." tone_success s'.
Proof.
  intros Hf Hp Hpos Hb Hv.
  destruct (positions_of_permutation _ _ Hp) as (idxs & Hn & Hidx).
  assert (Hdiv : has_div t = true -> mode (clearInput s) = hard).
  { intros Hd. change (mode (clearInput s)) with (mode s).
    destruct (mode s) eqn:Hm; [|reflexivity].
    rewrite (buildable_easy t Hb) in Hd. discriminate. }
  destruct (spell_spec (clearInput s) t Hdiv idxs [] Hidx) as (_ & Hu & Hc & Hok).
  set (toks := fst (spell t (idxs ++ []))) in *.
  set (s' := entered toks (clearInput s)).
  destruct (entered_fields toks (clearInput s)) as (Etok & Epuz & Emode).
  fold s' in Etok, Epuz, Emode. cbn in Etok, Epuz, Emode.
  exists toks, s'.
  split.
  { cbn [run handle bind]. apply run_press; [exact Hok|]. cbn. now rewrite Hu. }
  assert (Hin : input s' = render t) by (unfold input; now rewrite Etok).
  split; [exact Hin|]. split; [exact Epuz|]. split; [exact Emode|].
  destruct (evaluate_rendered h t Hf Hpos Hv) as (v & Hev & Hm).
  apply checkSolution_success with v.
  - rewrite Etok. eapply Forall_impl; [|exact Hok].
    intros t'. unfold token_ok, operatorList. rewrite Epuz, Emode.
    now destruct t'.
  - rewrite Etok. intros E. rewrite E in Hc. simpl in Hc. symmetry in Hc.
    now apply render_nonempty in Hc.
  - unfold usedIndices. rewrite Etok. fold (used_by toks). rewrite Hu, Epuz.
    rewrite (Forall2_length Hidx). now apply Permutation_length.
  - now rewrite Hin.
  - exact Hm.
Qed.

(** ** The example host *)
Lemma substring_front s r : substring 0 (String.length s) (s ++ r) = s.
Proof. induction s as [|c s IH]; simpl; [now destruct r|now rewrite IH]. Qed.

Lemma function_body_length s :
  String.length (function_body s) = (String.length s + 24)%nat.
Proof.
  unfold function_body. cbn [String.length String.append].
  rewrite string_length_app. cbn [String.length]. lia.
Qed.

Lemma example_Function_body s :
  example_Function (function_body s)
  = match evalString s with Some v => Returned v | None => Thrown end.
Proof.
  unfold example_Function. rewrite function_body_length.
  replace (String.length s + 24 - 24)%nat with (String.length s) by lia.
  unfold function_body. cbn [substring String.append].
  now rewrite substring_front.
Qed.

Lemma example_host_evaluates : Function_evaluates example_host.
Proof.
  intros t _. exists (eval t). split; [|reflexivity].
  cbn [Function_call example_host]. rewrite example_Function_body.
  unfold evalString. now rewrite parse_render.
Qed.

Lemma example_host_sorts : sort_rearranges example_host.
Proof. intros arr k. cbn. symmetry. apply Permutation_rev. Qed.

Lemma example_host_random : random_in_unit example_host.
Proof. intros i. vm_compute. reflexivity. Qed.

(** ** Sessions *)

Lemma run_reachable h fuel es :
  forall s s', reachable h s -> run h fuel es s = Ret s' -> reachable h s'.
Proof.
  induction es as [|e es IH]; intros s s' Hs H; cbn [run] in H.
  - now inversion H; subst.
  - destruct (handle h fuel e s) as [s1| |] eqn:He; try discriminate H.
    cbn [bind] in H. eapply IH; [|exact H]. eapply reachable_handle; eauto.
Qed.

Lemma example_session_reachable s :
  example_session = Ret s -> reachable example_host s.
Proof.
  unfold example_session. intros H.
  destruct (mount example_host 1 0) as [s0| |] eqn:Hm; try discriminate H.
  cbn [bind] in H. eapply run_reachable; [|exact H].
  eapply reachable_mount; exact Hm.
Qed.

Lemma removelast_snoc {A : Type} (l : list A) x : removelast (l ++ [x]) = l.
Proof. now rewrite removelast_app, app_nil_r by discriminate. Qed.

Lemma backspace_snoc s ts t :
  tokens s = ts ++ [t] -> tokens (backspace s) = ts.
Proof.
  intros H. unfold backspace. cbn. rewrite H.
  destruct (ts ++ [t]) eqn:E; [now destruct ts|]. rewrite <- E.
  apply removelast_snoc.
Qed.

(** ** Feedback *)

Lemma feedback_frame s s' :
  message s' = message s -> tone s' = tone s -> feedback_ok s -> feedback_ok s'.
Proof. unfold feedback_ok. now intros -> ->. Qed.

Lemma checkSolution_feedback h s : feedback_ok (checkSolution h s).
Proof.
  unfold checkSolution.
  destruct (Nat.eqb _ 0); [cbn; discriminate|].
  destruct (negb _); [cbn; discriminate|].
  destruct (evaluateExpression h (input s)) as [v|]; [|cbn; discriminate].
  destruct (makes24 h v); cbn; [reflexivity|discriminate].
Qed.

Lemma nextPuzzle_feedback h fuel m s s' :
  nextPuzzle h fuel m s = Ret s' -> feedback_ok s'.
Proof.
  unfold nextPuzzle.
  destruct (generateSolvablePuzzle _ _ fuel m (draws s)) as [[fresh k]| |];
    try discriminate.
  cbn [bind]. intros H. inversion H; subst s'. reflexivity.
Qed.

Lemma handle_feedback h fuel e s s' :
  feedback_ok s -> handle h fuel e s = Ret s' -> feedback_ok s'.
Proof.
  intros Hok H. destruct e; cbn [handle] in H.
  - eapply nextPuzzle_feedback; exact H.
  - eapply nextPuzzle_feedback; exact H.
  - destruct (nth_error (nums (puzzle s)) idx) as [n|];
      inversion H; subst s'; [|exact Hok].
    unfold appendNumber. destruct (usedSet_has s idx); [exact Hok|reflexivity].
  - destruct (existsb (String.eqb op) (operatorList s));
      inversion H; subst s'; [reflexivity|exact Hok].
  - inversion H; subst s'. reflexivity.
  - inversion H; subst s'. apply checkSolution_feedback.
  - inversion H; subst s'. now apply feedback_frame with s.
  - inversion H; subst s'. apply feedback_frame with s; auto;
      unfold fetchAiHint_send; now destruct (aiStatus s).
  - inversion H; subst s'. apply feedback_frame with s; auto; now destruct r.
  - inversion H; subst s'. now apply feedback_frame with s.
Qed.

Lemma mount_feedback h fuel k s : mount h fuel k = Ret s -> feedback_ok s.
Proof.
  unfold mount.
  destruct (generateSolvablePuzzle _ _ fuel easy k) as [[fresh k']| |]; try discriminate.
  cbn [bind]. intros H. inversion H; subst s. reflexivity.
Qed.

Lemma usedIndices_length s :
  NoDup (usedIndices s) -> Forall (token_ok s) (tokens s) ->
  (List.length (usedIndices s) <= List.length (nums (puzzle s)))%nat.
Proof.
  intros Hn Ht.
  replace (List.length (nums (puzzle s)))
    with (List.length (seq 0 (List.length (nums (puzzle s))))) by apply length_seq.
  apply NoDup_incl_length; [exact Hn|].
  intros i Hi. apply in_seq.
  pose proof (usedIndices_bound s Ht) as Hb. rewrite Forall_forall in Hb.
  specialize (Hb i Hi). lia.
Qed.

(** ** The hint request *)

Lemma ai_frame s s' :
  aiStatus s' = aiStatus s -> aiHint s' = aiHint s -> aiError s' = aiError s ->
  ai_ok s -> ai_ok s'.
Proof. unfold ai_ok. now intros -> -> ->. Qed.

Lemma checkSolution_ai h s :
  aiStatus (checkSolution h s) = aiStatus s /\
  aiHint (checkSolution h s) = aiHint s /\ aiError (checkSolution h s) = aiError s.
Proof.
  unfold checkSolution.
  destruct (Nat.eqb _ 0); [now cbn|].
  destruct (negb _); [now cbn|].
  destruct (evaluateExpression h (input s)) as [v|]; [|now cbn].
  destruct (makes24 h v); now cbn.
Qed.

Lemma nextPuzzle_ai h fuel m s s' : nextPuzzle h fuel m s = Ret s' -> ai_ok s'.
Proof.
  unfold nextPuzzle.
  destruct (generateSolvablePuzzle _ _ fuel m (draws s)) as [[fresh k]| |];
    try discriminate.
  cbn [bind]. intros H. inversion H; subst s'. exact I.
Qed.

Lemma handle_ai h fuel e s s' : ai_ok s -> handle h fuel e s = Ret s' -> ai_ok s'.
Proof.
  intros Hok H. destruct e; cbn [handle] in H.
  - eapply nextPuzzle_ai; exact H.
  - eapply nextPuzzle_ai; exact H.
  - destruct (nth_error (nums (puzzle s)) idx) as [n|];
      inversion H; subst s'; [|exact Hok].
    unfold appendNumber. destruct (usedSet_has s idx); [exact Hok|].
    now apply ai_frame with s.
  - destruct (existsb (String.eqb op) (operatorList s));
      inversion H; subst s'; [|exact Hok]. now apply ai_frame with s.
  - inversion H; subst s'. exact I.
  - inversion H; subst s'.
    destruct (checkSolution_ai h s) as (E1 & E2 & E3). now apply ai_frame with s.
  - inversion H; subst s'. now apply ai_frame with s.
  - inversion H; subst s'. unfold fetchAiHint_send.
    destruct (aiStatus s) eqn:E; [|exact Hok|]; unfold ai_ok; cbn; auto.
  - inversion H; subst s'. destruct r; unfold ai_ok; cbn; auto.
  - inversion H; subst s'. now apply ai_frame with s.
Qed.

Lemma mount_ai h fuel k s : mount h fuel k = Ret s -> ai_ok s.
Proof.
  unfold mount.
  destruct (generateSolvablePuzzle _ _ fuel easy k) as [[fresh k']| |]; try discriminate.
  cbn [bind]. intros H. inversion H; subst s. exact I.
Qed.

Lemma checkSolution_empty h s :
  tokens s = [] ->
  checkSolution h s = setFeedback "Build an expression first." tone_error s.
Proof. intros H. unfold checkSolution, input. now rewrite H. Qed.

(** ** Exact arithmetic on four digits *)

Lemma float_eqb_eq x y : float_eqb x y = true -> x = y.
Proof.
  destruct x as [s|s| |s m e], y as [s'|s'| |s' m' e']; simpl; try discriminate;
    try (intros H; apply Bool.eqb_prop in H; now subst); [reflexivity|].
  intros H. apply andb_true_iff in H as (H & He). apply andb_true_iff in H as (Hs & Hm).
  apply Bool.eqb_prop in Hs. apply Pos.eqb_eq in Hm. apply Z.eqb_eq in He. now subst.
Qed.

Lemma Qeq_bool_left a a' c :
  QArith_base.Qeq a a' -> QArith_base.Qeq_bool a c = QArith_base.Qeq_bool a' c.
Proof.
  intros H.
  destruct (QArith_base.Qeq_bool a c) eqn:E1, (QArith_base.Qeq_bool a' c) eqn:E2;
    try reflexivity.
  - apply QArith_base.Qeq_bool_iff in E1.
    assert (E : QArith_base.Qeq a' c)
      by (eapply QArith_base.Qeq_trans; [apply QArith_base.Qeq_sym; exact H|exact E1]).
    apply QArith_base.Qeq_bool_iff in E. congruence.
  - apply QArith_base.Qeq_bool_iff in E2.
    assert (E : QArith_base.Qeq a c) by (eapply QArith_base.Qeq_trans; eauto).
    apply QArith_base.Qeq_bool_iff in E. congruence.
Qed.

Lemma qop_comp o a a' b b' :
  QArith_base.Qeq a a' -> QArith_base.Qeq b b' ->
  QArith_base.Qeq (qop o a b) (qop o a' b').
Proof.
  intros Ha Hb. destruct o; simpl.
  - now apply QArith_base.Qplus_comp.
  - now apply QArith_base.Qminus_comp.
  - now apply QArith_base.Qmult_comp.
  - now apply QArith_base.Qdiv_comp.
Qed.

Lemma listed_incl L L' x q : incl L L' -> listed L x q -> listed L' x q.
Proof. intros Hi (w & Hw & H). exists w. auto. Qed.

Lemma insert_new_incl v l : incl l (insert_new v l).
Proof.
  unfold insert_new. destruct (existsb (same v) l); [apply incl_refl|apply incl_tl, incl_refl].
Qed.

Lemma dedup_listed l x q : listed l x q -> listed (dedup l) x q.
Proof.
  induction l as [|v l IH]; intros (w & Hw & Hx & Hq); [destruct Hw|].
  cbn [dedup fold_right]. fold (dedup l). destruct Hw as [->|Hw].
  - unfold insert_new. destruct (existsb (same w) (dedup l)) eqn:E.
    + apply existsb_exists in E as (u & Hu & Hs).
      apply andb_true_iff in Hs as (Hf & Hqq).
      apply float_eqb_eq in Hf. apply QArith_base.Qeq_bool_iff in Hqq.
      exists u. split; [exact Hu|]. split; [congruence|].
      eapply QArith_base.Qeq_trans; [apply QArith_base.Qeq_sym; exact Hqq|exact Hq].
    + exists w. split; [now left|auto].
  - eapply listed_incl; [apply insert_new_incl|]. apply IH. exists w. auto.
Qed.

Lemma combos_listed L R o xl ql xr qr :
  listed L xl ql -> listed R xr qr ->
  (o = Div -> near_zero xr = false) ->
  listed (combos L R) (apply_op o xl xr) (qop o ql qr).
Proof.
  intros (wl & Hl & <- & Hql) (wr & Hr & <- & Hqr) Hg.
  exists (apply_op o (fst wl) (fst wr), qop o (snd wl) (snd wr)).
  split; [|split; [reflexivity|now apply qop_comp]].
  unfold combos. apply in_flat_map. exists wl. split; [exact Hl|].
  apply in_flat_map. exists wr. split; [exact Hr|].
  apply in_flat_map. exists o. split; [destruct o; simpl; tauto|].
  destruct o; try (now left). rewrite (Hg eq_refl). now left.
Qed.

Lemma guard_listed L x q :
  forallb guard_exact L = true -> listed L x q ->
  near_zero x = QArith_base.Qeq_bool q (QArith_base.inject_Z 0).
Proof.
  intros H (w & Hw & <- & Hq). rewrite forallb_forall in H. specialize (H w Hw).
  unfold guard_exact in H. apply Bool.eqb_prop in H. rewrite H.
  now apply Qeq_bool_left.
Qed.

Lemma test_listed L R o xl ql xr qr :
  all_combos test_exact L R = true -> listed L xl ql -> listed R xr qr ->
  (o = Div -> near_zero xr = false) ->
  near24 (apply_op o xl xr) = QArith_base.Qeq_bool (qop o ql qr) (QArith_base.inject_Z 24).
Proof.
  intros H (wl & Hl & <- & Hql) (wr & Hr & <- & Hqr) Hg. unfold all_combos in H.
  rewrite forallb_forall in H. specialize (H wl Hl).
  rewrite forallb_forall in H. specialize (H wr Hr).
  rewrite forallb_forall in H.
  assert (Ho : In o binops) by (destruct o; simpl; tauto).
  specialize (H o Ho).
  assert (Ht : test_exact (apply_op o (fst wl) (fst wr), qop o (snd wl) (snd wr)) = true).
  { destruct o; try exact H. now rewrite (Hg eq_refl) in H. }
  unfold test_exact in Ht. cbn [fst snd] in Ht. apply Bool.eqb_prop in Ht. rewrite Ht.
  apply Qeq_bool_left. now apply qop_comp.
Qed.

Lemma level_combos a b x q :
  (1 <= a)%nat -> (1 <= b)%nat -> (a + b <= 3)%nat ->
  listed (combos (level a) (level b)) x q -> listed (level (a + b)) x q.
Proof.
  intros Ha Hb Hab.
  destruct a as [|[|[|a]]], b as [|[|[|b]]]; try lia; clear Ha Hb Hab;
    cbn [level Nat.add]; intros H.
  - unfold level2. apply dedup_listed. exact H.
  - unfold level3. apply dedup_listed. revert H. apply listed_incl.
    apply incl_appl, incl_refl.
  - unfold level3. apply dedup_listed. revert H. apply listed_incl.
    apply incl_appr, incl_refl.
Qed.

(** The guard and the test against 24 are exact on every value that an
    expression over four digits can pass to them. *)
Lemma digits_checked :
  forallb guard_exact (level1 ++ level2 ++ level3)
  && all_combos test_exact level1 level3
  && all_combos test_exact level3 level1
  && all_combos test_exact level2 level2 = true.
Proof. vm_compute. reflexivity. Qed.

Lemma digits_checked_parts :
  forallb guard_exact (level1 ++ level2 ++ level3) = true
  /\ all_combos test_exact level1 level3 = true
  /\ all_combos test_exact level3 level1 = true
  /\ all_combos test_exact level2 level2 = true.
Proof.
  pose proof digits_checked as H.
  apply andb_true_iff in H as (H & H22). apply andb_true_iff in H as (H & H31).
  apply andb_true_iff in H as (H & H13). auto.
Qed.

Lemma checked_guard n x q :
  (1 <= n <= 3)%nat -> listed (level n) x q ->
  near_zero x = QArith_base.Qeq_bool q (QArith_base.inject_Z 0).
Proof.
  intros Hn.
  destruct digits_checked_parts as (H & _).
  destruct n as [|[|[|[|n]]]]; try (exfalso; clear - Hn; lia); clear Hn;
    cbn [level]; intros Hw; apply (guard_listed _ _ _ H); revert Hw;
    apply listed_incl.
  - apply incl_appl, incl_refl.
  - apply incl_appr, incl_appl, incl_refl.
  - apply incl_appr, incl_appr, incl_refl.
Qed.

Lemma checked_test a b o xl ql xr qr :
  (1 <= a)%nat -> (1 <= b)%nat -> (a + b = 4)%nat ->
  listed (level a) xl ql -> listed (level b) xr qr ->
  (o = Div -> near_zero xr = false) ->
  near24 (apply_op o xl xr) = QArith_base.Qeq_bool (qop o ql qr) (QArith_base.inject_Z 24).
Proof.
  intros Ha Hb Hab.
  destruct digits_checked_parts as (_ & H13 & H31 & H22).
  destruct a as [|[|[|[|a]]]], b as [|[|[|[|b]]]]; try (exfalso; clear - Ha Hb Hab; lia);
    clear Ha Hb Hab; cbn [level]; intros Hl Hr Hg.
  - exact (test_listed _ _ o _ _ _ _ H13 Hl Hr Hg).
  - exact (test_listed _ _ o _ _ _ _ H22 Hl Hr Hg).
  - exact (test_listed _ _ o _ _ _ _ H31 Hl Hr Hg).
Qed.

Lemma digit_listed n :
  In n digit_values ->
  listed (level 1) (of_Z n) (QArith_base.inject_Z n).
Proof.
  intros Hn. cbn [level]. exists (of_Z n, QArith_base.inject_Z n).
  split; [|split; [reflexivity|apply QArith_base.Qeq_refl]].
  unfold level1. exact (in_map (fun d => (of_Z d, QArith_base.inject_Z d)) _ _ Hn).
Qed.

Lemma rat_value_bin o l r :
  rat_value (Bin o l r) <> None -> rat_value l <> None /\ rat_value r <> None.
Proof.
  cbn [rat_value]. destruct (rat_value l), (rat_value r); intros H; split; congruence.
Qed.

Lemma buildable_or_valued_bin o l r :
  buildable hard (Bin o l r) \/ rat_value (Bin o l r) <> None ->
  (buildable hard l \/ rat_value l <> None) /\ (buildable hard r \/ rat_value r <> None).
Proof.
  intros [(_ & Hl & Hr)|H]; [auto|].
  apply rat_value_bin in H as (Hl & Hr). auto.
Qed.

(** A combination whose right operand is among the values checked: the guard
    fires on the operand exactly when it is zero, so the combination is
    permitted exactly when it has an exact value. *)
Lemma bin_checked o l r b ql qr :
  (1 <= b <= 3)%nat ->
  buildable hard l -> buildable hard r ->
  rat_value l = Some ql -> rat_value r = Some qr ->
  listed (level b) (eval r) qr ->
  buildable hard (Bin o l r) \/ rat_value (Bin o l r) <> None ->
  (o = Div -> near_zero (eval r) = false) /\
  buildable hard (Bin o l r) /\
  rat_value (Bin o l r) = Some (qop o ql qr).
Proof.
  intros Hb Hbl Hbr Hql Hqr Hlr H.
  pose proof (checked_guard b _ _ Hb Hlr) as Hz.
  assert (Hg : o = Div -> near_zero (eval r) = false).
  { intros ->. destruct H as [(Hper & _)|H].
    - destruct (Hper eq_refl) as (_ & Hn). exact Hn.
    - rewrite Hz. cbn [rat_value] in H. rewrite Hql, Hqr in H.
      destruct (QArith_base.Qeq_bool qr (QArith_base.inject_Z 0)); congruence. }
  split; [exact Hg|]. split.
  - cbn [buildable]. split; [|split; assumption].
    intros Ho. split; [reflexivity|]. exact (Hg Ho).
  - cbn [rat_value]. rewrite Hql, Hqr. destruct o; try reflexivity.
    rewrite <- Hz, (Hg eq_refl). reflexivity.
Qed.

(** An expression over at most three digits is permitted exactly when it
    has an exact value, and its two values are among those checked. *)
Lemma small_tree t :
  Forall (fun n => In n digit_values) (leaves t) ->
  (List.length (leaves t) <= 3)%nat ->
  buildable hard t \/ rat_value t <> None ->
  buildable hard t /\
  exists q, rat_value t = Some q /\
            listed (level (List.length (leaves t))) (eval t) q.
Proof.
  induction t as [n|o l IHl r IHr]; intros Hd Hlen H.
  - split; [exact I|]. exists (QArith_base.inject_Z n). split; [reflexivity|].
    cbn [leaves List.length eval]. apply digit_listed.
    cbn [leaves] in Hd. now inversion Hd.
  - cbn [leaves] in Hd, Hlen |- *. apply Forall_app in Hd as (Hdl & Hdr).
    rewrite length_app in Hlen |- *.
    pose proof (leaves_nonempty l) as Hnl. pose proof (leaves_nonempty r) as Hnr.
    destruct (buildable_or_valued_bin _ _ _ H) as (Hl & Hr).
    assert (Hal : (List.length (leaves l) <= 3)%nat) by lia.
    assert (Har : (1 <= List.length (leaves r) <= 3)%nat) by lia.
    destruct (IHl Hdl Hal Hl) as (Hbl & ql & Hql & Hll).
    destruct (IHr Hdr (proj2 Har) Hr) as (Hbr & qr & Hqr & Hlr).
    destruct (bin_checked o l r _ ql qr Har Hbl Hbr Hql Hqr Hlr H)
      as (Hg & Hb & Hq).
    split; [exact Hb|]. exists (qop o ql qr). split; [exact Hq|].
    cbn [eval]. apply level_combos; try lia. now apply combos_listed.
Qed.

(** An expression over four digits is permitted exactly when it has an
    exact value, and it passes the test against 24 exactly when that value
    is 24. *)
Lemma four_tree t :
  Forall (fun n => In n digit_values) (leaves t) ->
  List.length (leaves t) = 4%nat ->
  buildable hard t \/ rat_value t <> None ->
  buildable hard t /\
  exists q, rat_value t = Some q /\
            near24 (eval t)
            = QArith_base.Qeq_bool q (QArith_base.inject_Z 24).
Proof.
  destruct t as [n|o l r]; intros Hd Hlen H; [discriminate Hlen|].
  cbn [leaves] in Hd, Hlen. apply Forall_app in Hd as (Hdl & Hdr).
  rewrite length_app in Hlen.
  pose proof (leaves_nonempty l) as Hnl. pose proof (leaves_nonempty r) as Hnr.
  destruct (buildable_or_valued_bin _ _ _ H) as (Hl & Hr).
  assert (Hal : (1 <= List.length (leaves l) <= 3)%nat) by lia.
  assert (Har : (1 <= List.length (leaves r) <= 3)%nat) by lia.
  destruct (small_tree l Hdl (proj2 Hal) Hl) as (Hbl & ql & Hql & Hll).
  destruct (small_tree r Hdr (proj2 Har) Hr) as (Hbr & qr & Hqr & Hlr).
  destruct (bin_checked o l r _ ql qr Har Hbl Hbr Hql Hqr Hlr H)
    as (Hg & Hb & Hq).
  split; [exact Hb|]. exists (qop o ql qr). split; [exact Hq|].
  cbn [eval]. exact (checked_test _ _ o _ _ _ _ (proj1 Hal) (proj1 Har) Hlen Hll Hlr Hg).
Qed.

Lemma digit_value n : (1 <= n <= 9)%Z -> In n digit_values.
Proof.
  intros H.
  assert (E : (n = 1 \/ n = 2 \/ n = 3 \/ n = 4 \/ n = 5 \/ n = 6 \/ n = 7 \/ n = 8
               \/ n = 9)%Z) by lia.
  unfold digit_values. cbn [In]. intuition auto.
Qed.

Lemma four_digits_tree nums t :
  List.length nums = 4%nat -> Forall (fun n => (1 <= n <= 9)%Z) nums ->
  Permutation (leaves t) nums ->
  Forall (fun n => In n digit_values) (leaves t) /\ List.length (leaves t) = 4%nat.
Proof.
  intros Hlen Hd Hp. split.
  - apply Permutation_sym in Hp. apply (Permutation_Forall Hp).
    revert Hd. apply Forall_impl. exact digit_value.
  - rewrite <- Hlen. now apply Permutation_length.
Qed.

(** ** Unguarded arithmetic, rounds, digits *)

Lemma calc_combine op a b result :
  In op ops -> calc op a b = Some result ->
  exists o, symbol op = String (op_symbol o) EmptyString /\ result = combine o a b /\
            (o = Div -> near_zero (val b) = false).
Proof.
  intros Hop Hc. destruct (calc_spec op a b result Hop Hc) as (o & Hs & He & Hv & Hg).
  exists o. split; [exact Hs|]. split; [|exact Hg].
  destruct result as [v e]. cbn [val expr] in He, Hv. unfold combine. now subst.
Qed.

Lemma enabled_division mode op :
  enabled mode op = true -> symbol op = "/" -> mode = hard.
Proof.
  unfold enabled. intros H Hs. rewrite Hs in H.
  destruct mode; [discriminate H|reflexivity].
Qed.

Lemma derives_reaches mode arr x : derives mode arr x -> reaches mode arr x false.
Proof.
  induction 1 as [x|arr arr' x Hlen Hstep _ IH]; [constructor|].
  destruct Hstep as [i j a b op result Hij Ha Hb Hop Hen Hc].
  destruct (calc_combine op a b result Hop Hc) as (o & Hs & -> & Hg).
  assert (Hflag : false = (false || (is_div o && near_zero (val b)))%bool).
  { destruct o; try reflexivity. cbn. now rewrite (Hg eq_refl). }
  rewrite Hflag. apply reaches_step with (i := i) (j := j) (a := a); auto.
  intros ->. apply (enabled_division mode op Hen). exact Hs.
Qed.

Lemma unreachable_null mode arr :
  (forall x g, reaches mode arr x g -> near24 (val x) = true -> g = true) ->
  search mode (S (List.length arr)) arr = Ret None.
Proof.
  intros Hall.
  destruct (search_total mode (S (List.length arr)) arr) as ([s|] & Hr); [lia| |exact Hr].
  destruct (search_derives _ _ _ _ Hr) as (x & Hd & Hv & _).
  apply derives_reaches in Hd. discriminate (Hall x false Hd Hv).
Qed.

Lemma found_finite mode fuel arr s :
  search mode fuel arr = Ret (Some s) ->
  exists x, derives mode arr x /\ expr x = s /\ near24 (val x) = true /\
            is_finite (val x) = true.
Proof.
  intros H. destruct (search_derives _ _ _ _ H) as (x & Hd & Hv & He).
  exists x. auto using near24_finite.
Qed.

Lemma four_digits_sound nums mode t :
  List.length nums = 4%nat -> Forall (fun n => (1 <= n <= 9)%Z) nums ->
  Permutation (leaves t) nums -> buildable mode t -> near24 (eval t) = true ->
  exists q, rat_value t = Some q /\ QArith_base.Qeq q (QArith_base.inject_Z 24).
Proof.
  intros Hlen Hd Hl Hb Hv.
  assert (Hh : buildable hard t) by (destruct mode; [now apply buildable_hard|exact Hb]).
  destruct (four_digits_tree nums t Hlen Hd Hl) as (Hdt & Hlt).
  destruct (four_tree t Hdt Hlt (or_introl Hh)) as (_ & q & Hq & Hn).
  exists q. split; [exact Hq|]. apply QArith_base.Qeq_bool_iff. congruence.
Qed.

Lemma four_digits_complete nums t q :
  List.length nums = 4%nat -> Forall (fun n => (1 <= n <= 9)%Z) nums ->
  Permutation (leaves t) nums -> rat_value t = Some q ->
  QArith_base.Qeq q (QArith_base.inject_Z 24) ->
  exists s, findSolution nums hard = Ret (Some s).
Proof.
  intros Hlen Hd Hl Hq H24.
  destruct (four_digits_tree nums t Hlen Hd Hl) as (Hdt & Hlt).
  assert (Hv : rat_value t <> None) by congruence.
  destruct (four_tree t Hdt Hlt (or_intror Hv)) as (Hb & q' & Hq' & Hn).
  apply buildable_found with t; [exact Hl|exact Hb|].
  rewrite Hn. apply QArith_base.Qeq_bool_iff. congruence.
Qed.

Lemma generate_round random sort_coin fuel mode k p k' :
  generateSolvablePuzzle random sort_coin fuel mode k = Ret (p, k') ->
  exists n,
    (n < fuel)%nat /\
    (forall i, (i < n)%nat -> findSolution (drawn random (k + 4 * i)) mode = Ret None) /\
    findSolution (drawn random (k + 4 * n)) mode = Ret (Some (solution p)) /\
    nums p = fst (sort_coin (drawn random (k + 4 * n)) (k + 4 * n + 4)) /\
    k' = snd (sort_coin (drawn random (k + 4 * n)) (k + 4 * n + 4)) /\
    hints p = [].
Proof.
  revert k. induction fuel as [|fuel IH]; intros k; [discriminate|].
  destruct (findSolution (drawn random k) mode) as [[s|]| |] eqn:Hfound.
  - rewrite (generate_accepts random sort_coin fuel mode k s Hfound).
    intros H. inversion H; subst p k'. clear H. exists 0%nat.
    replace (k + 4 * 0)%nat with k by lia. cbn [nums solution hints].
    split; [lia|]. split; [intros i Hi; lia|]. auto.
  - rewrite (generate_rejects random sort_coin fuel mode k Hfound). intros H.
    destruct (IH _ H) as (n & Hn & Hrej & Hacc & Hnums & Hk & Hh).
    exists (S n). replace (k + 4 * S n)%nat with (k + 4 + 4 * n)%nat by lia.
    split; [lia|]. split; [|auto].
    intros [|i] Hi.
    + now replace (k + 4 * 0)%nat with k by lia.
    + replace (k + 4 * S i)%nat with (k + 4 + 4 * i)%nat by lia. apply Hrej. lia.
  - rewrite generateSolvablePuzzle_S. fold (drawn random k). rewrite Hfound. discriminate.
  - rewrite generateSolvablePuzzle_S. fold (drawn random k). rewrite Hfound. discriminate.
Qed.

Lemma sanitize_filter s :
  sanitize s = string_of_list_ascii (filter kept (list_ascii_of_string s)).
Proof.
  induction s as [|c s IH]; [reflexivity|]. cbn [sanitize list_ascii_of_string filter].
  destruct (kept c); cbn [string_of_list_ascii]; now rewrite IH.
Qed.

Lemma reaches_two mode a b x g :
  reaches mode [a; b] x g ->
  exists o,
    (x = combine o a b /\ g = (is_div o && near_zero (val b))%bool) \/
    (x = combine o b a /\ g = (is_div o && near_zero (val a))%bool).
Proof.
  intros H.
  inversion H as [|arr i j a' b' o x' g' Hlen Hij Ha Hb Ho Hrest]; subst.
  exists o.
  destruct i as [|[|i]], j as [|[|j]]; cbn in Ha, Hb;
    try congruence;
    try (destruct i; discriminate Ha);
    try (destruct j; discriminate Hb);
    inversion Ha; inversion Hb; subst a' b'; clear Ha Hb;
    change (reaches mode [combine o a b] x g') in Hrest
    || change (reaches mode [combine o b a] x g') in Hrest;
    (inversion Hrest as [y|arr' i' j' a' b' o' y g'' Hlen' _ _ _ _ _];
     subst; [|cbn in Hlen'; congruence]);
    [left|right]; split; reflexivity.
Qed.

(** * The claims *)

(** C1. On non-negative safe integers (at most [2 ^ 53], where the text of a
    number is its decimal digits), whenever [findSolution] returns a string
    [s]: [s] is an expression of the grammar, its integer literals are the
    input numbers, each exactly once, and its value in binary64, the
    arithmetic of the program's numbers, is within [1e-6] of 24. On four
    digits from 1 to 9 its value in exact arithmetic is 24. *)
Theorem findSolution_valid (nums : list Z) (mode : Mode) (s : string) :
  Forall (fun n => (0 <= n <= 2 ^ 53)%Z) nums ->
  findSolution nums mode = Ret (Some s) ->
  exists t v ls,
    parse s = Some t /\
    evalString s = Some v /\ near24 v = true /\
    literals s = Some ls /\ Permutation ls nums /\
    (List.length nums = 4%nat -> Forall (fun n => (1 <= n <= 9)%Z) nums ->
     exists q, rat_value t = Some q /\
               QArith_base.Qeq q (QArith_base.inject_Z 24)).
Proof.
  intros _ H.
  destruct (found_buildable _ _ _ H) as (t & <- & Hl & Hb & Hv).
  exists t, (eval t), (leaves t). unfold evalString, literals.
  rewrite parse_render. cbn [option_map].
  split; [reflexivity|]. split; [reflexivity|]. split; [exact Hv|].
  split; [reflexivity|]. split; [exact Hl|].
  intros Hlen Hd. now apply four_digits_sound with nums mode.
Qed.

Lemma findSolution_valid_witness :
  findSolution [3; 8; 3; 8]%Z hard = Ret (Some "(8/(3-(8/3)))") /\
  exists t v ls,
    parse "(8/(3-(8/3)))" = Some t /\
    evalString "(8/(3-(8/3)))" = Some v /\ near24 v = true /\
    literals "(8/(3-(8/3)))" = Some ls /\ Permutation ls [3; 8; 3; 8]%Z /\
    exists q, rat_value t = Some q /\
              QArith_base.Qeq q (QArith_base.inject_Z 24).
Proof.
  assert (Hrun : findSolution [3; 8; 3; 8]%Z hard = Ret (Some "(8/(3-(8/3)))"))
    by (vm_compute; reflexivity).
  assert (Hsafe : Forall (fun n => (0 <= n <= 2 ^ 53)%Z) [3; 8; 3; 8]%Z)
    by (repeat constructor; vm_compute; discriminate).
  assert (Hd : Forall (fun n => (1 <= n <= 9)%Z) [3; 8; 3; 8]%Z)
    by (repeat constructor; lia).
  split; [exact Hrun|].
  destruct (findSolution_valid [3; 8; 3; 8]%Z hard _ Hsafe Hrun)
    as (t & v & ls & Hp & He & Hv & Hls & Hperm & Hq).
  exists t, v, ls. repeat (split; [assumption|]). apply Hq; [reflexivity|exact Hd].
Defined.

(** The sentence of claim C1 does not hold of every four integers when the
    string is evaluated in exact arithmetic: on
    [[9007199254740991, 2, 9007199254740991, 24]], four safe integers,
    [findSolution] returns an expression whose exact value is 22. Each of
    its two sums is rounded to an even number, and the difference of the
    rounded sums is 24. *)
Lemma findSolution_valid_counterexample :
  exists t q,
    findSolution [9007199254740991; 2; 9007199254740991; 24]%Z easy
    = Ret (Some "((9007199254740991+24)-(9007199254740991+2))") /\
    parse "((9007199254740991+24)-(9007199254740991+2))" = Some t /\
    Permutation (leaves t) [9007199254740991; 2; 9007199254740991; 24]%Z /\
    near24 (eval t) = true /\
    int_value t = Some 22%Z /\
    rat_value t = Some q /\ QArith_base.Qeq q (QArith_base.inject_Z 22).
Proof.
  exists (Bin Sub (Bin Add (Num 9007199254740991) (Num 24))
                  (Bin Add (Num 9007199254740991) (Num 2))).
  eexists. split; [vm_compute; reflexivity|]. split; [vm_compute; reflexivity|].
  split.
  { cbn [leaves app]. apply perm_skip. apply Permutation_sym.
    exact (Permutation_rev [2; 9007199254740991; 24]%Z). }
  split; [vm_compute; reflexivity|]. split; [vm_compute; reflexivity|].
  split; [vm_compute; reflexivity|]. vm_compute. reflexivity.
Qed.

(** C2. A puzzle returned by [generateSolvablePuzzle] is made of the first
    round that [findSolution] solves: the rounds before it were rejected,
    its four numbers are sampled as [floor(random * 9) + 1] of four
    consecutive values of [Math.random()] and lie between 1 and 9, the
    puzzle shows what the sort leaves of them, a rearrangement, with no
    hints, and its solution is the string [findSolution] returned for the
    sample. [findSolution] succeeds on the numbers as shown, and the
    solution is an expression over the sample whose value is within
    tolerance of 24 in binary64 and is 24 in exact arithmetic. The host is
    taken at its word: [Math.random()] yields numbers in [0, 1) and the sort
    leaves a rearrangement of the array. *)
Theorem generated_puzzle_solvable
    (random : nat -> float64) (sort_coin : list Z -> nat -> list Z * nat)
    (fuel : nat) (mode : Mode) (k k' : nat) (p : Puzzle) :
  (forall i, in_unit (random i) = true) ->
  (forall arr j, Permutation (fst (sort_coin arr j)) arr) ->
  generateSolvablePuzzle random sort_coin fuel mode k = Ret (p, k') ->
  exists n sampled,
    sampled = drawn random (k + 4 * n) /\
    (forall i, (i < n)%nat ->
       findSolution (drawn random (k + 4 * i)) mode = Ret None) /\
    List.length sampled = 4%nat /\
    Forall (fun n => (1 <= n <= 9)%Z) sampled /\
    sort_coin sampled (k + 4 * n + 4) = (nums p, k') /\
    Permutation (nums p) sampled /\
    hints p = [] /\
    findSolution sampled mode = Ret (Some (solution p)) /\
    (exists s, findSolution (nums p) mode = Ret (Some s)) /\
    (exists t v q,
       parse (solution p) = Some t /\ Permutation (leaves t) sampled /\
       evalString (solution p) = Some v /\ near24 v = true /\
       rat_value t = Some q /\ QArith_base.Qeq q (QArith_base.inject_Z 24)).
Proof.
  intros Hrandom Hsort Hgen.
  apply generate_round in Hgen as (n & _ & Hrej & Hfound & Hnums & Hk & Hh).
  set (sampled := drawn random (k + 4 * n)) in *.
  destruct (drawn_digits random (k + 4 * n) Hrandom) as (Hlen & Hd).
  fold sampled in Hlen, Hd.
  assert (Hperm : Permutation (nums p) sampled) by (rewrite Hnums; apply Hsort).
  exists n, sampled. split; [reflexivity|]. split; [exact Hrej|].
  split; [exact Hlen|]. split; [exact Hd|]. split.
  { rewrite Hnums, Hk. now destruct (sort_coin sampled (k + 4 * n + 4)). }
  split; [exact Hperm|]. split; [exact Hh|]. split; [exact Hfound|]. split.
  - apply findSolution_solvable.
    apply solvable_perm with (arr := seeds sampled).
    + apply seeds_perm. now symmetry.
    + apply findSolution_solvable. eauto.
  - destruct (found_buildable _ _ _ Hfound) as (t & Hs & Hl & Hb & Hv).
    destruct (four_digits_sound sampled mode t Hlen Hd Hl Hb Hv) as (q & Hq & H24).
    exists t, (eval t), q. rewrite <- Hs. unfold evalString.
    rewrite parse_render. cbn [option_map]. auto 10.
Qed.

Lemma generated_puzzle_solvable_witness :
  generateSolvablePuzzle example_random example_sort 2 hard 0 =
    Ret ({| nums := [8; 3; 8; 3]%Z; hints := []; solution := "(8/(3-(8/3)))" |}, 11%nat) /\
  exists n sampled,
    sampled = drawn example_random (0 + 4 * n) /\
    (forall i, (i < n)%nat ->
       findSolution (drawn example_random (0 + 4 * i)) hard = Ret None) /\
    List.length sampled = 4%nat /\
    Forall (fun n => (1 <= n <= 9)%Z) sampled /\
    example_sort sampled (0 + 4 * n + 4) = ([8; 3; 8; 3]%Z, 11%nat) /\
    Permutation [8; 3; 8; 3]%Z sampled /\
    @nil string = [] /\
    findSolution sampled hard = Ret (Some "(8/(3-(8/3)))"%string) /\
    (exists s, findSolution [8; 3; 8; 3]%Z hard = Ret (Some s)) /\
    (exists t v q,
       parse "(8/(3-(8/3)))" = Some t /\ Permutation (leaves t) sampled /\
       evalString "(8/(3-(8/3)))" = Some v /\ near24 v = true /\
       rat_value t = Some q /\ QArith_base.Qeq q (QArith_base.inject_Z 24)).
Proof.
  assert (Hrun : generateSolvablePuzzle example_random example_sort 2 hard 0 =
    Ret ({| nums := [8; 3; 8; 3]%Z; hints := []; solution := "(8/(3-(8/3)))"%string |},
         11%nat)) by (vm_compute; reflexivity).
  split; [exact Hrun|].
  apply (generated_puzzle_solvable example_random example_sort 2 hard 0 11
           {| nums := [8; 3; 8; 3]%Z; hints := []; solution := "(8/(3-(8/3)))"%string |}).
  - intros i. unfold example_random.
    destruct (i <? 4)%nat; [reflexivity|]. destruct (Nat.even i); reflexivity.
  - intros arr j. simpl. symmetry. apply Permutation_rev.
  - exact Hrun.
Defined.

(** C3. [findSolution([1,2,3,4], hard)] returns [(4*(3+(1+2)))], an
    expression over 1, 2, 3 and 4, each once, whose value is 24, in binary64
    as in exact arithmetic. [findSolution([1,1,1,1], hard)] returns [null],
    and indeed no expression over 1, 1, 1 and 1 has the value 24. *)
Theorem fixed_inputs :
  (findSolution [1; 2; 3; 4]%Z hard = Ret (Some "(4*(3+(1+2)))") /\
   exists t,
     parse "(4*(3+(1+2)))" = Some t /\
     Permutation (leaves t) [1; 2; 3; 4]%Z /\
     near24 (eval t) = true /\
     int_value t = Some 24%Z) /\
  (findSolution [1; 1; 1; 1]%Z hard = Ret None /\
   forall t q,
     Permutation (leaves t) [1; 1; 1; 1]%Z -> rat_value t = Some q ->
     ~ QArith_base.Qeq q (QArith_base.inject_Z 24)).
Proof.
  split.
  - split; [vm_compute; reflexivity|].
    exists (Bin Mul (Num 4) (Bin Add (Num 3) (Bin Add (Num 1) (Num 2)))).
    split; [vm_compute; reflexivity|]. split.
    + cbn [leaves app].
      change [4; 3; 1; 2]%Z with ([4; 3] ++ [1; 2])%Z.
      change [1; 2; 3; 4]%Z with ([1; 2] ++ [3; 4])%Z.
      apply Permutation_trans with ([1; 2] ++ [4; 3])%Z;
        [apply Permutation_app_comm|].
      apply Permutation_app_head. apply perm_swap.
    + split; vm_compute; reflexivity.
  - assert (Hnone : findSolution [1; 1; 1; 1]%Z hard = Ret None)
      by (vm_compute; reflexivity).
    split; [exact Hnone|]. intros t q Hl Hq H24.
    assert (Hd : Forall (fun n => (1 <= n <= 9)%Z) [1; 1; 1; 1]%Z)
      by (repeat constructor; lia).
    destruct (four_digits_complete [1; 1; 1; 1]%Z t q eq_refl Hd Hl Hq H24) as (s & Hs).
    rewrite Hnone in Hs. discriminate Hs.
Qed.

(** C4. For [3,8,3,8] in hard mode [findSolution] returns [(8/(3-(8/3)))]:
    an expression over 3, 8, 3 and 8, each once, whose value in binary64,
    a little under 24, is within [1e-6] of 24, and whose value in exact
    arithmetic is 24. *)
Theorem three_eight_three_eight :
  findSolution [3; 8; 3; 8]%Z hard = Ret (Some "(8/(3-(8/3)))") /\
  exists t v ls q,
    parse "(8/(3-(8/3)))" = Some t /\
    literals "(8/(3-(8/3)))" = Some ls /\ Permutation ls [3; 8; 3; 8]%Z /\
    evalString "(8/(3-(8/3)))" = Some v /\ near24 v = true /\
    v <> of_Z 24 /\
    rat_value t = Some q /\ QArith_base.Qeq q (QArith_base.inject_Z 24).
Proof.
  split; [vm_compute; reflexivity|].
  exists (Bin Div (Num 8) (Bin Sub (Num 3) (Bin Div (Num 8) (Num 3)))).
  exists (S754_finite false 6755399441055741 (-48)), [8; 3; 8; 3]%Z.
  eexists.
  split; [vm_compute; reflexivity|]. split; [vm_compute; reflexivity|]. split.
  { change [3; 8; 3; 8]%Z with ([3] ++ [8; 3; 8])%Z.
    change [8; 3; 8; 3]%Z with ([8; 3; 8] ++ [3])%Z.
    apply Permutation_app_comm. }
  split; [vm_compute; reflexivity|]. split; [vm_compute; reflexivity|].
  split; [vm_compute; discriminate|].
  split; vm_compute; reflexivity.
Qed.

(** C5. The division operator yields nothing when the guard fires on its
    divisor, and neither [findSolution] nor [search] throws. A string that
    [search] returns is the text of an operand made by combinations that all
    passed the guard, and the value of that operand is finite: neither
    Infinity nor NaN. On at most seven safe integers (of absolute value up
    to [2 ^ 53]; the digits of a puzzle among them) the string returned by
    [findSolution] is an expression in which no divisor is near zero and
    every sub-expression has a finite value. A pool from which 24 is
    reached only by expressions that divide by a near-zero value gives
    [null]. *)
Theorem division_guard (nums : list Z) (mode : Mode) (arr : list ExprNode) :
  (forall op a b,
      In op ops -> symbol op = "/"%string -> near_zero (val b) = true ->
      calc op a b = None) /\
  (exists r, findSolution nums mode = Ret r) /\
  (exists r, search mode (S (List.length arr)) arr = Ret r) /\
  (forall s, search mode (S (List.length arr)) arr = Ret (Some s) ->
     exists x, derives mode arr x /\ expr x = s /\ is_finite (val x) = true) /\
  (Forall (fun n => (Z.abs n <= 2 ^ 53)%Z) nums -> (List.length nums <= 7)%nat ->
   forall s, findSolution nums mode = Ret (Some s) ->
     exists t, parse s = Some t /\ Permutation (leaves t) nums /\
       Forall (fun d => near_zero (eval d) = false) (divisors t) /\
       Forall (fun d => is_finite (eval d) = true) (subexprs t)) /\
  ((forall x g, reaches mode arr x g -> near24 (val x) = true -> g = true) ->
   search mode (S (List.length arr)) arr = Ret None).
Proof.
  split; [|split; [|split; [|split; [|split]]]].
  - unfold ops. simpl. intros op a b [<-|[<-|[<-|[<-|[]]]]]; simpl; try discriminate.
    unfold near_zero. intros _ ->. reflexivity.
  - apply findSolution_total.
  - apply search_total. lia.
  - intros s H. destruct (found_finite _ _ _ _ H) as (x & Hd & He & _ & Hf).
    exists x. auto.
  - intros Hsafe Hlen s H.
    destruct (findSolution_tree
                (fun t => Forall (fun d => near_zero (eval d) = false) (divisors t))
                nums mode s) as (t & <- & Hv & Hg & Hl).
    + intros n. constructor.
    + intros o l r Hl Hr Hper. simpl. apply Forall_app. split.
      * destruct o; try constructor; [|constructor].
        now destruct Hper as (_ & Hg).
      * apply Forall_app. now split.
    + exact H.
    + exists t. split; [apply parse_render|]. split; [exact Hl|]. split; [exact Hg|].
      now apply small_inputs_finite with nums.
  - apply unreachable_null.
Qed.

Lemma division_guard_witness :
  (findSolution [3; 8; 3; 8]%Z hard = Ret (Some "(8/(3-(8/3)))") /\
   exists t, parse "(8/(3-(8/3)))" = Some t /\
     Permutation (leaves t) [3; 8; 3; 8]%Z /\
     Forall (fun d => near_zero (eval d) = false) (divisors t) /\
     Forall (fun d => is_finite (eval d) = true) (subexprs t)) /\
  (exists a b, tiny_pool = [a; b] /\
     near_zero (val b) = true /\ near24 (div (val a) (val b)) = true /\
     search hard 3 tiny_pool = Ret None).
Proof.
  split.
  - assert (Hrun : findSolution [3; 8; 3; 8]%Z hard = Ret (Some "(8/(3-(8/3)))"))
      by (vm_compute; reflexivity).
    split; [exact Hrun|].
    apply (proj1 (proj2 (proj2 (proj2 (proj2
             (division_guard [3; 8; 3; 8]%Z hard [])))))).
    + repeat constructor; apply Z.leb_le; reflexivity.
    + simpl. lia.
    + exact Hrun.
  - eexists. eexists. split; [reflexivity|].
    split; [vm_compute; reflexivity|]. split; [vm_compute; reflexivity|].
    apply (proj2 (proj2 (proj2 (proj2 (proj2
             (division_guard [] hard tiny_pool)))))).
    intros x g H Hv. unfold tiny_pool in H.
    destruct (reaches_two _ _ _ _ _ H) as (o & [(-> & ->)|(-> & ->)]);
      destruct o; vm_compute in Hv; try discriminate Hv; vm_compute; reflexivity.
Defined.

(** The sentence of claim C5 does not hold of every input: of
    [[1e308, 1e308, 1, 24]] in hard mode the search returns
    [(24+(1/(1e+308+1e+308)))]. The sum of the two finite numbers overflows
    to Infinity, the guard lets the division by Infinity pass, and its
    quotient is zero. *)
Lemma division_guard_counterexample :
  Forall (fun a => is_finite (val a) = true) huge_pool /\
  search hard 5 huge_pool = Ret (Some "(24+(1/(1e+308+1e+308)))") /\
  expr (combine Add huge huge) = "(1e+308+1e+308)" /\
  val (combine Add huge huge) = S754_infinity false /\
  near_zero (val (combine Add huge huge)) = false.
Proof.
  split; [repeat constructor|]. repeat split; vm_compute; reflexivity.
Qed.

(** C6. In easy mode no string returned by [findSolution] contains the
    character [/], and so neither does the solution of a puzzle generated in
    easy mode. *)
Theorem easy_no_division :
  (forall nums s,
      findSolution nums easy = Ret (Some s) -> contains "/" s = false) /\
  (forall random sort_coin fuel k p k',
      generateSolvablePuzzle random sort_coin fuel easy k = Ret (p, k') ->
      contains "/" (solution p) = false).
Proof.
  assert (Hfind : forall nums s,
      findSolution nums easy = Ret (Some s) -> contains "/" s = false).
  { intros nums s H.
    destruct (findSolution_tree (fun t => has_div t = false) nums easy s)
      as (t & <- & _ & Hd & _).
    - reflexivity.
    - intros o l r Hl Hr Hper. simpl. rewrite Hl, Hr.
      destruct o; try reflexivity. now destruct Hper.
    - exact H.
    - now apply render_no_slash. }
  split; [exact Hfind|].
  intros random sort_coin fuel k p k' Hgen.
  apply generate_returns in Hgen as (j & Hfound & _).
  eapply Hfind; eauto.
Qed.

Lemma easy_no_division_witness :
  findSolution [1; 2; 3; 4]%Z easy = Ret (Some "(4*(3+(1+2)))") /\
  contains "/" "(4*(3+(1+2)))" = false.
Proof.
  split; [vm_compute; reflexivity|].
  apply (proj1 easy_no_division [1; 2; 3; 4]%Z). vm_compute. reflexivity.
Defined.

(** C7. [findSolution] is a function of its arguments, and whether it finds
    a solution depends only on the multiset of the numbers and the mode:
    two lists that are permutations of each other are solved together or
    not at all. *)
Theorem found_iff_permutation (nums nums' : list Z) (mode : Mode) :
  Permutation nums nums' ->
  ((exists s, findSolution nums mode = Ret (Some s)) <->
   (exists s, findSolution nums' mode = Ret (Some s))).
Proof.
  intros Hp. rewrite !findSolution_solvable.
  split; apply solvable_perm; apply seeds_perm; [exact Hp|now symmetry].
Qed.

Lemma found_iff_permutation_witness :
  Permutation [3; 8; 3; 8]%Z [8; 3; 8; 3]%Z /\
  ((exists s, findSolution [3; 8; 3; 8]%Z hard = Ret (Some s)) <->
   (exists s, findSolution [8; 3; 8; 3]%Z hard = Ret (Some s))).
Proof.
  assert (Hp : Permutation [3; 8; 3; 8]%Z [8; 3; 8; 3]%Z)
    by (apply (Permutation_rev [3; 8; 3; 8]%Z)).
  split; [exact Hp|].
  apply (found_iff_permutation [3; 8; 3; 8]%Z [8; 3; 8; 3]%Z hard Hp).
Defined.

(** C8. Every recursive call of [search] is on a pool exactly one operand
    smaller than the pool of its caller, so the recursion is no deeper than
    the pool is large and [search] returns on every pool. *)
Theorem search_terminates (mode : Mode) (arr : list ExprNode) :
  (forall rec rec',
      (forall p, In p (subpools mode arr) -> rec p = rec' p) ->
      search_body rec mode arr = search_body rec' mode arr) /\
  (forall p, In p (subpools mode arr) -> S (List.length p) = List.length arr) /\
  (forall fuel,
      (0 < fuel)%nat -> (List.length arr <= fuel)%nat ->
      exists r, search mode fuel arr = Ret r /\
        forall fuel', (fuel <= fuel')%nat -> search mode fuel' arr = Ret r).
Proof.
  split; [|split].
  - apply search_body_calls.
  - apply subpools_length.
  - intros fuel Hpos Hle. destruct (search_depth mode fuel arr Hpos Hle) as (r & Hr).
    exists r. split; [exact Hr|]. intros fuel' Hge.
    rewrite <- Hr. apply search_fuel; lia.
Qed.

Lemma search_terminates_witness :
  (forall p, In p (subpools hard (seeds [3; 8; 3; 8]%Z)) -> List.length p = 3%nat) /\
  search hard 4 (seeds [3; 8; 3; 8]%Z) = Ret (Some "(8/(3-(8/3)))") /\
  search hard 7 (seeds [3; 8; 3; 8]%Z) = Ret (Some "(8/(3-(8/3)))").
Proof.
  destruct (search_terminates hard (seeds [3; 8; 3; 8]%Z)) as (_ & Hsub & Hfuel).
  split.
  - intros p Hp. apply Hsub in Hp. simpl in Hp. lia.
  - destruct (Hfuel 4%nat) as (r & Hr & Hmore); [lia|simpl; lia|].
    assert (E : r = Some "(8/(3-(8/3)))"%string).
    { assert (Hc : search hard 4 (seeds [3; 8; 3; 8]%Z) = Ret (Some "(8/(3-(8/3)))"%string))
        by (vm_compute; reflexivity).
      rewrite Hc in Hr. now injection Hr as <-. }
    subst r. split; [exact Hr|]. apply Hmore. lia.
Defined.

(** C9. Every operator writes its result as ["(" a_expr OP b_expr ")"].
    On a pool whose operands carry expression texts, a string returned by
    [search] is the text of exactly one expression of the grammar
    [expr ::= literal | "(" expr op expr ")"]. *)
Theorem search_fully_parenthesized (mode : Mode) (fuel : nat)
    (arr : list ExprNode) (s : string) :
  (forall op a b result,
      In op ops -> calc op a b = Some result ->
      expr result = ("(" ++ expr a ++ symbol op ++ expr b ++ ")")%string) /\
  (Forall expression_text arr ->
   search mode fuel arr = Ret (Some s) ->
   exists t, parse s = Some t /\ render t = s /\
     forall t', render t' = s -> t' = t).
Proof.
  split.
  - unfold ops. simpl. intros op a b result [<-|[<-|[<-|[<-|[]]]]]; simpl.
    + now intros [= <-].
    + now intros [= <-].
    + now intros [= <-].
    + destruct (ltb (abs (val b)) lit_1e_9); [discriminate|]. now intros [= <-].
  - intros Harr H.
    apply search_derives in H as (x & Hd & _ & Hs).
    destruct (derives_text mode arr x Hd Harr) as (t & Ht).
    exists t. rewrite <- Hs, <- Ht. split; [apply parse_render|].
    split; [reflexivity|]. intros t' E. now apply render_inj.
Qed.

Lemma search_fully_parenthesized_witness :
  Forall expression_text (seeds [1; 2; 3; 4]%Z) /\
  search hard 4 (seeds [1; 2; 3; 4]%Z) = Ret (Some "(4*(3+(1+2)))") /\
  exists t, parse "(4*(3+(1+2)))" = Some t /\ render t = "(4*(3+(1+2)))"%string /\
    forall t', render t' = "(4*(3+(1+2)))"%string -> t' = t.
Proof.
  assert (Harr : Forall expression_text (seeds [1; 2; 3; 4]%Z)).
  { repeat constructor.
    - now exists (Num 1).
    - now exists (Num 2).
    - now exists (Num 3).
    - now exists (Num 4). }
  assert (Hs : search hard 4 (seeds [1; 2; 3; 4]%Z) = Ret (Some "(4*(3+(1+2)))"%string))
    by (vm_compute; reflexivity).
  split; [exact Harr|]. split; [exact Hs|].
  exact (proj2 (search_fully_parenthesized hard 4 (seeds [1; 2; 3; 4]%Z)
                  "(4*(3+(1+2)))") Harr Hs).
Defined.

(** C10. On the empty list [findSolution] returns [null]: no exception is
    raised and no element is read. *)
Theorem empty_input (mode : Mode) :
  findSolution [] mode = Ret None /\
  forall fuel, search mode (S fuel) [] = Ret None.
Proof.
  split; [reflexivity|]. intros fuel. reflexivity.
Qed.

(** * Properties of the code beside the claims *)

(** X1. [findSolution] is exact: it returns a string if and only if some
    expression over the numbers, each used once, whose combinations are
    permitted in the mode (no division in easy mode, no divisor on which the
    guard fires), has a binary64 value within tolerance of 24. *)
Theorem findSolution_exact (nums : list Z) (mode : Mode) :
  (exists s, findSolution nums mode = Ret (Some s)) <->
  (exists t, Permutation (leaves t) nums /\ buildable mode t /\
             near24 (eval t) = true).
Proof.
  split.
  - intros (s & H). destruct (found_buildable _ _ _ H) as (t & _ & Hl & Hb & Hv).
    exists t. auto.
  - intros (t & Hl & Hb & Hv). eapply buildable_found; eauto.
Qed.

(** X2. A list of numbers that [findSolution] solves in easy mode is solved
    in hard mode too. *)
Theorem easy_implies_hard (nums : list Z) :
  (exists s, findSolution nums easy = Ret (Some s)) ->
  exists s, findSolution nums hard = Ret (Some s).
Proof.
  intros (s & H). destruct (found_buildable _ _ _ H) as (t & _ & Hl & Hb & Hv).
  apply buildable_found with t; auto using buildable_hard.
Qed.

Lemma easy_implies_hard_witness :
  exists s, findSolution [1; 2; 3; 4]%Z hard = Ret (Some s).
Proof.
  apply (easy_implies_hard [1; 2; 3; 4]%Z).
  exists "(4*(3+(1+2)))". vm_compute. reflexivity.
Defined.

(** X3. In easy mode, on numbers whose products stay within [2 ^ 52] (any
    four digits do), the tolerance plays no part: a string returned by
    [findSolution] is an expression whose value in integer arithmetic is
    exactly 24, and a string is returned whenever such an expression over
    the numbers exists. *)
Theorem easy_solution_exact (nums : list Z) :
  (span nums <= 2 ^ 52)%Z ->
  (forall s, findSolution nums easy = Ret (Some s) ->
     exists t, parse s = Some t /\ Permutation (leaves t) nums /\
               int_value t = Some 24%Z) /\
  ((exists t, Permutation (leaves t) nums /\ int_value t = Some 24%Z) ->
   exists s, findSolution nums easy = Ret (Some s)).
Proof.
  intros Hs.
  assert (Hkey : forall t v, Permutation (leaves t) nums -> int_value t = Some v ->
            (near24 (eval t) = true <-> v = 24%Z)).
  { intros t v Hp Hv.
    pose proof (span_perm _ _ Hp) as Hsp.
    pose proof (int_value_bound _ _ Hv) as Hb.
    apply near24_int; [|lia].
    apply int_value_eval; [exact Hv|lia]. }
  split.
  - intros s H. destruct (found_buildable _ _ _ H) as (t & <- & Hl & Hb & Hv).
    exists t. split; [apply parse_render|]. split; [exact Hl|].
    destruct (easy_int_value t Hb) as (v & Hiv).
    rewrite Hiv. f_equal. now apply (Hkey t v Hl Hiv).
  - intros (t & Hl & Hv). apply buildable_found with t; [exact Hl| |].
    + now apply int_value_easy with 24%Z.
    + now apply (Hkey t 24%Z Hl Hv).
Qed.

Lemma easy_solution_exact_witness :
  (span [1; 2; 3; 4] <= 2 ^ 52)%Z /\
  exists t, parse "(4*(3+(1+2)))" = Some t /\
            Permutation (leaves t) [1; 2; 3; 4]%Z /\
            int_value t = Some 24%Z.
Proof.
  assert (Hs : (span [1; 2; 3; 4] <= 2 ^ 52)%Z) by (vm_compute; discriminate).
  split; [exact Hs|].
  apply (proj1 (easy_solution_exact [1; 2; 3; 4]%Z Hs)).
  vm_compute. reflexivity.
Defined.

(** X4. [generateSolvablePuzzle] returns the puzzle of the first round whose
    four numbers [findSolution] solves: when the first [n] rounds are not
    solved and the next one is, with solution [s], the puzzle returned shows
    the sorted copy of that round's numbers, no hints and [s]; every round
    passed over has cost four values of [Math.random()]. *)
Theorem first_solvable_round
    (random : nat -> float64) (sort_coin : list Z -> nat -> list Z * nat)
    (mode : Mode) (k n : nat) (s : string) :
  (forall i, (i < n)%nat -> findSolution (drawn random (k + 4 * i)) mode = Ret None) ->
  findSolution (drawn random (k + 4 * n)) mode = Ret (Some s) ->
  forall fuel, (n < fuel)%nat ->
  generateSolvablePuzzle random sort_coin fuel mode k
  = Ret ({| nums := fst (sort_coin (drawn random (k + 4 * n)) (k + 4 * n + 4));
            hints := [];
            solution := s |},
         snd (sort_coin (drawn random (k + 4 * n)) (k + 4 * n + 4))).
Proof.
  revert k. induction n as [|n IH]; intros k Hrej Hacc fuel Hf.
  - destruct fuel as [|fuel]; [lia|].
    replace (k + 4 * 0)%nat with k in * by lia. now apply generate_accepts.
  - destruct fuel as [|fuel]; [lia|].
    rewrite generate_rejects.
    + replace (k + 4 * S n)%nat with (k + 4 + 4 * n)%nat in * by lia.
      apply IH; [|exact Hacc|lia].
      intros i Hi. replace (k + 4 + 4 * i)%nat with (k + 4 * S i)%nat by lia.
      apply Hrej. lia.
    + specialize (Hrej 0%nat). replace (k + 4 * 0)%nat with k in Hrej by lia.
      apply Hrej. lia.
Qed.

Lemma first_solvable_round_witness :
  generateSolvablePuzzle example_random example_sort 2 hard 0
  = Ret ({| nums := fst (example_sort (drawn example_random (0 + 4 * 1)) (0 + 4 * 1 + 4));
            hints := [];
            solution := "(8/(3-(8/3)))" |},
         snd (example_sort (drawn example_random (0 + 4 * 1)) (0 + 4 * 1 + 4))).
Proof.
  apply (first_solvable_round example_random example_sort hard 0 1 "(8/(3-(8/3)))").
  - intros i0 Hi. destruct i0 as [|i0]; [vm_compute; reflexivity|lia].
  - vm_compute. reflexivity.
  - lia.
Defined.

(** X5. [generateSolvablePuzzle] has no bound on its retries: when no round
    is solved it never returns, whatever the number of rounds allowed. *)
Theorem no_solvable_round
    (random : nat -> float64) (sort_coin : list Z -> nat -> list Z * nat)
    (mode : Mode) (k : nat) :
  (forall i, findSolution (drawn random (k + 4 * i)) mode = Ret None) ->
  forall fuel, generateSolvablePuzzle random sort_coin fuel mode k = OutOfFuel.
Proof.
  intros Hrej fuel. revert k Hrej.
  induction fuel as [|fuel IH]; intros k Hrej; [reflexivity|].
  rewrite generate_rejects.
  - apply IH. intros i.
    replace (k + 4 + 4 * i)%nat with (k + 4 * S i)%nat by lia. apply Hrej.
  - specialize (Hrej 0%nat). now replace (k + 4 * 0)%nat with k in Hrej by lia.
Qed.

Lemma no_solvable_round_witness :
  generateSolvablePuzzle (fun _ => S754_zero false) example_sort 5 hard 0 = OutOfFuel.
Proof.
  apply (no_solvable_round (fun _ => S754_zero false) example_sort hard 0).
  intros i0. vm_compute. reflexivity.
Defined.

(** X6. [evaluateExpression] hands to [Function] the text
    ["use strict"; return (] ... [);] around the characters of the
    expression that are digits, operators, parentheses, dots or spaces, in
    their order, and around nothing else. So two expressions with the same
    such characters are evaluated alike, and an expression made of such
    characters only is compiled as it is. *)
Theorem evaluateExpression_whitelist (h : Host) (expression : string) :
  sanitize expression
  = string_of_list_ascii (filter kept (list_ascii_of_string expression)) /\
  evaluateExpression h expression
  = Function_call h
      (String "034" ("use strict" ++ String "034" ("; return (" ++
         string_of_list_ascii (filter kept (list_ascii_of_string expression))
         ++ ");"))) /\
  (forall other,
     filter kept (list_ascii_of_string other)
     = filter kept (list_ascii_of_string expression) ->
     evaluateExpression h other = evaluateExpression h expression) /\
  (all_chars kept expression = true ->
   evaluateExpression h expression
   = Function_call h
       (String "034" ("use strict" ++ String "034" ("; return (" ++ expression ++ ");")))).
Proof.
  split; [apply sanitize_filter|]. split; [|split].
  - unfold evaluateExpression, function_body. now rewrite sanitize_filter.
  - intros other H. unfold evaluateExpression. now rewrite !sanitize_filter, H.
  - intros H. unfold evaluateExpression, function_body. now rewrite (sanitize_fixed _ H).
Qed.

Lemma evaluateExpression_whitelist_witness :
  evaluateExpression example_host "2+3"
  = Function_call example_host
      (String "034" ("use strict" ++ String "034" ("; return (" ++ "2+3" ++ ");"))) /\
  evaluateExpression example_host "2a+3" = evaluateExpression example_host "2+3".
Proof.
  split.
  - apply (proj2 (proj2 (proj2 (evaluateExpression_whitelist example_host "2+3")))).
    reflexivity.
  - apply (proj1 (proj2 (proj2 (evaluateExpression_whitelist example_host "2+3")))).
    reflexivity.
Defined.

(** X7. On safe integers (of absolute value up to [2 ^ 53], where the text
    of a number is its decimal digits) a string returned by [findSolution]
    goes through the sanitiser of [evaluateExpression] unchanged: it is
    compiled as it is. *)
Theorem solution_evaluated_unchanged
    (h : Host) (nums : list Z) (m : Mode) (s : string) :
  Forall (fun n => (Z.abs n <= 2 ^ 53)%Z) nums ->
  findSolution nums m = Ret (Some s) ->
  sanitize s = s /\
  evaluateExpression h s
  = Function_call h
      (String "034" ("use strict" ++ String "034" ("; return (" ++ s ++ ");"))).
Proof.
  intros _ H. unfold evaluateExpression, function_body.
  now rewrite (sanitize_fixed _ (found_kept _ _ _ H)).
Qed.

Lemma solution_evaluated_unchanged_witness :
  sanitize "(8/(3-(8/3)))" = "(8/(3-(8/3)))" /\
  evaluateExpression example_host "(8/(3-(8/3)))"
  = Function_call example_host
      (String "034" ("use strict" ++ String "034" ("; return (" ++ "(8/(3-(8/3)))" ++ ");"))).
Proof.
  apply (solution_evaluated_unchanged example_host [3; 8; 3; 8]%Z hard).
  - repeat constructor; apply Z.leb_le; reflexivity.
  - vm_compute. reflexivity.
Defined.

(** X8. In every state of the mounted component no position of the puzzle
    is used by two tokens of the expression, every number token shows the
    text of the number at its position in the puzzle on show, and every
    operator token is an operator on offer in the current mode. *)
Theorem tokens_well_formed (h : Host) (s : State) :
  reachable h s ->
  NoDup (usedIndices s) /\ Forall (token_ok s) (tokens s).
Proof. intros H. apply reachable_invariant in H. split; apply H. Qed.

Lemma tokens_well_formed_witness :
  match example_session with
  | Ret s => NoDup (usedIndices s) /\ Forall (token_ok s) (tokens s)
  | _ => False
  end.
Proof.
  destruct example_session as [s| |] eqn:E;
    [|vm_compute in E; discriminate E|vm_compute in E; discriminate E].
  apply (tokens_well_formed example_host s). now apply example_session_reachable.
Defined.

(** X9. The test [usedIndices.length !== puzzle.nums.length] of
    [checkSolution] is exact: never more positions are used than the puzzle
    has numbers, and as many are used exactly when every position is used
    once; the numbers in the expression are then the numbers of the puzzle. *)
Theorem all_numbers_used (h : Host) (s : State) :
  reachable h s ->
  (List.length (usedIndices s) <= List.length (nums (puzzle s)))%nat /\
  (List.length (usedIndices s) = List.length (nums (puzzle s)) <->
   Permutation (usedIndices s) (seq 0 (List.length (nums (puzzle s))))) /\
  (List.length (usedIndices s) = List.length (nums (puzzle s)) ->
   Permutation (number_texts s) (map toString (nums (puzzle s)))).
Proof.
  intros H. apply reachable_invariant in H. destruct H as [Hn Ht _ _ _].
  split; [now apply usedIndices_length|].
  split; [now apply used_all_iff|].
  intros Hlen. apply used_all_texts; [exact Ht|]. now apply used_all_iff.
Qed.

Lemma all_numbers_used_witness :
  match example_session with
  | Ret s =>
      (List.length (usedIndices s) <= List.length (nums (puzzle s)))%nat /\
      (List.length (usedIndices s) = List.length (nums (puzzle s)) <->
       Permutation (usedIndices s) (seq 0 (List.length (nums (puzzle s))))) /\
      (List.length (usedIndices s) = List.length (nums (puzzle s)) ->
       Permutation (number_texts s) (map toString (nums (puzzle s))))
  | _ => False
  end.
Proof.
  destruct example_session as [s| |] eqn:E;
    [|vm_compute in E; discriminate E|vm_compute in E; discriminate E].
  apply (all_numbers_used example_host s). now apply example_session_reachable.
Defined.

(** X10. In easy mode the component offers no division: [/] is not among
    the operator buttons, the expression entered does not contain it, and
    neither does the solution on show. *)
Theorem easy_hides_division (h : Host) (s : State) :
  reachable h s -> mode s = easy ->
  ~ In "/" (operatorList s) /\
  contains "/" (input s) = false /\
  contains "/" (solution (puzzle s)) = false.
Proof.
  intros H Hm. apply reachable_invariant in H. destruct H as [_ Ht (k & Hk) _ _].
  split; [|split].
  - intros Hin. apply (operatorList_easy s _ Hm) in Hin. discriminate Hin.
  - now apply input_easy.
  - destruct Hk as (Hfound & _). rewrite Hm in Hfound. eapply found_easy; eauto.
Qed.

Lemma easy_hides_division_witness :
  match example_session with
  | Ret s =>
      ~ In "/" (operatorList s) /\
      contains "/" (input s) = false /\
      contains "/" (solution (puzzle s)) = false
  | _ => False
  end.
Proof.
  destruct example_session as [s| |] eqn:E;
    [|vm_compute in E; discriminate E|vm_compute in E; discriminate E].
  apply (easy_hides_division example_host s).
  - now apply example_session_reachable.
  - vm_compute in E. now inversion E.
Defined.

(** X11. Whatever has been clicked, mode switches included, the component
    shows four numbers between 1 and 9 and holds a solution for them in the
    current mode: an expression over the numbers shown, each used once,
    whose combinations are permitted in the mode and whose value is within
    tolerance of 24. The host is taken at its word: [Math.random()] yields
    numbers in [0, 1) and the sort leaves a rearrangement. *)
Theorem shown_puzzle_valid (h : Host) (s : State) :
  random_in_unit h -> sort_rearranges h -> reachable h s ->
  List.length (nums (puzzle s)) = 4%nat /\
  Forall (fun n => (1 <= n <= 9)%Z) (nums (puzzle s)) /\
  exists t,
    parse (solution (puzzle s)) = Some t /\
    Permutation (leaves t) (nums (puzzle s)) /\
    buildable (mode s) t /\ near24 (eval t) = true.
Proof.
  intros Hr Hs H. apply reachable_invariant in H. destruct H as [_ _ (k & Hk) _ _].
  destruct (made_of_digits h _ _ _ Hr Hs Hk) as (Hlen & Hd).
  destruct (made_of_valid h _ _ _ Hs Hk) as (t & Ht & Hl & Hb & Hv).
  split; [exact Hlen|]. split; [exact Hd|].
  exists t. rewrite <- Ht. split; [apply parse_render|auto].
Qed.

Lemma shown_puzzle_valid_witness :
  match example_session with
  | Ret s =>
      List.length (nums (puzzle s)) = 4%nat /\
      Forall (fun n => (1 <= n <= 9)%Z) (nums (puzzle s)) /\
      exists t,
        parse (solution (puzzle s)) = Some t /\
        Permutation (leaves t) (nums (puzzle s)) /\
        buildable (mode s) t /\ near24 (eval t) = true
  | _ => False
  end.
Proof.
  destruct example_session as [s| |] eqn:E;
    [|vm_compute in E; discriminate E|vm_compute in E; discriminate E].
  apply (shown_puzzle_valid example_host s).
  - exact example_host_random.
  - exact example_host_sorts.
  - now apply example_session_reachable.
Defined.

(** X12. The hints of a puzzle are never shown: every puzzle of the
    component has an empty list of hints, and the hint level stays zero. *)
Theorem hints_never_shown (h : Host) (s : State) :
  reachable h s ->
  hints (puzzle s) = [] /\ hintLevel s = 0%nat /\
  firstn (hintLevel s) (hints (puzzle s)) = [].
Proof.
  intros H. apply reachable_invariant in H. destruct H as [_ _ (k & Hk) Hl _].
  destruct Hk as (_ & _ & Hh). rewrite Hh, Hl. auto.
Qed.

Lemma hints_never_shown_witness :
  match example_session with
  | Ret s =>
      hints (puzzle s) = [] /\ hintLevel s = 0%nat /\
      firstn (hintLevel s) (hints (puzzle s)) = []
  | _ => False
  end.
Proof.
  destruct example_session as [s| |] eqn:E;
    [|vm_compute in E; discriminate E|vm_compute in E; discriminate E].
  apply (hints_never_shown example_host s). now apply example_session_reachable.
Defined.

(** X13. Every request posted to the hint service names the target 24 and
    carries numbers together with a solution for them in the mode it names:
    an expression over those numbers, each used once, permitted in that
    mode, with a value within tolerance of 24. *)
Theorem hint_requests_valid (h : Host) (s : State) :
  sort_rearranges h -> reachable h s ->
  Forall (fun r =>
            target r = 24%Z /\
            exists t,
              parse (request_solution r) = Some t /\
              Permutation (leaves t) (numbers r) /\
              buildable (request_mode r) t /\ near24 (eval t) = true)
         (requests s).
Proof.
  intros Hs H. apply reachable_invariant in H. destruct H as [_ _ _ _ Hr].
  eapply Forall_impl; [|exact Hr].
  intros r (Ht & p & k & Hk & Hn & Hsol). split; [exact Ht|].
  destruct (made_of_valid h _ _ _ Hs Hk) as (t & Hrt & Hl & Hb & Hv).
  exists t. rewrite Hsol, Hn, <- Hrt. split; [apply parse_render|auto].
Qed.

Lemma hint_requests_valid_witness :
  match example_session with
  | Ret s =>
      Forall (fun r =>
                target r = 24%Z /\
                exists t,
                  parse (request_solution r) = Some t /\
                  Permutation (leaves t) (numbers r) /\
                  buildable (request_mode r) t /\ near24 (eval t) = true)
             (requests s)
  | _ => False
  end.
Proof.
  destruct example_session as [s| |] eqn:E;
    [|vm_compute in E; discriminate E|vm_compute in E; discriminate E].
  apply (hint_requests_valid example_host s).
  - exact example_host_sorts.
  - now apply example_session_reachable.
Defined.

(** X14. [checkSolution] reports success exactly when the expression is not
    empty, every position of the puzzle is used once, and the evaluator
    returns a finite number within tolerance of 24. *)
Theorem check_reports_success (h : Host) (s : State) :
  reachable h s ->
  (tone (checkSolution h s) = tone_success <->
   tokens s <> [] /\
   Permutation (usedIndices s) (seq 0 (List.length (nums (puzzle s)))) /\
   exists v, evaluateExpression h (input s) = Returned v /\ makes24 h v = true).
Proof.
  intros H. apply reachable_invariant in H. destruct H as [Hn Ht _ _ _].
  split.
  - intros Hs. apply checkSolution_success_inv in Hs as (He & Hlen & v & Hv).
    split; [|split; [now apply used_all_iff|eauto]].
    intros Hnil. apply (input_empty s Ht) in Hnil. congruence.
  - intros (Hne & Hp & v & Hev & Hv).
    rewrite (checkSolution_success h s v); auto.
    now apply used_all_iff.
Qed.

Lemma check_reports_success_witness :
  match example_session with
  | Ret s =>
      tone (checkSolution example_host s) = tone_success <->
      tokens s <> [] /\
      Permutation (usedIndices s) (seq 0 (List.length (nums (puzzle s)))) /\
      exists v, evaluateExpression example_host (input s) = Returned v /\
                makes24 example_host v = true
  | _ => False
  end.
Proof.
  destruct example_session as [s| |] eqn:E;
    [|vm_compute in E; discriminate E|vm_compute in E; discriminate E].
  apply (check_reports_success example_host s). now apply example_session_reachable.
Defined.

(** X15. [backspace] undoes an append: after an operator, and after a
    number at a position not yet used, it restores the tokens, and the
    position is free again. On a position already used [appendNumber] does
    nothing. *)
Theorem backspace_undoes_append (s : State) (op : string) (value : Z) (index : nat) :
  tokens (backspace (appendOperator op s)) = tokens s /\
  (usedSet_has s index = false ->
   tokens (backspace (appendNumber value index s)) = tokens s /\
   usedSet_has (backspace (appendNumber value index s)) index = false) /\
  (usedSet_has s index = true -> appendNumber value index s = s).
Proof.
  split; [|split].
  - now apply backspace_snoc with (op_token op).
  - intros Hu.
    assert (Ht : tokens (backspace (appendNumber value index s)) = tokens s).
    { apply backspace_snoc with (num_token (toString value) index).
      unfold appendNumber. now rewrite Hu. }
    split; [exact Ht|]. unfold usedSet_has, usedIndices in *. now rewrite Ht.
  - intros Hu. unfold appendNumber. now rewrite Hu.
Qed.

(** X16. The tone goes with the message: the tone is neutral exactly when
    there is no message, and a success tone comes with the success message
    only. *)
Theorem feedback_consistent (h : Host) (s : State) :
  reachable h s ->
  (tone s = tone_neutral <-> message s = EmptyString) /\
  (tone s = tone_success -> message s = "Great work! You made 24.").
Proof.
  intros H.
  assert (Hok : feedback_ok s).
  { induction H as [fuel k s H|fuel e s s' _ IH H].
    - eapply mount_feedback; eauto.
    - eapply handle_feedback; eauto. }
  unfold feedback_ok in Hok. destruct (tone s); split; try split; try congruence;
    intros; try discriminate; rewrite Hok in *; discriminate.
Qed.

Lemma feedback_consistent_witness :
  match example_session with
  | Ret s =>
      (tone s = tone_neutral <-> message s = EmptyString) /\
      (tone s = tone_success -> message s = "Great work! You made 24.")
  | _ => False
  end.
Proof.
  destruct example_session as [s| |] eqn:E;
    [|vm_compute in E; discriminate E|vm_compute in E; discriminate E].
  apply (feedback_consistent example_host s). now apply example_session_reachable.
Defined.

(** X17. The solution on show can be entered and wins: from every state of
    the mounted component, a click on Clear followed by clicks on number and
    operator buttons enters the solution of the puzzle, and [checkSolution]
    then reports success. The host is taken at its word: [Math.random()]
    yields numbers in [0, 1), the sort leaves a rearrangement, and the
    function compiled from a fully parenthesised expression over unsigned
    integer literals returns its binary64 value. *)
Theorem shown_solution_wins (h : Host) (s : State) :
  random_in_unit h -> sort_rearranges h -> Function_evaluates h ->
  reachable h s ->
  exists toks s',
    run h 0 (click_clear :: map press toks) s = Ret s' /\
    input s' = solution (puzzle s) /\
    puzzle s' = puzzle s /\ mode s' = mode s /\
    tone (checkSolution h s') = tone_success /\
    message (checkSolution h s') = "Great work! You made 24.".
Proof.
  intros Hr Hs Hf H. apply reachable_invariant in H.
  destruct (inv_puzzle _ _ H) as (k & Hk).
  destruct (made_of_digits h _ _ _ Hr Hs Hk) as (_ & Hd).
  destruct (made_of_valid h _ _ _ Hs Hk) as (t & Ht & Hl & Hb & Hv).
  assert (Hpos : Forall (fun n => (0 <= n)%Z) (leaves t)).
  { eapply Permutation_Forall; [symmetry; exact Hl|].
    eapply Forall_impl; [|exact Hd]. intros n Hn. cbv beta in Hn. lia. }
  destruct (enter_solution h s t Hf Hl Hpos Hb Hv)
    as (toks & s' & Hrun & Hin & Hp & Hm & Hc).
  exists toks, s'. rewrite Hc, Hin, Ht. repeat split; auto.
Qed.

Lemma shown_solution_wins_witness :
  match example_session with
  | Ret s =>
      exists toks s',
        run example_host 0 (click_clear :: map press toks) s = Ret s' /\
        input s' = solution (puzzle s) /\
        puzzle s' = puzzle s /\ mode s' = mode s /\
        tone (checkSolution example_host s') = tone_success /\
        message (checkSolution example_host s') = "Great work! You made 24."
  | _ => False
  end.
Proof.
  destruct example_session as [s| |] eqn:E;
    [|vm_compute in E; discriminate E|vm_compute in E; discriminate E].
  apply (shown_solution_wins example_host s).
  - exact example_host_random.
  - exact example_host_sorts.
  - exact example_host_evaluates.
  - now apply example_session_reachable.
Defined.

(** X18. [search] keeps the first solution of its traversal: on a pool that
    is not a single operand, its result is the result of the first recursive
    call, in the order of the loops over [i], [j] and the operators, that
    returns a string (or fails); it is [null] when none does. *)
Theorem search_first_found (mode : Mode) (fuel : nat) (arr : list ExprNode) :
  List.length arr <> 1%nat ->
  search mode (S fuel) arr = first_found (search mode fuel) (subpools mode arr).
Proof. intros Hlen. rewrite search_S. now apply search_body_first_found. Qed.

Lemma search_first_found_witness :
  search hard 4 (seeds [3; 8; 3; 8]%Z)
  = first_found (search hard 3) (subpools hard (seeds [3; 8; 3; 8]%Z)).
Proof.
  apply (search_first_found hard 3 (seeds [3; 8; 3; 8]%Z)). simpl. lia.
Defined.

(** X19. While a hint request is loading, neither a hint nor an error of an
    earlier request is left on show; and the status [error] always comes
    with the error message. *)
Theorem ai_status_consistent (h : Host) (s : State) :
  reachable h s ->
  (aiStatus s = status_loading -> aiHint s = EmptyString /\ aiError s = EmptyString) /\
  (aiStatus s = status_error ->
   aiError s = "Could not fetch a hint right now. Please try again in a moment.").
Proof.
  intros H.
  assert (Hok : ai_ok s).
  { induction H as [fuel k s H|fuel e s s' _ IH H].
    - eapply mount_ai; eauto.
    - eapply handle_ai; eauto. }
  unfold ai_ok in Hok. destruct (aiStatus s); split; intros E; try discriminate E; auto.
Qed.

Lemma ai_status_consistent_witness :
  match example_session with
  | Ret s =>
      (aiStatus s = status_loading ->
       aiHint s = EmptyString /\ aiError s = EmptyString) /\
      (aiStatus s = status_error ->
       aiError s = "Could not fetch a hint right now. Please try again in a moment.")
  | _ => False
  end.
Proof.
  destruct example_session as [s| |] eqn:E;
    [|vm_compute in E; discriminate E|vm_compute in E; discriminate E].
  apply (ai_status_consistent example_host s). now apply example_session_reachable.
Defined.

(** X20. The complaints of [checkSolution]: on an empty expression it asks
    to build one first; on an expression that does not use as many
    positions as the puzzle has numbers it asks to use every number once;
    when the evaluator throws it calls the expression invalid; and when the
    evaluator returns a value that is not a finite number within tolerance
    of 24 it shows that value. The tone is [error] in each case. *)
Theorem check_reports_errors (h : Host) (s : State) :
  reachable h s ->
  (tokens s = [] ->
   checkSolution h s = setFeedback "Build an expression first." tone_error s) /\
  (tokens s <> [] ->
   List.length (usedIndices s) <> List.length (nums (puzzle s)) ->
   checkSolution h s = setFeedback "Use every number exactly once." tone_error s) /\
  (tokens s <> [] ->
   List.length (usedIndices s) = List.length (nums (puzzle s)) ->
   evaluateExpression h (input s) = Thrown ->
   checkSolution h s = setFeedback "That expression is not valid." tone_error s) /\
  (forall v,
   tokens s <> [] ->
   List.length (usedIndices s) = List.length (nums (puzzle s)) ->
   evaluateExpression h (input s) = Returned v -> makes24 h v = false ->
   checkSolution h s
   = setFeedback ("That equals " ++ String_of h v ++ ". Keep going!") tone_error s).
Proof.
  intros H. apply reachable_invariant in H. destruct H as [_ Ht _ _ _].
  assert (Hne : tokens s <> [] ->
                Nat.eqb (String.length (trim (input s))) 0 = false).
  { intros Hn. destruct (Nat.eqb (String.length (trim (input s))) 0) eqn:E; [|reflexivity].
    apply (input_empty s Ht) in E. contradiction. }
  split; [apply checkSolution_empty|]. split; [|split].
  - intros Hn Hlen. unfold checkSolution. rewrite (Hne Hn).
    apply Nat.eqb_neq in Hlen. now rewrite Hlen.
  - intros Hn Hlen Hev. unfold checkSolution. rewrite (Hne Hn), Hlen, Nat.eqb_refl.
    cbn [negb]. now rewrite Hev.
  - intros v Hn Hlen Hev Hv. unfold checkSolution.
    rewrite (Hne Hn), Hlen, Nat.eqb_refl. cbn [negb]. now rewrite Hev, Hv.
Qed.

Lemma check_reports_errors_witness :
  match example_session with
  | Ret s =>
      tokens s <> [] /\
      List.length (usedIndices s) <> List.length (nums (puzzle s)) /\
      checkSolution example_host s
      = setFeedback "Use every number exactly once." tone_error s
  | _ => False
  end.
Proof.
  destruct example_session as [s| |] eqn:E;
    [|vm_compute in E; discriminate E|vm_compute in E; discriminate E].
  assert (Hr : reachable example_host s) by now apply example_session_reachable.
  vm_compute in E. inversion E; subst s; clear E.
  split; [discriminate|]. split; [discriminate|].
  apply (proj1 (proj2 (check_reports_errors example_host _ Hr))); discriminate.
Defined.

(** X21. In hard mode, on four digits from 1 to 9, the two tolerances play
    no part: a string returned by [findSolution] is an expression whose
    value in exact rational arithmetic is 24, a string is returned whenever
    such an expression over the four digits exists, and [null] is returned
    when none does. *)
Theorem hard_solution_exact (nums : list Z) :
  List.length nums = 4%nat -> Forall (fun n => (1 <= n <= 9)%Z) nums ->
  (forall s, findSolution nums hard = Ret (Some s) ->
     exists t q, parse s = Some t /\ Permutation (leaves t) nums /\
                 rat_value t = Some q /\
                 QArith_base.Qeq q (QArith_base.inject_Z 24)) /\
  ((exists t q, Permutation (leaves t) nums /\ rat_value t = Some q /\
                QArith_base.Qeq q (QArith_base.inject_Z 24)) ->
   exists s, findSolution nums hard = Ret (Some s)) /\
  ((forall t q, Permutation (leaves t) nums -> rat_value t = Some q ->
                ~ QArith_base.Qeq q (QArith_base.inject_Z 24)) ->
   findSolution nums hard = Ret None).
Proof.
  intros Hlen Hd.
  assert (Hsound : forall s, findSolution nums hard = Ret (Some s) ->
     exists t q, parse s = Some t /\ Permutation (leaves t) nums /\
                 rat_value t = Some q /\
                 QArith_base.Qeq q (QArith_base.inject_Z 24)).
  { intros s H. destruct (found_buildable _ _ _ H) as (t & <- & Hl & Hb & Hv).
    destruct (four_digits_tree nums t Hlen Hd Hl) as (Hdt & Hlt).
    destruct (four_tree t Hdt Hlt (or_introl Hb)) as (_ & q & Hq & Hn).
    exists t, q. split; [apply parse_render|]. split; [exact Hl|].
    split; [exact Hq|]. apply QArith_base.Qeq_bool_iff. congruence. }
  split; [exact Hsound|]. split.
  - intros (t & q & Hl & Hq & H24).
    destruct (four_digits_tree nums t Hlen Hd Hl) as (Hdt & Hlt).
    assert (Hv : rat_value t <> None) by congruence.
    destruct (four_tree t Hdt Hlt (or_intror Hv)) as (Hb & q' & Hq' & Hn).
    apply buildable_found with t; [exact Hl|exact Hb|].
    rewrite Hn. apply QArith_base.Qeq_bool_iff. congruence.
  - intros Hnone. destruct (findSolution_total nums hard) as ([s|] & Hr); [|exact Hr].
    destruct (Hsound s Hr) as (t & q & _ & Hl & Hq & H24).
    destruct (Hnone t q Hl Hq H24).
Qed.

Lemma hard_solution_exact_witness :
  List.length [3; 3; 8; 8]%Z = 4%nat /\
  exists t q, parse "(8/(3-(8/3)))" = Some t /\
              Permutation (leaves t) [3; 3; 8; 8]%Z /\
              rat_value t = Some q /\
              QArith_base.Qeq q (QArith_base.inject_Z 24).
Proof.
  assert (Hlen : List.length [3; 3; 8; 8]%Z = 4%nat) by reflexivity.
  assert (Hd : Forall (fun n => (1 <= n <= 9)%Z) [3; 3; 8; 8]%Z)
    by (repeat constructor; lia).
  split; [exact Hlen|].
  apply (proj1 (hard_solution_exact [3; 3; 8; 8]%Z Hlen Hd)).
  vm_compute. reflexivity.
Defined.
